(** * RPC scheduling, caching and real-time broadcast core of the EVM wallet backend

    A shallow embedding of
    - [src/utils/cache.js]   ([MemoryCache], [RpcCache]),
    - [src/utils/queue.js]   ([getNetworkQueue], [enqueueNetworkRequest]),
    - the WebSocket service  ([isRateLimited], the subscribe / unsubscribe /
      disconnect handlers of [initializeWebSocketServer]),
    followed by the properties of these components.

    Conventions.
    - [Date.now()] is an explicit argument [now] of every operation that
      reads the clock; timestamps and durations are millisecond counts in [N].
    - A JS [Map] is an insertion-ordered association list with unique keys
      (iteration order matters for [evictLRU]); a JS object used as a
      dictionary is a [gmap] over its own properties, and where the code
      reads it with a key from a client, a key that names a member of
      [Object.prototype] reads as that member ([Hub.read]); a JS [Set]
      is a [gset].
    - [undefined] / an omitted argument is [None]. *)

From Stdlib Require Import ZArith NArith Lia Ascii.
From stdpp Require Import base option list gmap sets strings pretty sorting.

Local Open Scope N_scope.
#[local] Set Warnings "-register-all,-clear-no-such-hyp".

(* ================================================================== *)
(** * Part I. The embedding                                            *)
(* ================================================================== *)

(** ** JavaScript values and [JSON.stringify] *)

Module Js.

(** Truthiness of an optional number: [undefined] and [0] are falsy. *)
Definition truthyN (x : option N) : bool :=
  match x with
  | Some n => negb (n =? 0)
  | None => false
  end.

(** [x || d] on numbers. *)
Definition orN (x : option N) (d : N) : N :=
  match x with
  | Some n => if n =? 0 then d else n
  | None => d
  end.

(** Truthiness of a nullable string: [null] and the empty string are falsy. *)
Definition truthyS (x : option string) : bool :=
  match x with
  | Some s => negb (String.eqb s EmptyString)
  | None => false
  end.

(** The values that [JSON.stringify] serialises in this code base:
    [null], booleans, integral numbers, strings, arrays, and plain
    objects with their own properties in the order of their creation.
    [Num n] stands for the Number [n] with [n] between [-(2^53 - 1)]
    and [2^53 - 1], the range in which every integer is a Number and is
    printed digit by digit, and an object has each property name once;
    [wf] states both.  A [BigInt] is no value of this type:
    [JSON.stringify] throws on it. *)
Inductive value : Type :=
| Null
| Bool (b : bool)
| Num (n : Z)
| Str (s : string)
| Arr (items : list value)
| Obj (props : list (string * value)).

Definition dquote : string := String (Ascii.ascii_of_nat 34) EmptyString.

Definition hex_digit (n : nat) : string :=
  String (Ascii.ascii_of_nat (if (n <? 10)%nat then 48 + n else 87 + n)) EmptyString.

(** Escaping of one character inside a JSON string literal. *)
Definition escape_char (c : Ascii.ascii) : string :=
  let n := Ascii.nat_of_ascii c in
  if (n =? 34)%nat then "\" +:+ dquote
  else if (n =? 92)%nat then "\\"
  else if (n =? 8)%nat then "\b"
  else if (n =? 9)%nat then "\t"
  else if (n =? 10)%nat then "\n"
  else if (n =? 12)%nat then "\f"
  else if (n =? 13)%nat then "\r"
  else if (n <? 32)%nat then "\u00" +:+ hex_digit (n / 16) +:+ hex_digit (n mod 16)
  else String c EmptyString.

Fixpoint escape (s : string) : string :=
  match s with
  | EmptyString => EmptyString
  | String c s' => escape_char c +:+ escape s'
  end.

Definition quote (s : string) : string := dquote +:+ escape s +:+ dquote.

Definition join_comma (parts : list string) : string :=
  match parts with
  | [] => EmptyString
  | p :: ps => fold_left (fun acc q => acc +:+ "," +:+ q) ps p
  end.

(** The property [k] of a property list. *)
Fixpoint assoc {A : Type} (k : string) (props : list (string * A)) : option A :=
  match props with
  | [] => None
  | (k', v) :: rest => if String.eqb k k' then Some v else assoc k rest
  end.

Definition digit (c : Ascii.ascii) : option N :=
  let n := N_of_ascii c in
  if (48 <=? n) && (n <=? 57) then Some (n - 48) else None.

Fixpoint parse_digits (acc : N) (s : string) : option N :=
  match s with
  | EmptyString => Some acc
  | String c s' =>
      match digit c with
      | Some d => parse_digits (10 * acc + d) s'
      | None => None
      end
  end.

(** A property name that is an array index: the canonical numeral (the
    one that prints back as the name) of an integer below [2^32 - 1]. *)
Definition array_index (name : string) : option N :=
  match parse_digits 0 name with
  | Some n => if String.eqb (pretty n) name && (n <? 4294967295) then Some n else None
  | None => None
  end.

(** The order in which the own properties of an object are visited
    ([Object.keys], [JSON.stringify]): first the array indices in
    ascending numeric order, then the other names in the order of their
    creation. *)
Definition own_keys (names : list string) : list string :=
  (pretty <$> merge_sort N.le (omap array_index names)) ++
  filter (fun name => array_index name = None) names.

(** [JSON.stringify(v)] without indentation. *)
Fixpoint stringify (v : value) : string :=
  match v with
  | Null => "null"
  | Bool true => "true"
  | Bool false => "false"
  | Num n => pretty n
  | Str s => quote s
  | Arr items => "[" +:+ join_comma (map stringify items) +:+ "]"
  | Obj props =>
      let printed := map (fun kv => (kv.1, stringify kv.2)) props in
      "{" +:+
      join_comma
        (omap (fun k => (fun text => quote k +:+ ":" +:+ text) <$> assoc k printed)
              (own_keys (map fst props))) +:+
      "}"
  end.

(** Deep value equality ("equal as values"): primitives by value, arrays
    element-wise, objects by their property sets irrespective of the
    order in which the properties were created. *)
Fixpoint val_eqb (a b : value) : bool :=
  match a, b with
  | Null, Null => true
  | Bool x, Bool y => Bool.eqb x y
  | Num x, Num y => (x =? y)%Z
  | Str x, Str y => String.eqb x y
  | Arr xs, Arr ys =>
      (fix go (xs ys : list value) : bool :=
         match xs, ys with
         | [], [] => true
         | x :: xs', y :: ys' => val_eqb x y && go xs' ys'
         | _, _ => false
         end) xs ys
  | Obj ps, Obj qs =>
      (length ps =? length qs)%nat &&
      (fix go (ps : list (string * value)) : bool :=
         match ps with
         | [] => true
         | (k, v) :: ps' =>
             match assoc k qs with
             | Some w => val_eqb v w
             | None => false
             end && go ps'
         end) ps
  | _, _ => false
  end.

(** In corresponding objects of the two values, the property names that
    are no array indices were created in the same order. *)
Fixpoint same_creation_order (a b : value) : bool :=
  match a, b with
  | Arr xs, Arr ys =>
      (fix go (xs ys : list value) : bool :=
         match xs, ys with
         | x :: xs', y :: ys' => same_creation_order x y && go xs' ys'
         | _, _ => true
         end) xs ys
  | Obj ps, Obj qs =>
      bool_decide (filter (fun name => array_index name = None) (map fst ps) =
                   filter (fun name => array_index name = None) (map fst qs)) &&
      (fix go (ps : list (string * value)) : bool :=
         match ps with
         | [] => true
         | (k, v) :: ps' =>
             match assoc k qs with
             | Some w => same_creation_order v w
             | None => true
             end && go ps'
         end) ps
  | _, _ => true
  end.

Fixpoint distinct (names : list string) : bool :=
  match names with
  | [] => true
  | name :: rest => negb (existsb (String.eqb name) rest) && distinct rest
  end.

(** [Number.isSafeInteger]. *)
Definition safe_integer (n : Z) : bool := (Z.abs n <=? 9007199254740991)%Z.

(** The value is one that JavaScript can hold: numbers are safe
    integers and no object has a property name twice. *)
Fixpoint wf (v : value) : bool :=
  match v with
  | Num n => safe_integer n
  | Arr items => forallb wf items
  | Obj props => distinct (map fst props) && forallb (fun kv => wf kv.2) props
  | _ => true
  end.

End Js.

(** ** [MemoryCache] (src/utils/cache.js) *)

Module MemoryCache.

(** An entry [{ value, expiry, lastAccessed }]. *)
Record Item (V : Type) : Type := mkItem {
  value : V;
  expiry : N;
  lastAccessed : N
}.
Arguments mkItem {V} _ _ _.
Arguments value {V} _.
Arguments expiry {V} _.
Arguments lastAccessed {V} _.

(** [this.stats]. *)
Record Stats : Type := mkStats {
  hits : N;
  misses : N;
  sets : N;
  evictions : N
}.

(** The cache object: [this.cache] (a [Map]), [this.ttl], [this.maxSize]
    and [this.stats].  The fields [hitCount] and [missCount] are written
    once by the constructor and never read; they are left out. *)
Record t (V : Type) : Type := mk {
  cache : list (string * Item V);
  ttl : N;
  maxSize : N;
  stats : Stats
}.
Arguments mk {V} _ _ _ _.
Arguments cache {V} _.
Arguments ttl {V} _.
Arguments maxSize {V} _.
Arguments stats {V} _.

Section Ops.
Context {V : Type}.

(** *** The [Map] primitives *)

Fixpoint map_get (k : string) (m : list (string * Item V)) : option (Item V) :=
  match m with
  | [] => None
  | (k', it) :: rest => if String.eqb k k' then Some it else map_get k rest
  end.

(** [Map.prototype.set]: an existing key keeps its position, a new key
    goes to the end. *)
Fixpoint map_set (k : string) (it : Item V) (m : list (string * Item V))
  : list (string * Item V) :=
  match m with
  | [] => [(k, it)]
  | (k', it') :: rest =>
      if String.eqb k k' then (k, it) :: rest else (k', it') :: map_set k it rest
  end.

Fixpoint map_delete (k : string) (m : list (string * Item V)) : list (string * Item V) :=
  match m with
  | [] => []
  | (k', it') :: rest =>
      if String.eqb k k' then rest else (k', it') :: map_delete k rest
  end.

Definition map_size (m : list (string * Item V)) : N := N.of_nat (length m).

(** *** Constructor: [ttl = options.ttl || 60000], [maxSize = options.maxSize || 1000] *)
Definition new (opt_ttl opt_maxSize : option N) : t V :=
  mk [] (Js.orN opt_ttl 60000) (Js.orN opt_maxSize 1000) (mkStats 0 0 0 0).

Definition bump_hits (s : Stats) : Stats :=
  mkStats (hits s + 1) (misses s) (sets s) (evictions s).
Definition bump_misses (s : Stats) : Stats :=
  mkStats (hits s) (misses s + 1) (sets s) (evictions s).
Definition bump_sets (s : Stats) : Stats :=
  mkStats (hits s) (misses s) (sets s + 1) (evictions s).
Definition bump_evictions (s : Stats) : Stats :=
  mkStats (hits s) (misses s) (sets s) (evictions s + 1).

(** *** [get(key)] *)
Definition get (now : N) (key : string) (c : t V) : option V * t V :=
  match map_get key (cache c) with
  | None =>
      (None, mk (cache c) (ttl c) (maxSize c) (bump_misses (stats c)))
  | Some item =>
      if negb (expiry item =? 0) && (expiry item <? now) then
        (None, mk (map_delete key (cache c)) (ttl c) (maxSize c) (bump_misses (stats c)))
      else
        (Some (value item),
         mk (map_set key (mkItem (value item) (expiry item) now) (cache c))
            (ttl c) (maxSize c) (bump_hits (stats c)))
  end.

(** *** [evictLRU()] *)

(** The loop over [this.cache.entries()]: [oldest] starts at [Infinity]
    ([None]) and [oldestKey] at [null] ([None]). *)
Definition lru_step (acc : option N * option string) (e : string * Item V)
  : option N * option string :=
  let older :=
    match acc.1 with
    | None => true
    | Some o => lastAccessed e.2 <? o
    end in
  if older then (Some (lastAccessed e.2), Some e.1) else acc.

Definition lru_scan (m : list (string * Item V)) : option N * option string :=
  fold_left lru_step m (None, None).

Definition evictLRU (c : t V) : t V :=
  let oldestKey := (lru_scan (cache c)).2 in
  if Js.truthyS oldestKey then
    match oldestKey with
    | Some k => mk (map_delete k (cache c)) (ttl c) (maxSize c) (bump_evictions (stats c))
    | None => c
    end
  else c.

(** *** [set(key, value, ttl)] *)
Definition set (now : N) (key : string) (v : V) (ttl_arg : option N) (c : t V) : t V :=
  let expiry :=
    if Js.truthyN ttl_arg then now + default 0 ttl_arg else now + ttl c in
  let c1 := mk (cache c) (ttl c) (maxSize c) (bump_sets (stats c)) in
  let c2 := if maxSize c1 <=? map_size (cache c1) then evictLRU c1 else c1 in
  mk (map_set key (mkItem v expiry now) (cache c2)) (ttl c2) (maxSize c2) (stats c2).

(** *** [delete(key)] and [clear()] *)
Definition delete (key : string) (c : t V) : t V :=
  mk (map_delete key (cache c)) (ttl c) (maxSize c) (stats c).

Definition clear (c : t V) : t V :=
  mk [] (ttl c) (maxSize c) (mkStats 0 0 0 0).

(** The operations a client of the cache can perform. *)
Inductive op : Type :=
| OpGet (now : N) (key : string)
| OpSet (now : N) (key : string) (v : V) (ttl_arg : option N)
| OpDelete (key : string)
| OpClear.

Definition run_op (o : op) (c : t V) : t V :=
  match o with
  | OpGet now key => (get now key c).2
  | OpSet now key v ttl_arg => set now key v ttl_arg c
  | OpDelete key => delete key c
  | OpClear => clear c
  end.

(** The state of a cache built by [new] after a history of operations. *)
Definition run (opt_ttl opt_maxSize : option N) (history : list op) : t V :=
  fold_left (fun c o => run_op o c) history (new opt_ttl opt_maxSize).

End Ops.

End MemoryCache.


(** ** [RpcCache] (src/utils/cache.js) *)

Module RpcCache.

(** The built-in TTL table of the constructor. *)
Definition default_ttlConfig : gmap string N :=
  list_to_map
    [ ("blockNumber", 3000); ("getCode", 3600000); ("getBalance", 10000);
      ("getTransactionCount", 5000); ("getFeeData", 15000);
      ("tokenBalance", 15000); ("getBlock", 3600000); ("default", 5000) ].

Record t (V : Type) : Type := mk {
  ttlConfig : gmap string N;
  cache : MemoryCache.t V
}.
Arguments mk {V} _ _.
Arguments ttlConfig {V} _.
Arguments cache {V} _.

Section Ops.
Context {V : Type}.

(** Constructor: [{ ...defaults, ...options.ttlConfig }] lets the caller's
    entries win; the inner cache gets [ttlConfig.default] and
    [options.maxSize || 1000]. *)
Definition new (opt_ttlConfig : gmap string N) (opt_maxSize : option N) : t V :=
  let cfg := opt_ttlConfig ∪ default_ttlConfig in
  mk cfg (MemoryCache.new (cfg !! "default") (Some (Js.orN opt_maxSize 1000))).

(** [createKey(method, params)]: the template string
    [`${method}:${JSON.stringify(params)}`] with [params] an array. *)
Definition createKey (method : string) (params : list Js.value) : string :=
  method +:+ ":" +:+ Js.stringify (Js.Arr params).

(** [getTtl(method)]: [ttlConfig[method] || ttlConfig.default]. *)
Definition getTtl (method : string) (r : t V) : option N :=
  if Js.truthyN (ttlConfig r !! method) then ttlConfig r !! method
  else ttlConfig r !! "default".

Definition get (now : N) (method : string) (params : list Js.value) (r : t V)
  : option V * t V :=
  let key := createKey method params in
  let res := MemoryCache.get now key (cache r) in
  (res.1, mk (ttlConfig r) res.2).

Definition set (now : N) (method : string) (params : list Js.value) (v : V) (r : t V)
  : t V :=
  let key := createKey method params in
  let ttl := getTtl method r in
  mk (ttlConfig r) (MemoryCache.set now key v ttl (cache r)).

(** [invalidate(method)]: first collect the keys starting with
    [`${method}:`], then delete them one by one. *)
Definition keysToDelete (method : string) (m : list (string * MemoryCache.Item V))
  : list string :=
  filter (fun key => String.prefix (method +:+ ":") key = true) (map fst m).

Definition invalidate (method : string) (r : t V) : t V :=
  mk (ttlConfig r)
     (fold_left (fun c key => MemoryCache.delete key c)
                (keysToDelete method (MemoryCache.cache (cache r)))
                (cache r)).

(** The operations a client of the RPC cache can perform, and the state
    of a cache built by [new] after a history of them. *)
Inductive op : Type :=
| OpGet (now : N) (method : string) (params : list Js.value)
| OpSet (now : N) (method : string) (params : list Js.value) (v : V)
| OpInvalidate (method : string).

Definition run_op (o : op) (r : t V) : t V :=
  match o with
  | OpGet now method params => (get now method params r).2
  | OpSet now method params v => set now method params v r
  | OpInvalidate method => invalidate method r
  end.

Definition run (opt_ttlConfig : gmap string N) (opt_maxSize : option N) (history : list op)
  : t V :=
  fold_left (fun r o => run_op o r) history (new opt_ttlConfig opt_maxSize).

(** The entry stored under a key, if any. *)
Definition entry (key : string) (r : t V) : option (MemoryCache.Item V) :=
  MemoryCache.map_get key (MemoryCache.cache (cache r)).

End Ops.

(** A method name without a colon, as are all RPC method names. *)
Fixpoint colon_free (s : string) : bool :=
  match s with
  | EmptyString => true
  | String c s' => negb (Ascii.eqb c ":"%char) && colon_free s'
  end.

End RpcCache.


(** ** The per-network task queues (src/utils/queue.js)

    The queue engine itself is the third-party [better-queue] package; the
    repository only configures it.  What the repository fixes is embedded
    from the source: the options object, the process function, the lazily
    filled table [networkQueues] and the promise wiring of
    [enqueueNetworkRequest].  The engine's scheduling and retry rules are
    modelled from section 4.3 of the specification and marked as such. *)

Module NetworkQueue.

(** The options literal [{ concurrent: concurrency, maxRetries: 3, retryDelay: 1000 }]. *)
Record Options : Type := mkOptions {
  concurrent : nat;
  maxRetries : nat;
  retryDelay : N
}.

Definition queue_options (concurrency : nat) : Options :=
  mkOptions concurrency 3 1000.

(** The default of the parameter [concurrency = 3]. *)
Definition default_concurrency : nat := 3.

(** *** One task and its retries *)

(** What one call of [task.fn()] does: the awaited promise fulfils or the
    call throws / the promise rejects. *)
Inductive outcome (R E : Type) : Type :=
| Returned (r : R)
| Thrown (e : E).
Arguments Returned {R E} _.
Arguments Thrown {R E} _.

(** What the process function reports to the queue: [cb(null, result)] or
    [cb(error)]. *)
Inductive callback (R E : Type) : Type :=
| CbResult (r : R)
| CbError (e : E).
Arguments CbResult {R E} _.
Arguments CbError {R E} _.

(** The ticket events of a pushed task and the promise built on them. *)
Inductive settled (R E : Type) : Type :=
| Finished (r : R)
| Failed (e : E).
Arguments Finished {R E} _.
Arguments Failed {R E} _.

Inductive promise (R E : Type) : Type :=
| Resolved (r : R)
| Rejected (e : E).
Arguments Resolved {R E} _.
Arguments Rejected {R E} _.

(** What happens to one task over time: it is run for the [n]-th time
    (counting from 0), or the queue waits before a retry. *)
Inductive event : Type :=
| Run (attempt : nat)
| Wait (ms : N).

(** The timeline "[n + 1] runs, numbered from [attempt], with a pause of
    [delay] between consecutive runs". *)
Fixpoint spaced_runs (delay : N) (attempt n : nat) : list event :=
  match n with
  | O => [Run attempt]
  | S n' => Run attempt :: Wait delay :: spaced_runs delay (S attempt) n'
  end.

Section Task.
Context {R E : Type}.

(** The process function handed to [new Queue]:
    [try { const result = await task.fn(); cb(null, result) } catch (error) { cb(error) }]. *)
Definition process (o : outcome R E) : callback R E :=
  match o with
  | Returned r => CbResult r
  | Thrown e => CbError e
  end.

(** Modelled from the spec: the retry rule of the queue engine (the
    [better-queue] package is not under src/).  A failed task is run
    again after [retryDelay] until it has failed [maxRetries] times; the
    failure that exhausts the retries is terminal and carries the last
    error.  [fn n] is the outcome of the [n]-th call of [task.fn];
    [remaining] counts the failures that may still be retried. *)
Fixpoint run_from (opts : Options) (fn : nat -> outcome R E) (remaining attempt : nat)
  : list event * settled R E :=
  match process (fn attempt) with
  | CbResult r => ([Run attempt], Finished r)
  | CbError e =>
      match remaining with
      | O => ([Run attempt], Failed e)
      | S remaining' =>
          let rest := run_from opts fn remaining' (S attempt) in
          (Run attempt :: Wait (retryDelay opts) :: rest.1, rest.2)
      end
  end.

(** Modelled from the spec: the life of one pushed task in the engine
    (not under src/): first run, then the retry rule with [maxRetries]
    failures allowed in total. *)
Definition run_task (opts : Options) (fn : nat -> outcome R E) : list event * settled R E :=
  run_from opts fn (maxRetries opts - 1) 0.

(** The promise of [enqueueNetworkRequest]: ['finish'] resolves it with
    the result, ['failed'] rejects it with the error. *)
Definition settle (s : settled R E) : promise R E :=
  match s with
  | Finished r => Resolved r
  | Failed e => Rejected e
  end.

(** Modelled from the spec: the promise of a task that is the only one
    in its queue to carry its id (the spec's [QueueTask] has a unique
    id): the engine runs and retries it under the options of
    [getNetworkQueue], and the ticket events settle the promise. *)
Definition promise_of_sole_task (fn : nat -> outcome R E) : list event * promise R E :=
  let res := run_task (queue_options default_concurrency) fn in
  (res.1, settle res.2).

(** The task object handed to [queue.push]. *)
Record Task : Type := mkTask {
  id : string;
  fn : nat -> outcome R E
}.

End Task.
Arguments Task : clear implicits.

(** The id of a pushed task,
    [`task-${Date.now()}-${Math.floor(Math.random() * 1000)}`];
    [random] is the value of [Math.floor(Math.random() * 1000)], one of
    0, ..., 999. *)
Definition task_id (now random : N) : string :=
  "task-" +:+ pretty now +:+ "-" +:+ pretty random.

(** *** Scheduling *)

(** Modelled from the spec: the state of one queue of the engine (the
    [better-queue] package is not under src/), after the data model's
    [NetworkQueueState]: the options it was created with, the tasks
    currently running and the FIFO pending list. *)
Record Queue : Type := mkQueue {
  options : Options;
  running : list string;
  pending : list string
}.

(** Modelled from the spec: a queue is created idle, with nothing
    pending (the [better-queue] constructor is not under src/). *)
Definition new_queue (opts : Options) : Queue := mkQueue opts [] [].

(** Modelled from the spec: a worker picks up the head of the pending
    list as long as the running count is below the concurrency limit. *)
Fixpoint pick_up (limit : nat) (run waiting : list string) : list string * list string :=
  match waiting with
  | [] => (run, [])
  | task :: rest =>
      if (length run <? limit)%nat then pick_up limit (run ++ [task]) rest
      else (run, waiting)
  end.

(** Modelled from the spec: the engine's scheduling round (not under
    src/), which lets workers pick up pending tasks up to the limit
    [concurrent] of the queue. *)
Definition dispatch (q : Queue) : Queue :=
  let rw := pick_up (concurrent (options q)) (running q) (pending q) in
  mkQueue (options q) rw.1 rw.2.

(** Modelled from the spec: [push] of the engine (not under src/)
    appends the task to the pending list, then workers pick up. *)
Definition push (task : string) (q : Queue) : Queue :=
  dispatch (mkQueue (options q) (running q) (pending q ++ [task])).

(** Modelled from the spec: the end of a run in the engine (not under
    src/): a task that ends (success, terminal failure, or failure
    awaiting its retry) frees its slot, then workers pick up. *)
Definition task_ended (task : string) (q : Queue) : Queue :=
  dispatch (mkQueue (options q) (filter (fun t => t ≠ task) (running q)) (pending q)).

(** [networkQueues] and [getNetworkQueue(networkKey, concurrency)]: a
    queue is created on first use and never replaced. *)
Definition getNetworkQueue (networkKey : string) (concurrency : nat)
    (networkQueues : gmap string Queue) : gmap string Queue :=
  match networkQueues !! networkKey with
  | Some _ => networkQueues
  | None => <[networkKey := new_queue (queue_options concurrency)]> networkQueues
  end.

Definition networkKey_of (network networkType : string) : string :=
  network +:+ ":" +:+ networkType.

(** What can happen to the table of queues: a caller enqueues a task for
    a network, or a running task of some queue ends. *)
Inductive action : Type :=
| Enqueue (network networkType task : string)
| Ended (networkKey task : string).

Definition step (a : action) (qs : gmap string Queue) : gmap string Queue :=
  match a with
  | Enqueue network networkType task =>
      let key := networkKey_of network networkType in
      let qs' := getNetworkQueue key default_concurrency qs in
      match qs' !! key with
      | Some q => <[key := push task q]> qs'
      | None => qs'
      end
  | Ended key task =>
      match qs !! key with
      | Some q => <[key := task_ended task q]> qs
      | None => qs
      end
  end.

Definition run (actions : list action) : gmap string Queue :=
  fold_left (fun qs a => step a qs) actions ∅.

(** [enqueueNetworkRequest(network, networkType, taskFn)] up to the
    call of [queue.push]: the table of queues after
    [getNetworkQueue(networkKey)], the key of the queue that is used,
    and the task that is pushed on it.  The engine identifies a task by
    its [id]; the returned promise is wired to the ticket of the push
    (['finish'] resolves it, ['failed'] rejects it, see [settle]). *)
Definition enqueueNetworkRequest {R E : Type} (network networkType : string)
    (now random : N) (taskFn : nat -> outcome R E) (networkQueues : gmap string Queue)
  : gmap string Queue * string * Task R E :=
  let networkKey := networkKey_of network networkType in
  (getNetworkQueue networkKey default_concurrency networkQueues,
   networkKey,
   mkTask (task_id now random) taskFn).

End NetworkQueue.


(** ** Property names of object literals *)

Module JsObject.

(** The property names an object literal inherits from
    [Object.prototype]: [obj[key]] with one of these names finds the
    inherited member as long as [obj] has no own property of that name,
    so such a key is never "missing". *)
Definition inherited : list string :=
  ["constructor"; "__proto__"; "hasOwnProperty"; "isPrototypeOf";
   "propertyIsEnumerable"; "toLocaleString"; "toString"; "valueOf";
   "__defineGetter__"; "__defineSetter__"; "__lookupGetter__"; "__lookupSetter__"].

(** A key whose lookup is decided by the own properties alone. *)
Definition plain (key : string) : bool :=
  negb (existsb (String.eqb key) inherited).

End JsObject.

(** ** Networks *)

Module Network.

(** The [chainId] tables of [NETWORKS], in source order. *)
Definition NETWORKS : list (string * list (string * Z)) :=
  [ ("ethereum", [("mainnet", 1); ("sepolia", 11155111); ("goerli", 5)]);
    ("polygon", [("mainnet", 137); ("mumbai", 80001)]);
    ("bsc", [("mainnet", 56); ("testnet", 97)]);
    ("optimism", [("mainnet", 10); ("goerli", 420)]);
    ("arbitrum", [("mainnet", 42161); ("goerli", 421613)]) ]%Z.

Fixpoint find_type (chainId : Z) (types : list (string * Z)) : option string :=
  match types with
  | [] => None
  | (type, id) :: rest => if (id =? chainId)%Z then Some type else find_type chainId rest
  end.

Fixpoint find_network (chainId : Z) (networks : list (string * list (string * Z)))
  : string * string :=
  match networks with
  | [] => ("unknown", "unknown")
  | (network, types) :: rest =>
      match find_type chainId types with
      | Some type => (network, type)
      | None => find_network chainId rest
      end
  end.

(** [getNetworkNameById(chainId)]. *)
Definition getNetworkNameById (chainId : Z) : string * string :=
  find_network chainId NETWORKS.

Fixpoint assoc {A : Type} (key : string) (l : list (string * A)) : option A :=
  match l with
  | [] => None
  | (k, v) :: rest => if String.eqb key k then Some v else assoc key rest
  end.

(** The normalisation of the network type shared by [getProvider] and
    [getNetworkInfo] (string arguments). *)
Definition normalize (network networkType : string) : string :=
  if String.eqb network "bsc" && String.eqb networkType "testnet" then "testnet"
  else if String.eqb network "polygon" && String.eqb networkType "testnet" then "mumbai"
  else if String.eqb networkType "testnet" then "goerli"
  else networkType.

(** The [chainId] field of [getNetworkInfo(network, networkType)], for
    [JsObject.plain] strings: an error for an unknown network,
    [undefined] ([None]) for a type the network does not have. *)
Definition getNetworkInfo_chainId (network networkType : string) : string + option Z :=
  match assoc network NETWORKS with
  | None => inl ("Unsupported network: " +:+ network)
  | Some types => inr (assoc (normalize network networkType) types)
  end.

(** The [rpcUrl] tables of [NETWORKS]: per type, the environment
    variable and the default URL ([process.env.X || 'default']). *)
Definition RPC_URLS : list (string * list (string * (string * string))) :=
  [ ("ethereum",
     [("mainnet", ("ETHEREUM_MAINNET_RPC_URL", "https://ethereum.publicnode.com"));
      ("sepolia", ("ETHEREUM_SEPOLIA_RPC_URL", "https://ethereum-sepolia.publicnode.com"));
      ("goerli", ("ETHEREUM_GOERLI_RPC_URL", "https://ethereum-goerli.publicnode.com"))]);
    ("polygon",
     [("mainnet", ("POLYGON_MAINNET_RPC_URL", "https://polygon-bor.publicnode.com"));
      ("mumbai", ("POLYGON_MUMBAI_RPC_URL", "https://polygon-mumbai-bor.publicnode.com"))]);
    ("bsc",
     [("mainnet", ("BSC_MAINNET_RPC_URL", "https://binance.publicnode.com"));
      ("testnet", ("BSC_TESTNET_RPC_URL", "https://bsc-testnet.publicnode.com"))]);
    ("optimism",
     [("mainnet", ("OPTIMISM_MAINNET_RPC_URL", "https://optimism.publicnode.com"));
      ("goerli", ("OPTIMISM_GOERLI_RPC_URL", "https://optimism-goerli.publicnode.com"))]);
    ("arbitrum",
     [("mainnet", ("ARBITRUM_MAINNET_RPC_URL", "https://arbitrum.publicnode.com"));
      ("goerli", ("ARBITRUM_GOERLI_RPC_URL", "https://arbitrum-goerli.publicnode.com"))]) ].

(** [process.env.X || dflt]: an unset or empty variable gives the default. *)
Definition env_or (env : string -> option string) (var dflt : string) : string :=
  match env var with
  | Some s => if String.eqb s EmptyString then dflt else s
  | None => dflt
  end.

(** [getProvider(network, networkType)] on [JsObject.plain] strings:
    the URL the provider is created for, or the message of the thrown
    error. *)
Definition getProvider (env : string -> option string) (network networkType : string)
  : string + string :=
  match assoc network RPC_URLS with
  | None => inl ("Unsupported network: " +:+ network)
  | Some urls =>
      match assoc (normalize network networkType) urls with
      | Some (var, dflt) =>
          let rpcUrl := env_or env var dflt in
          if String.eqb rpcUrl EmptyString then
            inl (networkType +:+ " type is not supported for " +:+ network +:+ " network")
          else inr rpcUrl
      | None => inl (networkType +:+ " type is not supported for " +:+ network +:+ " network")
      end
  end.

(** Whether [getProvider(network, networkType)] returns instead of
    throwing: the pair has an entry in the [rpcUrl] tables.  The
    environment plays no part in it, an entry being
    [process.env.X || 'default'] with a non-empty default.  (For a type
    that names a member of [Object.prototype] the guard [!rpcUrl] lets
    that member through to the provider constructor in place of a URL;
    the constructor is taken to throw on it.) *)
Definition provides (network networkType : string) : bool :=
  match assoc network RPC_URLS with
  | Some urls =>
      match assoc (normalize network networkType) urls with
      | Some _ => true
      | None => false
      end
  | None => false
  end.

End Network.

(** ** The subscription hub (WebSocket service) *)

Module Hub.

(** The four properties of [activeSubscriptions] and of
    [clientSubscriptions]. *)
Inductive topic : Type := Balances | PendingTxs | Blocks | GasPrice.

#[global] Instance topic_eq_dec : EqDecision topic.
Proof. solve_decision. Defined.

(** [activeSubscriptions]: per topic, key -> set of socket ids. *)
Record Registry : Type := mkRegistry {
  balances : gmap string (gset string);
  pendingTxs : gmap string (gset string);
  blocks : gmap string (gset string);
  gasPrice : gmap string (gset string)
}.

(** [clientSubscriptions]: per topic, the keys this connection joined. *)
Record ClientSubs : Type := mkClientSubs {
  my_balances : gset string;
  my_pendingTxs : gset string;
  my_blocks : gset string;
  my_gasPrice : gset string
}.

(** [requestLimiter]. *)
Record RequestLimiter : Type := mkRequestLimiter {
  timeWindow : N;
  maxRequests : nat;
  requests : gmap string (list N)
}.

(** The variables captured by one ['connection'] callback. *)
Record Connection : Type := mkConnection {
  clientSubscriptions : ClientSubs;
  requestLimiter : RequestLimiter
}.

(** The module-level registry and the live connections by [socket.id]. *)
Record State : Type := mkState {
  activeSubscriptions : Registry;
  sockets : gmap string Connection
}.

Definition subs_of (t : topic) (a : Registry) : gmap string (gset string) :=
  match t with
  | Balances => balances a
  | PendingTxs => pendingTxs a
  | Blocks => blocks a
  | GasPrice => gasPrice a
  end.

Definition with_subs (t : topic) (m : gmap string (gset string)) (a : Registry) : Registry :=
  match t with
  | Balances => mkRegistry m (pendingTxs a) (blocks a) (gasPrice a)
  | PendingTxs => mkRegistry (balances a) m (blocks a) (gasPrice a)
  | Blocks => mkRegistry (balances a) (pendingTxs a) m (gasPrice a)
  | GasPrice => mkRegistry (balances a) (pendingTxs a) (blocks a) m
  end.

Definition keys_of (t : topic) (c : ClientSubs) : gset string :=
  match t with
  | Balances => my_balances c
  | PendingTxs => my_pendingTxs c
  | Blocks => my_blocks c
  | GasPrice => my_gasPrice c
  end.

Definition with_keys (t : topic) (s : gset string) (c : ClientSubs) : ClientSubs :=
  match t with
  | Balances => mkClientSubs s (my_pendingTxs c) (my_blocks c) (my_gasPrice c)
  | PendingTxs => mkClientSubs (my_balances c) s (my_blocks c) (my_gasPrice c)
  | Blocks => mkClientSubs (my_balances c) (my_pendingTxs c) s (my_gasPrice c)
  | GasPrice => mkClientSubs (my_balances c) (my_pendingTxs c) (my_blocks c) s
  end.

(** The subscribers of [(t, key)]; a missing key has none. *)
Definition members (t : topic) (key : string) (a : Registry) : gset string :=
  default ∅ (subs_of t a !! key).

Definition empty_registry : Registry := mkRegistry ∅ ∅ ∅ ∅.
Definition empty_subs : ClientSubs := mkClientSubs ∅ ∅ ∅ ∅.

(** A fresh connection: empty [clientSubscriptions], and a limiter of 60
    requests per 60 * 1000 ms. *)
Definition new_connection : Connection :=
  mkConnection empty_subs (mkRequestLimiter (60 * 1000) 60 ∅).

Definition init : State := mkState empty_registry ∅.

(** What a handler makes visible outside the registries; [Uncaught] is
    an exception that leaves the handler. *)
Inductive effect : Type :=
| EmitError (socket_id message : string)
| EnqueueRequest (networkKey : string)
| AttachBlockListener (networkKey : string)
| StartGasPoller (networkKey : string)
| Uncaught (socket_id : string).

(** What [activeSubscriptions[topic][key]] evaluates to.  The four
    registries are object literals, so a key that is no own property
    but names a member of [Object.prototype] reads as that member: a
    truthy value that is not a [Set]. *)
Inductive slot : Type :=
| OwnSet (s : gset string)
| Member
| Undefined.

Definition read (m : gmap string (gset string)) (key : string) : slot :=
  match m !! key with
  | Some s => OwnSet s
  | None => if JsObject.plain key then Undefined else Member
  end.

(** *** [isRateLimited(eventType)] *)
Definition in_window (now window : N) (timestamp : N) : bool :=
  (Z.of_N now - Z.of_N timestamp <? Z.of_N window)%Z.

Definition isRateLimited (now : N) (socket_id eventType : string) (rl : RequestLimiter)
  : bool * RequestLimiter :=
  let key := socket_id +:+ ":" +:+ eventType in
  let recorded := default [] (requests rl !! key) in
  let recent := filter (fun ts => in_window now (timeWindow rl) ts = true) recorded in
  if (maxRequests rl <=? length recent)%nat then
    (true, mkRequestLimiter (timeWindow rl) (maxRequests rl) (<[key := recent]> (requests rl)))
  else
    (false, mkRequestLimiter (timeWindow rl) (maxRequests rl)
              (<[key := recent ++ [now]]> (requests rl))).

(** *** The subscribe handlers *)

Definition event_name (t : topic) : string :=
  match t with
  | Balances => "subscribe:balance"
  | PendingTxs => "subscribe:transaction"
  | Blocks => "subscribe:blocks"
  | GasPrice => "subscribe:gasPrice"
  end.

(** [!activeSubscriptions[topic][key]]. *)
Definition absent (t : topic) (key : string) (a : Registry) : bool :=
  match read (subs_of t a) key with
  | Undefined => true
  | _ => false
  end.

(** [if (!active[key]) { active[key] = new Set(); ... }]: the creation
    of the set. *)
Definition create_set (t : topic) (key : string) (a : Registry) : Registry :=
  if absent t key a then with_subs t (<[key := ∅]> (subs_of t a)) a else a.

Definition networkKey_of (network networkType : string) : string :=
  network +:+ ":" +:+ networkType.

(** The rest of the [if (!active[key])] block, after the set has been
    created: the first transaction query, the ['block'] listener (for
    which [getProvider] is called, and may throw: [None]), the gas
    price timer. *)
Definition setup (t : topic) (network networkType : string) : option (list effect) :=
  match t with
  | Balances => Some []
  | PendingTxs => Some [EnqueueRequest (networkKey_of network networkType)]
  | Blocks =>
      if Network.provides network networkType
      then Some [AttachBlockListener (networkKey_of network networkType)]
      else None
  | GasPrice => Some [StartGasPoller (networkKey_of network networkType)]
  end.

(** Registration: [active[key].add(socket.id)], then
    [clientSubscriptions.add(key)].  When [active[key]] is not a set
    (it is [undefined], or a member of [Object.prototype]) the call of
    [add] throws: [None]. *)
Definition register (t : topic) (key socket_id : string) (a : Registry) (c : ClientSubs)
  : option (Registry * ClientSubs) :=
  match read (subs_of t a) key with
  | OwnSet s =>
      Some (with_subs t (<[key := s ∪ {[socket_id]}]> (subs_of t a)) a,
            with_keys t (keys_of t c ∪ {[key]}) c)
  | Member | Undefined => None
  end.

(** What follows the registration: the initial balance or gas price
    query. *)
Definition initial_fetch (t : topic) (network networkType : string) : list effect :=
  match t with
  | Balances | GasPrice => [EnqueueRequest (networkKey_of network networkType)]
  | PendingTxs | Blocks => []
  end.

Definition rate_limit_message : string := "Rate limit exceeded, please try again later.".

(** The [message] of the ['error'] event in the [catch] of each handler. *)
Definition failure_message (t : topic) : string :=
  match t with
  | Balances => "Balance subscription error"
  | PendingTxs => "Transaction subscription error"
  | Blocks => "Block subscription error"
  | GasPrice => "Gas price subscription error"
  end.

(** The common shape of the four [subscribe:*] handlers: the rate-limit
    check with an ['error'] event and an early return; then, inside
    [try], the creation of the set and the one-time set-up if the key
    is absent, the registration and the initial query; an exception on
    the way ends the handler in its [catch], with an ['error'] event
    and whatever was done before. *)
Definition subscribe (t : topic) (key network networkType : string) (now : N)
    (socket_id : string) (a : Registry) (conn : Connection)
  : Registry * Connection * list effect :=
  let chk := isRateLimited now socket_id (event_name t) (requestLimiter conn) in
  if chk.1 then
    (a, mkConnection (clientSubscriptions conn) chk.2, [EmitError socket_id rate_limit_message])
  else
    let a1 := create_set t key a in
    match (if absent t key a then setup t network networkType else Some []) with
    | None =>
        (a1, mkConnection (clientSubscriptions conn) chk.2,
         [EmitError socket_id (failure_message t)])
    | Some started =>
        match register t key socket_id a1 (clientSubscriptions conn) with
        | None =>
            (a1, mkConnection (clientSubscriptions conn) chk.2,
             started ++ [EmitError socket_id (failure_message t)])
        | Some reg =>
            (reg.1, mkConnection reg.2 chk.2, started ++ initial_fetch t network networkType)
        end
    end.

(** *** The unsubscribe handlers:
    [if (active[key]) { active[key].delete(socket.id); clientSubscriptions.delete(key) }],
    outside any [try]: on a member of [Object.prototype] the call of
    [delete] throws and the exception leaves the handler. *)
Definition unsubscribe (t : topic) (key socket_id : string)
    (a : Registry) (conn : Connection) : Registry * Connection * list effect :=
  match read (subs_of t a) key with
  | OwnSet s =>
      (with_subs t (<[key := s ∖ {[socket_id]}]> (subs_of t a)) a,
       mkConnection
         (with_keys t (keys_of t (clientSubscriptions conn) ∖ {[key]}) (clientSubscriptions conn))
         (requestLimiter conn),
       [])
  | Member => (a, conn, [Uncaught socket_id])
  | Undefined => (a, conn, [])
  end.

(** *** The disconnect handler *)

(** One iteration of a clean-up loop. *)
Definition cleanup_key (socket_id : string) (m : gmap string (gset string)) (key : string)
  : gmap string (gset string) :=
  match m !! key with
  | Some s =>
      let s' := s ∖ {[socket_id]} in
      if decide (size s' = 0%nat) then delete key m else <[key := s']> m
  | None => m
  end.

(** One clean-up loop: [for (const key of clientSubscriptions[topic]) ...]. *)
Definition cleanup_topic (socket_id : string) (c : ClientSubs) (a : Registry) (t : topic)
  : Registry :=
  with_subs t (fold_left (cleanup_key socket_id) (elements (keys_of t c)) (subs_of t a)) a.

(** The four loops in source order. *)
Definition disconnect (socket_id : string) (a : Registry) (conn : Connection) : Registry :=
  fold_left (cleanup_topic socket_id (clientSubscriptions conn)) 
            [Balances; PendingTxs; Blocks; GasPrice] a.

(** *** Messages and the server loop *)

Inductive message : Type :=
| SubscribeBalance (address network networkType : string)
| SubscribeTransaction (txHash network networkType : string)
| SubscribeBlocks (network networkType : string)
| SubscribeGasPrice (network networkType : string)
| UnsubscribeBalance (address : string)
| UnsubscribeTransaction (txHash : string)
| UnsubscribeBlocks (network networkType : string)
| UnsubscribeGasPrice (network networkType : string).

Definition handle (now : N) (socket_id : string) (msg : message)
    (a : Registry) (conn : Connection) : Registry * Connection * list effect :=
  match msg with
  | SubscribeBalance address network networkType =>
      subscribe Balances address network networkType now socket_id a conn
  | SubscribeTransaction txHash network networkType =>
      subscribe PendingTxs txHash network networkType now socket_id a conn
  | SubscribeBlocks network networkType =>
      subscribe Blocks (networkKey_of network networkType) network networkType
                now socket_id a conn
  | SubscribeGasPrice network networkType =>
      subscribe GasPrice (networkKey_of network networkType) network networkType
                now socket_id a conn
  | UnsubscribeBalance address => unsubscribe Balances address socket_id a conn
  | UnsubscribeTransaction txHash => unsubscribe PendingTxs txHash socket_id a conn
  | UnsubscribeBlocks network networkType =>
      unsubscribe Blocks (networkKey_of network networkType) socket_id a conn
  | UnsubscribeGasPrice network networkType =>
      unsubscribe GasPrice (networkKey_of network networkType) socket_id a conn
  end.

(** What the server reacts to: a new socket (ids are unique, so an id in
    use is never handed out again), a message on a live socket at clock
    reading [now], or the loss of a socket. *)
Inductive input : Type :=
| Connect (socket_id : string)
| Receive (now : N) (socket_id : string) (msg : message)
| Disconnect (socket_id : string).

Definition step (i : input) (st : State) : State * list effect :=
  match i with
  | Connect id =>
      match sockets st !! id with
      | Some _ => (st, [])
      | None => (mkState (activeSubscriptions st) (<[id := new_connection]> (sockets st)), [])
      end
  | Receive now id msg =>
      match sockets st !! id with
      | Some conn =>
          let res := handle now id msg (activeSubscriptions st) conn in
          (mkState res.1.1 (<[id := res.1.2]> (sockets st)), res.2)
      | None => (st, [])
      end
  | Disconnect id =>
      (* The handler also deletes the limiter entries of this socket; the
         limiter lives in the connection, which goes away as a whole. *)
      match sockets st !! id with
      | Some conn =>
          (mkState (disconnect id (activeSubscriptions st) conn) (delete id (sockets st)), [])
      | None => (st, [])
      end
  end.

Definition run (inputs : list input) : State :=
  fold_left (fun st i => (step i st).1) inputs init.

End Hub.


(** ** Histories of a [MemoryCache] *)

Module CacheHistory.

Section Ops.
Context {V : Type}.

(** The operations since the last [clear()], oldest first. *)
Definition since_clear (history : list (MemoryCache.op (V:=V))) : list (MemoryCache.op (V:=V)) :=
  fold_left
    (fun acc o => match o with MemoryCache.OpClear => [] | _ => acc ++ [o] end)
    history [].

Definition is_get (o : MemoryCache.op (V:=V)) : bool :=
  match o with MemoryCache.OpGet _ _ => true | _ => false end.

Definition is_set (o : MemoryCache.op (V:=V)) : bool :=
  match o with MemoryCache.OpSet _ _ _ _ => true | _ => false end.

Definition count (p : MemoryCache.op (V:=V) -> bool) (history : list (MemoryCache.op (V:=V))) : N :=
  N.of_nat (length (List.filter p history)).

(** No [set] of the history writes under the empty string. *)
Definition sets_named (o : MemoryCache.op (V:=V)) : Prop :=
  match o with
  | MemoryCache.OpSet _ key _ _ => key ≠ EmptyString
  | _ => True
  end.

End Ops.

End CacheHistory.

(** ** Users of the RPC cache: [CachedProvider] and the cache controller *)

Module CacheClients.

Section Ops.
Context {V E : Type}.

(** [CachedProvider._sendRpcRequest(method, params)].  [now1] is the
    clock at the cache lookup, [now2] the clock when the provider's
    answer is stored; [call] is what [this.provider[method](...params)]
    does if it is reached.  Values of [V] are the answers of a provider,
    none of which is [undefined].  The third component tells whether
    the provider was called. *)
Definition sendRpcRequest (now1 now2 : N) (method : string) (params : list Js.value)
    (call : NetworkQueue.outcome V E) (r : RpcCache.t V)
  : NetworkQueue.outcome V E * RpcCache.t V * bool :=
  let looked := RpcCache.get now1 method params r in
  match looked.1 with
  | Some cachedValue => (NetworkQueue.Returned cachedValue, looked.2, false)
  | None =>
      match call with
      | NetworkQueue.Returned result =>
          (NetworkQueue.Returned result,
           RpcCache.set now2 method params result looked.2, true)
      | NetworkQueue.Thrown error => (NetworkQueue.Thrown error, looked.2, true)
      end
  end.

(** The method list of the controller's [clearCache] when the route has
    no [:method]. *)
Definition clearCache_methods : list string :=
  ["getBalance"; "tokenBalance"; "getBlock"; "getFeeData"; "detectNftStandard"; "getNftOwner"].

(** [clearCache]: [if (method) invalidateCache(method) else
    methods.forEach(method => invalidateCache(method))]. *)
Definition clearCache (method : option string) (r : RpcCache.t V) : RpcCache.t V :=
  if Js.truthyS method then
    match method with
    | Some m => RpcCache.invalidate m r
    | None => r
    end
  else fold_left (fun r m => RpcCache.invalidate m r) clearCache_methods r.

End Ops.

End CacheClients.

(** ** Connection admission (the [io.use] middleware of the WebSocket service) *)

Module Admission.

(** [connectionLimits.maxConnectionsPerIP]. *)
Definition maxConnectionsPerIP : N := 10.

(** [connectionLimits.connections] and, per accepted socket that is
    still open, the [clientIP] captured by its ['disconnect'] handler. *)
Record State : Type := mkState {
  connections : gmap string N;
  open : list string
}.

Definition init : State := mkState ∅ [].

(** The middleware: the counter is incremented first; above the limit
    the handshake is refused with [next(new Error(...))] and no
    ['disconnect'] handler is installed.  The counter of an address is
    its own property of [connections], which is what the lookup gives
    for a [JsObject.plain] address. *)
Definition handshake (clientIP : string) (st : State) : bool * State :=
  let n := default 0 (connections st !! clientIP) + 1 in
  let conns := <[clientIP := n]> (connections st) in
  if maxConnectionsPerIP <? n then (false, mkState conns (open st))
  else (true, mkState conns (clientIP :: open st)).

(** The ['disconnect'] handler installed by an accepted handshake. *)
Definition on_disconnect (clientIP : string) (conns : gmap string N) : gmap string N :=
  if Js.truthyN (conns !! clientIP) then
    let n := default 0 (conns !! clientIP) - 1 in
    if n <=? 0 then delete clientIP conns else <[clientIP := n]> conns
  else conns.

Fixpoint remove_one (clientIP : string) (l : list string) : list string :=
  match l with
  | [] => []
  | ip :: rest => if String.eqb clientIP ip then rest else ip :: remove_one clientIP rest
  end.

(** A handshake from an address, or the end of an open socket of that
    address (nothing happens if none is open). *)
Inductive input : Type :=
| Handshake (clientIP : string)
| Close (clientIP : string).

(** The state after an input, and the verdict of a handshake. *)
Definition step (i : input) (st : State) : option bool * State :=
  match i with
  | Handshake ip => let r := handshake ip st in (Some r.1, r.2)
  | Close ip =>
      if bool_decide (ip ∈ open st) then
        (None, mkState (on_disconnect ip (connections st)) (remove_one ip (open st)))
      else (None, st)
  end.

(** The state after a sequence of inputs, with the addresses whose
    handshakes were refused, latest first. *)
Definition run (inputs : list input) : State * list string :=
  fold_left
    (fun acc i =>
       let r := step i acc.1 in
       (r.2,
        match i, r.1 with
        | Handshake ip, Some false => ip :: acc.2
        | _, _ => acc.2
        end))
    inputs (init, []).

Definition counter (clientIP : string) (st : State) : N :=
  default 0 (connections st !! clientIP).

Definition occurrences (clientIP : string) (l : list string) : N :=
  N.of_nat (length (List.filter (String.eqb clientIP) l)).

End Admission.

(** ** Broadcasts (WebSocket service) *)

Module Broadcast.

(** [broadcastTransactionUpdate(txHash, status, receipt)]: the return
    value, and the socket ids handed to [io.to(...)] if an event is
    emitted. *)
Definition broadcastTransactionUpdate (txHash : string) (a : Hub.Registry)
  : bool * option (gset string) :=
  match Hub.pendingTxs a !! txHash with
  | Some s => if decide (0 < size s)%nat then (true, Some s) else (false, None)
  | None => (false, None)
  end.

(** [broadcastBalanceUpdate(address, network, networkType)].  [a] is the
    registry at the call, [a'] the registry when the queued balance
    query settles with [p].  The subscriber set is read again in the
    [.then] callback; if the key is gone by then, [Array.from(undefined)]
    throws and the [.catch] turns it into [false]. *)
Definition broadcastBalanceUpdate {B E : Type} (address : string) (a : Hub.Registry)
    (p : NetworkQueue.promise B E) (a' : Hub.Registry)
  : bool * option (gset string) :=
  match Hub.balances a !! address with
  | Some s =>
      if decide (0 < size s)%nat then
        match p with
        | NetworkQueue.Resolved _ =>
            match Hub.balances a' !! address with
            | Some s' => (true, Some s')
            | None => (false, None)
            end
        | NetworkQueue.Rejected _ => (false, None)
        end
      else (false, None)
  | None => (false, None)
  end.

(** The guard at the start of every run of a background producer: the
    ['block'] listener of [subscribe:blocks] and the 15 s timer of
    [subscribe:gasPrice] stop themselves
    ([provider.removeAllListeners('block')], [clearInterval]) when
    [!activeSubscriptions[topic][networkKey] || size === 0], and
    otherwise enqueue a fetch. *)
Definition producer_stops (t : Hub.topic) (networkKey : string) (a : Hub.Registry) : bool :=
  match Hub.subs_of t a !! networkKey with
  | Some s => bool_decide (size s = 0%nat)
  | None => true
  end.

End Broadcast.

(** ** Gas utilities *)

Module Gas.

(** Truthiness of a nullable [BigInt]: [null], [undefined] and [0n] are
    falsy. *)
Definition truthyZ (x : option Z) : bool :=
  match x with
  | Some n => negb (n =? 0)%Z
  | None => false
  end.

(** [a || b]. *)
Definition orZ (a b : option Z) : option Z := if truthyZ a then a else b.

(** [x * BigInt(percent) / BigInt(100)]; [BigInt] division truncates. *)
Definition percent (x pct : Z) : Z := Z.quot (x * pct) 100.

(** [estimateGasLimit]: the estimate of the provider plus 10 %, or the
    provider's error wrapped. *)
Definition estimateGasLimit (estimate : NetworkQueue.outcome Z string)
  : NetworkQueue.outcome Z string :=
  match estimate with
  | NetworkQueue.Returned gasEstimate => NetworkQueue.Returned (percent gasEstimate 110)
  | NetworkQueue.Thrown message =>
      NetworkQueue.Thrown ("Could not estimate gas limit: " +:+ message)
  end.

(** The fields of [provider.getFeeData()] that are read. *)
Record FeeData : Type := mkFeeData {
  gasPrice : option Z;
  maxFeePerGas : option Z;
  maxPriorityFeePerGas : option Z;
  lastBaseFeePerGas : option Z
}.

(** One tier; the source prints the amounts with [toString()]. *)
Record Tier : Type := mkTier {
  tierMaxFeePerGas : option Z;
  tierMaxPriorityFeePerGas : option Z;
  tierGasPrice : option Z;
  estimatedTime : string
}.

Record Prediction : Type := mkPrediction {
  slow : Tier;
  standard : Tier;
  fast : Tier;
  baseFee : option Z;
  eip1559Supported : bool
}.

(** [predictGasPrice] on the fee data it fetched; [None] is the thrown
    "Gas price prediction failed" (arithmetic on a [null] field). *)
Definition predictGasPrice (feeData : FeeData) : option Prediction :=
  let base := orZ (lastBaseFeePerGas feeData) (gasPrice feeData) in
  if truthyZ (maxFeePerGas feeData) then
    match base, maxPriorityFeePerGas feeData with
    | Some b, Some p =>
        Some (mkPrediction
                (mkTier (Some (percent b 120)) (Some (Z.quot p 2)) None "3-5 minutes")
                (mkTier (Some (percent b 150)) (Some p) None "1-3 minutes")
                (mkTier (Some (percent b 200)) (Some (p * 2)%Z) None "<1 minute")
                (Some b) true)
    | _, _ => None
    end
  else
    match gasPrice feeData with
    | Some g =>
        Some (mkPrediction
                (mkTier None None (Some (percent g 80)) "3-5 minutes")
                (mkTier None None (Some g) "1-3 minutes")
                (mkTier None None (Some (percent g 120)) "<1 minute")
                None false)
    | None => None
    end.

(** The fees returned by [getOptimalGasFees]: the chosen tier with
    [baseFee] and [eip1559Supported] added. *)
Record Fees : Type := mkFees {
  tier : Tier;
  feesBaseFee : option Z;
  feesEip1559Supported : bool
}.

(** The [switch (priority)] of [getOptimalGasFees]. *)
Definition choose (priority : string) (prediction : Prediction) : Tier :=
  if String.eqb priority "low" then slow prediction
  else if String.eqb priority "high" then fast prediction
  else standard prediction.

Definition getOptimalGasFees (priority : string) (feeData : FeeData) : option Fees :=
  match predictGasPrice feeData with
  | Some prediction =>
      Some (mkFees (choose priority prediction) (baseFee prediction)
                   (eip1559Supported prediction))
  | None => None
  end.

End Gas.

(** ** Invariants *)

(** [MemoryCache]: keys are unique (it is a [Map]), no entry has expiry
    [0], and the configured default TTL and capacity are non-zero (the
    constructor's [||] replaces a zero). *)
Definition cache_ok {V : Type} (c : MemoryCache.t V) : Prop :=
  MemoryCache.ttl c ≠ 0 ∧ MemoryCache.maxSize c ≠ 0 ∧
  NoDup (map fst (MemoryCache.cache c)) ∧
  Forall (fun e => MemoryCache.expiry e.2 ≠ 0) (MemoryCache.cache c).

(** A network queue respects its limit, and was created by
    [getNetworkQueue] with the default concurrency. *)
Definition queue_ok (q : NetworkQueue.Queue) : Prop :=
  (length (NetworkQueue.running q) <= NetworkQueue.concurrent (NetworkQueue.options q))%nat ∧
  NetworkQueue.options q = NetworkQueue.queue_options NetworkQueue.default_concurrency.

(** The hub: a socket id is a subscriber of [(t, key)] exactly when its
    live connection lists [key] under [t] in its reverse index, and
    every limiter keeps the parameters it was created with. *)
Definition hub_ok (st : Hub.State) : Prop :=
  (∀ t key id,
     id ∈ Hub.members t key (Hub.activeSubscriptions st) <->
     ∃ conn, Hub.sockets st !! id = Some conn ∧
             key ∈ Hub.keys_of t (Hub.clientSubscriptions conn)) ∧
  (∀ id conn,
     Hub.sockets st !! id = Some conn ->
     Hub.timeWindow (Hub.requestLimiter conn) = 60000 ∧
     Hub.maxRequests (Hub.requestLimiter conn) = 60%nat).

(** The reverse index [c] of socket [socket_id] agrees with the registry. *)
Definition synced (socket_id : string) (a : Hub.Registry) (c : Hub.ClientSubs) : Prop :=
  ∀ t key, socket_id ∈ Hub.members t key a <-> key ∈ Hub.keys_of t c.

(** What one clean-up iteration of the disconnect handler leaves under
    the key it visits. *)
Definition cleaned (socket_id : string) (o : option (gset string)) : option (gset string) :=
  match o with
  | Some s =>
      if decide (size (s ∖ {[socket_id]}) = 0%nat) then None else Some (s ∖ {[socket_id]})
  | None => None
  end.

(** ** Invariants of the further properties *)

(** A cache respects its capacity and has no empty key. *)
Definition within_capacity {V : Type} (c : MemoryCache.t V) : Prop :=
  cache_ok c ∧
  (EmptyString ∉ map fst (MemoryCache.cache c)) ∧
  MemoryCache.map_size (MemoryCache.cache c) <= MemoryCache.maxSize c.

(** The counters of a cache agree with a list of operations. *)
Definition accounted {V : Type} (c : MemoryCache.t V) (ops : list (MemoryCache.op (V:=V))) : Prop :=
  MemoryCache.hits (MemoryCache.stats c) + MemoryCache.misses (MemoryCache.stats c) =
    CacheHistory.count CacheHistory.is_get ops ∧
  MemoryCache.sets (MemoryCache.stats c) = CacheHistory.count CacheHistory.is_set ops ∧
  MemoryCache.evictions (MemoryCache.stats c) <= MemoryCache.sets (MemoryCache.stats c).

(** No own property of a registry is named like a member of
    [Object.prototype]. *)
Definition keys_plain (a : Hub.Registry) : Prop :=
  ∀ t key, is_Some (Hub.subs_of t a !! key) -> JsObject.plain key = true.

(** No rate-limit slot of a live connection holds more timestamps than
    the limiter allows. *)
Definition limiter_bounded (st : Hub.State) : Prop :=
  ∀ id conn slot l,
    Hub.sockets st !! id = Some conn ->
    Hub.requests (Hub.requestLimiter conn) !! slot = Some l ->
    (length l <= Hub.maxRequests (Hub.requestLimiter conn))%nat.

(** The admission counter of every address is the number of its open
    sockets plus the number of its refused handshakes, and no address
    has more open sockets than the limit. *)
Definition admission_ok (sr : Admission.State * list string) : Prop :=
  ∀ ip,
    Admission.counter ip sr.1 =
      Admission.occurrences ip (Admission.open sr.1) + Admission.occurrences ip sr.2 ∧
    Admission.occurrences ip (Admission.open sr.1) <= Admission.maxConnectionsPerIP.

(** Order on optional amounts: both present and ordered, or both absent. *)
Definition le_amount (x y : option Z) : Prop :=
  match x, y with
  | Some a, Some b => (a <= b)%Z
  | None, None => True
  | _, _ => False
  end.

(** Every fee the provider reports is non-negative. *)
Definition fees_nonneg (fd : Gas.FeeData) : Prop :=
  (∀ x, Gas.gasPrice fd = Some x -> (0 <= x)%Z) ∧
  (∀ x, Gas.maxPriorityFeePerGas fd = Some x -> (0 <= x)%Z) ∧
  (∀ x, Gas.lastBaseFeePerGas fd = Some x -> (0 <= x)%Z).

(** The three amounts of [t1] do not exceed those of [t2]. *)
Definition tier_le (t1 t2 : Gas.Tier) : Prop :=
  le_amount (Gas.tierMaxFeePerGas t1) (Gas.tierMaxFeePerGas t2) ∧
  le_amount (Gas.tierMaxPriorityFeePerGas t1) (Gas.tierMaxPriorityFeePerGas t2) ∧
  le_amount (Gas.tierGasPrice t1) (Gas.tierGasPrice t2).


(* ================================================================== *)
(** * Part II. Properties                                              *)
(* ================================================================== *)

(** ** Facts about the [Map] primitives of [MemoryCache] *)

Section MapFacts.
Context {V : Type}.
Implicit Types (m : list (string * MemoryCache.Item V)) (k : string).

Lemma map_get_set_eq k it m :
  MemoryCache.map_get k (MemoryCache.map_set k it m) = Some it.
Proof.
  induction m as [|[k' it'] m IH]; simpl.
  - by rewrite String.eqb_refl.
  - destruct (String.eqb_spec k k') as [->|Hne]; simpl.
    + by rewrite String.eqb_refl.
    + destruct (String.eqb_spec k k'); [done | apply IH].
Qed.

Lemma map_get_set_ne k k' it m :
  k ≠ k' ->
  MemoryCache.map_get k' (MemoryCache.map_set k it m) = MemoryCache.map_get k' m.
Proof.
  intros Hne. induction m as [|[k0 it0] m IH]; simpl.
  - destruct (String.eqb_spec k' k); congruence.
  - destruct (String.eqb_spec k k0) as [->|Hk]; simpl.
    + destruct (String.eqb_spec k' k0); congruence.
    + destruct (String.eqb_spec k' k0); [done | apply IH].
Qed.

Lemma map_get_Some_elem k it m :
  MemoryCache.map_get k m = Some it -> (k, it) ∈ m.
Proof.
  induction m as [|[k' it'] m IH]; simpl; [done|].
  destruct (String.eqb_spec k k') as [->|Hne].
  - intros [= ->]. left.
  - intros H. right. auto.
Qed.

Lemma map_get_None_keys k m :
  MemoryCache.map_get k m = None <-> k ∉ map fst m.
Proof.
  induction m as [|[k' it'] m IH]; simpl.
  - split; [intros _; apply not_elem_of_nil | done].
  - rewrite not_elem_of_cons. destruct (String.eqb_spec k k') as [->|Hne].
    + split; [done | intros [? _]; done].
    + rewrite IH. tauto.
Qed.

Lemma map_get_elem_NoDup k it m :
  NoDup (map fst m) -> (k, it) ∈ m -> MemoryCache.map_get k m = Some it.
Proof.
  induction m as [|[k' it'] m IH]; simpl.
  - intros _ H. by apply elem_of_nil in H.
  - intros Hnd Hin. apply NoDup_cons in Hnd as [Hk' Hnd].
    apply elem_of_cons in Hin as [[= -> ->]|Hin].
    + by rewrite String.eqb_refl.
    + destruct (String.eqb_spec k k') as [->|Hne]; [|by apply IH].
      exfalso. apply Hk'. apply list_elem_of_fmap. by exists (k', it).
Qed.

Lemma map_set_keys k it m :
  map fst (MemoryCache.map_set k it m) =
  match MemoryCache.map_get k m with
  | Some _ => map fst m
  | None => map fst m ++ [k]
  end.
Proof.
  induction m as [|[k' it'] m IH]; simpl; [done|].
  destruct (String.eqb_spec k k') as [->|Hne]; simpl; [done|].
  rewrite IH. by destruct (MemoryCache.map_get k m).
Qed.

Lemma map_set_NoDup k it m :
  NoDup (map fst m) -> NoDup (map fst (MemoryCache.map_set k it m)).
Proof.
  intros Hnd. rewrite map_set_keys.
  destruct (MemoryCache.map_get k m) eqn:Hg; [done|].
  apply NoDup_app. split_and!; [done | | apply NoDup_singleton].
  intros x Hx ->%list_elem_of_singleton. by apply map_get_None_keys in Hg.
Qed.

Lemma map_set_elem k it m e :
  e ∈ MemoryCache.map_set k it m -> e = (k, it) ∨ e ∈ m.
Proof.
  induction m as [|[k' it'] m IH]; simpl.
  - intros ->%list_elem_of_singleton. by left.
  - destruct (String.eqb_spec k k') as [->|Hne].
    + intros [->|H]%elem_of_cons; [by left | right; by right].
    + intros [->|H]%elem_of_cons; [right; left|].
      destruct (IH H); [by left | right; by right].
Qed.

Lemma map_delete_elem k m e :
  e ∈ MemoryCache.map_delete k m -> e ∈ m.
Proof.
  induction m as [|[k' it'] m IH]; simpl; [done|].
  destruct (String.eqb_spec k k') as [->|Hne].
  - intros H. by right.
  - intros [->|H]%elem_of_cons; [left | right; auto].
Qed.

Lemma map_delete_keys_elem k k' m :
  k' ∈ map fst (MemoryCache.map_delete k m) -> k' ∈ map fst m.
Proof.
  intros ([k0 it0] & -> & H)%list_elem_of_fmap.
  apply list_elem_of_fmap. exists (k0, it0). split; [done|].
  by eapply map_delete_elem.
Qed.

Lemma map_delete_NoDup k m :
  NoDup (map fst m) -> NoDup (map fst (MemoryCache.map_delete k m)).
Proof.
  induction m as [|[k' it'] m IH]; simpl; [done|].
  intros [Hk' Hnd]%NoDup_cons.
  destruct (String.eqb_spec k k') as [->|Hne]; [done|].
  simpl. apply NoDup_cons. split; [|by apply IH].
  intros H. apply Hk'. by eapply map_delete_keys_elem.
Qed.

Lemma map_get_delete_eq k m :
  NoDup (map fst m) -> MemoryCache.map_get k (MemoryCache.map_delete k m) = None.
Proof.
  induction m as [|[k' it'] m IH]; simpl; [done|].
  intros [Hk' Hnd]%NoDup_cons.
  destruct (String.eqb_spec k k') as [->|Hne].
  - by apply map_get_None_keys.
  - simpl. destruct (String.eqb_spec k k'); [done | by apply IH].
Qed.

Lemma map_get_delete_ne k k' m :
  k ≠ k' ->
  MemoryCache.map_get k' (MemoryCache.map_delete k m) = MemoryCache.map_get k' m.
Proof.
  intros Hne. induction m as [|[k0 it0] m IH]; simpl; [done|].
  destruct (String.eqb_spec k k0) as [->|Hk]; simpl.
  - destruct (String.eqb_spec k' k0); congruence.
  - destruct (String.eqb_spec k' k0); [done | apply IH].
Qed.

Lemma map_delete_absent k m :
  MemoryCache.map_get k m = None -> MemoryCache.map_delete k m = m.
Proof.
  induction m as [|[k' it'] m IH]; simpl; [done|].
  destruct (String.eqb_spec k k') as [->|Hne]; [done|].
  intros H. by rewrite IH.
Qed.

Lemma map_delete_length k it m :
  MemoryCache.map_get k m = Some it ->
  S (length (MemoryCache.map_delete k m)) = length m.
Proof.
  induction m as [|[k' it'] m IH]; simpl; [done|].
  destruct (String.eqb_spec k k') as [->|Hne]; [done|].
  intros H. simpl. by rewrite IH.
Qed.

End MapFacts.

(** ** Invariants of a [MemoryCache] *)

Section CacheInvariant.
Context {V : Type}.
Implicit Types (c : MemoryCache.t V).

Lemma orN_nonzero x d : d ≠ 0 -> Js.orN x d ≠ 0.
Proof.
  intros Hd. destruct x as [n|]; simpl; [|done].
  destruct (N.eqb_spec n 0); done.
Qed.

Lemma new_ok o_ttl o_max : cache_ok (MemoryCache.new (V:=V) o_ttl o_max).
Proof.
  unfold cache_ok; simpl. split_and!.
  - by apply orN_nonzero.
  - by apply orN_nonzero.
  - apply NoDup_nil_2.
  - constructor.
Qed.

Lemma Forall_map_delete (P : string * MemoryCache.Item V -> Prop) k m :
  Forall P m -> Forall P (MemoryCache.map_delete k m).
Proof.
  rewrite !Forall_forall. intros H e He. apply H. by eapply map_delete_elem.
Qed.

Lemma Forall_map_set (P : string * MemoryCache.Item V -> Prop) k it m :
  P (k, it) -> Forall P m -> Forall P (MemoryCache.map_set k it m).
Proof.
  rewrite !Forall_forall. intros Hk H e He.
  destruct (map_set_elem _ _ _ _ He) as [->|?]; auto.
Qed.

Lemma get_ok now key c : cache_ok c -> cache_ok (MemoryCache.get now key c).2.
Proof.
  intros (Ht & Hm & Hnd & Hexp). unfold MemoryCache.get.
  destruct (MemoryCache.map_get key (MemoryCache.cache c)) as [item|] eqn:Hg.
  - destruct (negb (MemoryCache.expiry item =? 0) && (MemoryCache.expiry item <? now)) eqn:Hc;
      unfold cache_ok; simpl; split_and!; try done.
    + by apply map_delete_NoDup.
    + by apply Forall_map_delete.
    + by apply map_set_NoDup.
    + apply Forall_map_set; [|done]. simpl.
      apply map_get_Some_elem in Hg.
      rewrite Forall_forall in Hexp. apply (Hexp _ Hg).
  - done.
Qed.

Lemma evictLRU_ok c : cache_ok c -> cache_ok (MemoryCache.evictLRU c).
Proof.
  intros (Ht & Hm & Hnd & Hexp). unfold MemoryCache.evictLRU.
  destruct (Js.truthyS _); [|done].
  destruct (MemoryCache.lru_scan _).2; [|done].
  unfold cache_ok; simpl. split_and!; try done.
  - by apply map_delete_NoDup.
  - by apply Forall_map_delete.
Qed.

Lemma set_ok now key v ttl_arg c : cache_ok c -> cache_ok (MemoryCache.set now key v ttl_arg c).
Proof.
  intros Hok. unfold MemoryCache.set.
  set (c1 := MemoryCache.mk _ _ _ (MemoryCache.bump_sets _)).
  assert (Hok1 : cache_ok c1) by exact Hok.
  set (c2 := if _ <=? _ then _ else _).
  assert (Hok2 : cache_ok c2).
  { subst c2. destruct (_ <=? _); [by apply evictLRU_ok | done]. }
  assert (Httl : MemoryCache.ttl c2 = MemoryCache.ttl c).
  { subst c2. destruct (_ <=? _); [|done].
    unfold MemoryCache.evictLRU. destruct (Js.truthyS _); [|done].
    by destruct (MemoryCache.lru_scan _).2. }
  destruct Hok2 as (Ht & Hm & Hnd & Hexp).
  unfold cache_ok; simpl. split_and!; try done.
  - by apply map_set_NoDup.
  - apply Forall_map_set; [|done]. simpl.
    destruct ttl_arg as [n|]; simpl.
    + destruct (N.eqb_spec n 0); simpl; [|lia].
      destruct Hok as (Ht0 & _). lia.
    + destruct Hok as (Ht0 & _). lia.
Qed.

Lemma delete_ok key c : cache_ok c -> cache_ok (MemoryCache.delete key c).
Proof.
  intros (Ht & Hm & Hnd & Hexp). unfold cache_ok; simpl. split_and!; try done.
  - by apply map_delete_NoDup.
  - by apply Forall_map_delete.
Qed.

Lemma clear_ok c : cache_ok c -> cache_ok (MemoryCache.clear c).
Proof.
  intros (Ht & Hm & _). unfold cache_ok; simpl. split_and!; try done. all: constructor.
Qed.

Lemma run_op_ok o c : cache_ok c -> cache_ok (MemoryCache.run_op o c).
Proof.
  destruct o; simpl; auto using get_ok, set_ok, delete_ok, clear_ok.
Qed.

Lemma fold_ops_ok history c :
  cache_ok c -> cache_ok (fold_left (fun c o => MemoryCache.run_op o c) history c).
Proof.
  revert c. induction history as [|o history IH]; intros c Hok; simpl; [done|].
  apply IH. by apply run_op_ok.
Qed.

Lemma run_ok o_ttl o_max history : cache_ok (MemoryCache.run (V:=V) o_ttl o_max history).
Proof. apply fold_ops_ok, new_ok. Qed.

End CacheInvariant.

(** ** [MemoryCache.get] and [MemoryCache.set] *)

Section CacheFacts.
Context {V : Type}.
Implicit Types (c : MemoryCache.t V).

Lemma evictLRU_ttl c : MemoryCache.ttl (MemoryCache.evictLRU c) = MemoryCache.ttl c.
Proof.
  unfold MemoryCache.evictLRU. destruct (Js.truthyS _); [|done].
  by destruct (MemoryCache.lru_scan _).2.
Qed.

(** The entry written by [set] and the expiry it carries. *)
Lemma set_stores now key (v : V) ttl_arg c :
  MemoryCache.map_get key (MemoryCache.cache (MemoryCache.set now key v ttl_arg c)) =
  Some (MemoryCache.mkItem v
          (if Js.truthyN ttl_arg then now + default 0 ttl_arg else now + MemoryCache.ttl c)
          now).
Proof. unfold MemoryCache.set; simpl. by rewrite map_get_set_eq. Qed.

(** C10. [set(key, value, ttl)] with a falsy [ttl] (omitted / [undefined],
    or [0]) stores the entry with expiry [now + this.ttl], the configured
    default; a later [get] at any time up to that expiry still returns
    the value, so a requested TTL of [0] is not an immediately expired
    entry. *)
Theorem set_falsy_ttl_uses_default now key (v : V) ttl_arg c :
  ttl_arg = None ∨ ttl_arg = Some 0 ->
  MemoryCache.map_get key (MemoryCache.cache (MemoryCache.set now key v ttl_arg c)) =
    Some (MemoryCache.mkItem v (now + MemoryCache.ttl c) now) ∧
  ∀ t, (t <= now + MemoryCache.ttl c) ->
       (MemoryCache.get t key (MemoryCache.set now key v ttl_arg c)).1 = Some v.
Proof.
  intros Hfalsy.
  assert (Hstored :
    MemoryCache.map_get key (MemoryCache.cache (MemoryCache.set now key v ttl_arg c)) =
    Some (MemoryCache.mkItem v (now + MemoryCache.ttl c) now)).
  { rewrite set_stores. by destruct Hfalsy as [-> | ->]. }
  split; [exact Hstored|].
  intros t Ht. unfold MemoryCache.get. rewrite Hstored. simpl.
  assert ((now + MemoryCache.ttl c <? t) = false) as -> by (apply N.ltb_ge; lia).
  by rewrite andb_false_r.
Qed.

(** C7. In a cache built by the constructor and any history of
    operations, a [get(key)] at a time after the entry's expiry returns
    [undefined], removes the entry and counts as a miss: [stats.misses]
    grows by one and no other counter moves.  Every later [get(key)]
    again returns [undefined], leaves the entries as they are and adds
    one more miss, nothing else. *)
Theorem get_after_expiry_removes o_ttl o_max (history : list (MemoryCache.op (V:=V)))
    key item now :
  MemoryCache.map_get key (MemoryCache.cache (MemoryCache.run o_ttl o_max history)) = Some item ->
  MemoryCache.expiry item < now ->
  let c := MemoryCache.run o_ttl o_max history in
  let r := MemoryCache.get now key c in
  r.1 = None ∧
  MemoryCache.cache r.2 = MemoryCache.map_delete key (MemoryCache.cache c) ∧
  MemoryCache.map_get key (MemoryCache.cache r.2) = None ∧
  MemoryCache.stats r.2 =
    MemoryCache.mkStats (MemoryCache.hits (MemoryCache.stats c))
                        (MemoryCache.misses (MemoryCache.stats c) + 1)
                        (MemoryCache.sets (MemoryCache.stats c))
                        (MemoryCache.evictions (MemoryCache.stats c)) ∧
  ∀ now',
    let r' := MemoryCache.get now' key r.2 in
    r'.1 = None ∧
    MemoryCache.cache r'.2 = MemoryCache.cache r.2 ∧
    MemoryCache.stats r'.2 =
      MemoryCache.mkStats (MemoryCache.hits (MemoryCache.stats c))
                          (MemoryCache.misses (MemoryCache.stats c) + 2)
                          (MemoryCache.sets (MemoryCache.stats c))
                          (MemoryCache.evictions (MemoryCache.stats c)).
Proof.
  intros Hget Hexp c r.
  pose proof (run_ok o_ttl o_max history) as (_ & _ & Hnd & Hnz).
  fold c in Hget, Hnd, Hnz.
  assert (Hne : MemoryCache.expiry item ≠ 0).
  { rewrite Forall_forall in Hnz. apply (Hnz _ (map_get_Some_elem _ _ _ Hget)). }
  assert (Hr : r = (None, MemoryCache.mk (MemoryCache.map_delete key (MemoryCache.cache c))
                            (MemoryCache.ttl c) (MemoryCache.maxSize c)
                            (MemoryCache.bump_misses (MemoryCache.stats c)))).
  { subst r. unfold MemoryCache.get. rewrite Hget.
    assert ((MemoryCache.expiry item =? 0) = false) as -> by (by apply N.eqb_neq).
    assert ((MemoryCache.expiry item <? now) = true) as -> by (by apply N.ltb_lt).
    done. }
  rewrite Hr; simpl.
  assert (Hgone : MemoryCache.map_get key (MemoryCache.map_delete key (MemoryCache.cache c)) = None)
    by (by apply map_get_delete_eq).
  split_and!; try done.
  intros now'. unfold MemoryCache.get; simpl. rewrite Hgone.
  unfold MemoryCache.bump_misses; simpl.
  split_and!; try done. by rewrite <- N.add_assoc.
Qed.

(** *** The scan of [evictLRU] *)

Lemma lru_scan_snoc (m : list (string * MemoryCache.Item V)) e :
  MemoryCache.lru_scan (m ++ [e]) = MemoryCache.lru_step (MemoryCache.lru_scan m) e.
Proof. unfold MemoryCache.lru_scan. by rewrite fold_left_app. Qed.

(** On a non-empty map the scan ends on an entry whose [lastAccessed] is
    the smallest of all. *)
Lemma lru_scan_min (m : list (string * MemoryCache.Item V)) :
  m ≠ [] ->
  ∃ k it, MemoryCache.lru_scan m = (Some (MemoryCache.lastAccessed it), Some k) ∧
          (k, it) ∈ m ∧
          ∀ e, e ∈ m -> (MemoryCache.lastAccessed it <= MemoryCache.lastAccessed e.2).
Proof.
  induction m as [|e m IH] using rev_ind; [done|]. intros _.
  rewrite lru_scan_snoc. destruct e as [k it].
  destruct m as [|e0 m0].
  { exists k, it. simpl. split_and!; [done | left |].
    intros e ->%list_elem_of_singleton. simpl. lia. }
  destruct IH as (k1 & it1 & Hscan & Hin & Hmin); [done|].
  remember (e0 :: m0) as m eqn:Em. clear Em.
  rewrite Hscan. unfold MemoryCache.lru_step; simpl.
  destruct (N.ltb_spec (MemoryCache.lastAccessed it) (MemoryCache.lastAccessed it1)) as [Hlt|Hge].
  - exists k, it. split_and!; [done | apply elem_of_app; right; left |].
    intros e [He| ->%list_elem_of_singleton]%elem_of_app; simpl; [|lia].
    specialize (Hmin _ He). lia.
  - exists k1, it1. split_and!; [done | apply elem_of_app; by left |].
    intros e [He| ->%list_elem_of_singleton]%elem_of_app; simpl; [by apply Hmin | lia].
Qed.

(** A [set] below capacity evicts nothing. *)
Lemma set_below_capacity now key (v : V) ttl_arg c :
  MemoryCache.map_size (MemoryCache.cache c) < MemoryCache.maxSize c ->
  MemoryCache.set now key v ttl_arg c =
  MemoryCache.mk
    (MemoryCache.map_set key
       (MemoryCache.mkItem v
          (if Js.truthyN ttl_arg then now + default 0 ttl_arg else now + MemoryCache.ttl c) now)
       (MemoryCache.cache c))
    (MemoryCache.ttl c) (MemoryCache.maxSize c) (MemoryCache.bump_sets (MemoryCache.stats c)).
Proof.
  intros Hlt. unfold MemoryCache.set; simpl.
  by assert ((MemoryCache.maxSize c <=? MemoryCache.map_size (MemoryCache.cache c)) = false)
    as -> by (apply N.leb_gt; lia).
Qed.

(** A [set] at capacity, in a cache none of whose keys is the empty
    string, evicts exactly one entry, one with the smallest
    [lastAccessed], and counts one eviction. *)
Lemma set_at_capacity now key (v : V) ttl_arg c :
  cache_ok c ->
  MemoryCache.maxSize c <= MemoryCache.map_size (MemoryCache.cache c) ->
  EmptyString ∉ map fst (MemoryCache.cache c) ->
  ∃ k it,
    MemoryCache.map_get k (MemoryCache.cache c) = Some it ∧
    (∀ e, e ∈ MemoryCache.cache c ->
          (MemoryCache.lastAccessed it <= MemoryCache.lastAccessed e.2)) ∧
    MemoryCache.set now key v ttl_arg c =
    MemoryCache.mk
      (MemoryCache.map_set key
         (MemoryCache.mkItem v
            (if Js.truthyN ttl_arg then now + default 0 ttl_arg else now + MemoryCache.ttl c) now)
         (MemoryCache.map_delete k (MemoryCache.cache c)))
      (MemoryCache.ttl c) (MemoryCache.maxSize c)
      (MemoryCache.bump_evictions (MemoryCache.bump_sets (MemoryCache.stats c))).
Proof.
  intros (Ht & Hm & Hnd & _) Hfull Hkeys.
  assert (Hne : MemoryCache.cache c ≠ []).
  { intros Heq. rewrite Heq in Hfull. unfold MemoryCache.map_size in Hfull. simpl in Hfull. lia. }
  destruct (lru_scan_min _ Hne) as (k & it & Hscan & Hin & Hmin).
  exists k, it. split_and!; [by apply map_get_elem_NoDup | done |].
  unfold MemoryCache.set; simpl.
  assert ((MemoryCache.maxSize c <=? MemoryCache.map_size (MemoryCache.cache c)) = true)
    as -> by (apply N.leb_le; lia).
  unfold MemoryCache.evictLRU; simpl. rewrite Hscan; simpl.
  destruct (String.eqb_spec k EmptyString) as [->|Hk]; simpl; [|done].
  exfalso. apply Hkeys. apply list_elem_of_fmap. by exists (EmptyString, it).
Qed.

End CacheFacts.

(** C2. Two histories on which [set] departs from "evict exactly when the
    entry count would exceed [maxSize]".  (1) Capacity 2, entries ["a"]
    and ["b"]: overwriting ["b"] would leave the count at 2, yet ["a"] is
    evicted and the eviction counter goes to 1.  (2) Capacity 1 with the
    empty string as single key: adding ["b"] pushes the count to 2, yet nothing is
    evicted, because [if (oldestKey)] takes the empty key for [null]. *)
Theorem set_eviction_departs_from_capacity_rule :
  let c0 := MemoryCache.run (Some 60000) (Some 2)
              [MemoryCache.OpSet 1 "a" 10%nat None; MemoryCache.OpSet 2 "b" 20%nat None] in
  let c1 := MemoryCache.set 3 "b" 21%nat None c0 in
  let d0 := MemoryCache.run (Some 60000) (Some 1) [MemoryCache.OpSet 1 EmptyString 10%nat None] in
  let d1 := MemoryCache.set 2 "b" 20%nat None d0 in
  (map fst (MemoryCache.cache c0) = ["a"; "b"] ∧
   map fst (MemoryCache.cache c1) = ["b"] ∧
   MemoryCache.evictions (MemoryCache.stats c1) = 1) ∧
  (map fst (MemoryCache.cache d0) = [EmptyString] ∧
   map fst (MemoryCache.cache d1) = [EmptyString; "b"] ∧
   MemoryCache.maxSize d1 = 1 ∧
   MemoryCache.evictions (MemoryCache.stats d1) = 0).
Proof. vm_compute. by split_and!. Qed.

(** C10, at a concrete call: [set("k", 7, 0)] at time 1000 on a fresh
    default cache. *)
Lemma set_falsy_ttl_uses_default_witness :
  (Some 0 = None ∨ Some 0 = Some 0) ∧
  MemoryCache.map_get "k"
    (MemoryCache.cache (MemoryCache.set 1000 "k" 7%nat (Some 0) (MemoryCache.new None None))) =
    Some (MemoryCache.mkItem 7%nat (1000 + 60000) 1000).
Proof.
  split; [by right|].
  apply (set_falsy_ttl_uses_default 1000 "k" 7%nat (Some 0) (MemoryCache.new None None)).
  by right.
Defined.

(** C7, at a concrete history: an entry written at time 1000 with a TTL
    of 500 is read once before its expiry and then at times 2000 and
    3000: the hit of the first read stays the only one, the two late
    reads are the two misses, and the entry is gone. *)
Lemma get_after_expiry_removes_witness :
  let history := [MemoryCache.OpSet 1000 "k" 7%nat (Some 500); MemoryCache.OpGet 1200 "k"] in
  let c := MemoryCache.run None None history in
  let r := MemoryCache.get 2000 "k" c in
  let r' := MemoryCache.get 3000 "k" r.2 in
  MemoryCache.map_get "k" (MemoryCache.cache c) = Some (MemoryCache.mkItem 7%nat 1500 1200) ∧
  1500 < 2000 ∧
  r.1 = None ∧
  MemoryCache.cache r.2 = [] ∧
  MemoryCache.stats r.2 = MemoryCache.mkStats 1 1 1 0 ∧
  r'.1 = None ∧
  MemoryCache.stats r'.2 = MemoryCache.mkStats 1 2 1 0.
Proof.
  intros history c r r'. subst r' r c.
  assert (Hentry : MemoryCache.map_get "k"
                     (MemoryCache.cache (MemoryCache.run None None history)) =
                   Some (MemoryCache.mkItem 7%nat 1500 1200)) by reflexivity.
  assert (Hlate : MemoryCache.expiry (MemoryCache.mkItem 7%nat 1500 1200) < 2000)
    by (simpl; lia).
  destruct (get_after_expiry_removes None None history "k"
              (MemoryCache.mkItem 7%nat 1500 1200) 2000 Hentry Hlate)
    as (Habsent & Hcache & _ & Hstats & Hagain).
  destruct (Hagain 3000) as (Habsent' & _ & Hstats').
  split_and!;
    [exact Hentry | lia | exact Habsent | by rewrite Hcache | exact Hstats
     | exact Habsent' | exact Hstats'].
Defined.

(** ** [RpcCache]: keys and invalidation *)

Section StringFacts.

Lemma prefix_app_same (p s : string) : String.prefix p (p +:+ s) = true.
Proof.
  induction p as [|a p IH]; simpl; [by destruct s|].
  destruct (ascii_dec a a); [apply IH | done].
Qed.

Lemma colon_free_cons a s :
  RpcCache.colon_free (String a s) = true -> a ≠ ":"%char ∧ RpcCache.colon_free s = true.
Proof.
  simpl. intros [Ha Hs]%andb_true_iff. split; [|done].
  intros ->. by rewrite Ascii.eqb_refl in Ha.
Qed.

Lemma append_nil_l (s : string) : EmptyString +:+ s = s.
Proof. reflexivity. Qed.

Lemma append_cons a (s1 s2 : string) : String a s1 +:+ s2 = String a (s1 +:+ s2).
Proof. reflexivity. Qed.

Lemma append_assoc_r (s1 s2 s3 : string) : (s1 +:+ s2) +:+ s3 = s1 +:+ s2 +:+ s3.
Proof.
  induction s1 as [|a s1 IH]; rewrite ?append_cons, ?append_nil_l; [done | by rewrite IH].
Qed.

Lemma prefix_cons a b (s1 s2 : string) :
  String.prefix (String a s1) (String b s2) =
  if Ascii.eqb a b then String.prefix s1 s2 else false.
Proof.
  cbn [String.prefix].
  destruct (ascii_dec a b) as [->|Hne].
  - by rewrite Ascii.eqb_refl.
  - by destruct (Ascii.eqb_spec a b).
Qed.

(** Between colon-free method names, the prefix test of [invalidate]
    recognises exactly the keys of its own method. *)
Lemma prefix_method_inj (m1 m2 rest : string) :
  RpcCache.colon_free m1 = true -> RpcCache.colon_free m2 = true ->
  String.prefix (m1 +:+ ":") (m2 +:+ ":" +:+ rest) = true -> m1 = m2.
Proof.
  revert m2. induction m1 as [|a m1 IH]; intros [|b m2] H1 H2;
    rewrite ?append_cons, ?append_nil_l.
  - done.
  - apply colon_free_cons in H2 as [Hb _].
    rewrite prefix_cons. by destruct (Ascii.eqb_spec ":" b) as [<-|].
  - apply colon_free_cons in H1 as [Ha _].
    rewrite prefix_cons. by destruct (Ascii.eqb_spec a ":") as [->|].
  - apply colon_free_cons in H1 as [_ H1]. apply colon_free_cons in H2 as [_ H2].
    rewrite prefix_cons. destruct (Ascii.eqb_spec a b) as [->|]; [|done].
    intros Hp. f_equal. by apply IH.
Qed.

End StringFacts.

Section RpcFacts.
Context {V : Type}.
Implicit Types (r : RpcCache.t V) (c : MemoryCache.t V).

Lemma createKey_prefix method params :
  String.prefix (method +:+ ":") (RpcCache.createKey method params) = true.
Proof.
  unfold RpcCache.createKey. rewrite <- append_assoc_r. apply prefix_app_same.
Qed.

(** The second loop of [invalidate]. *)
Lemma fold_delete_lookup (keys : list string) c k :
  NoDup (map fst (MemoryCache.cache c)) ->
  let c' := fold_left (fun c key => MemoryCache.delete key c) keys c in
  NoDup (map fst (MemoryCache.cache c')) ∧
  MemoryCache.map_get k (MemoryCache.cache c') =
    if decide (k ∈ keys) then None else MemoryCache.map_get k (MemoryCache.cache c).
Proof.
  revert c. induction keys as [|key keys IH]; intros c Hnd; simpl.
  - split; [done|]. destruct (decide (k ∈ [])) as [H|]; [|done]. by apply elem_of_nil in H.
  - destruct (IH (MemoryCache.delete key c)) as [Hnd' Hlk].
    { simpl. by apply map_delete_NoDup. }
    split; [exact Hnd'|]. rewrite Hlk. simpl.
    destruct (decide (k ∈ keys)) as [Hin|Hnin].
    + rewrite decide_True; [done | by right].
    + destruct (decide (k = key)) as [->|Hne].
      * rewrite decide_True; [|left]. by apply map_get_delete_eq.
      * rewrite decide_False.
        -- by apply map_get_delete_ne.
        -- intros [?|?]%elem_of_cons; done.
Qed.

(** What [invalidate(method)] leaves under each key. *)
Lemma invalidate_entry method r k :
  NoDup (map fst (MemoryCache.cache (RpcCache.cache r))) ->
  RpcCache.entry k (RpcCache.invalidate method r) =
  if String.prefix (method +:+ ":") k then None else RpcCache.entry k r.
Proof.
  intros Hnd. unfold RpcCache.entry, RpcCache.invalidate; simpl.
  destruct (fold_delete_lookup
              (RpcCache.keysToDelete method (MemoryCache.cache (RpcCache.cache r)))
              (RpcCache.cache r) k Hnd) as [_ ->].
  unfold RpcCache.keysToDelete.
  destruct (String.prefix (method +:+ ":") k) eqn:Hp.
  - destruct (decide _) as [|Hnin]; [done|].
    destruct (MemoryCache.map_get k _) as [it|] eqn:Hg; [|done].
    exfalso. apply Hnin. apply list_elem_of_filter. split; [done|].
    apply list_elem_of_fmap. exists (k, it). split; [done|]. by apply map_get_Some_elem.
  - destruct (decide _) as [Hin|]; [|done].
    apply list_elem_of_filter in Hin as [Hin _]. congruence.
Qed.

Lemma rpc_run_op_ok o r :
  cache_ok (RpcCache.cache r) -> cache_ok (RpcCache.cache (RpcCache.run_op o r)).
Proof.
  intros Hok. destruct o as [now m ps|now m ps v|m]; simpl.
  - by apply get_ok.
  - by apply set_ok.
  - destruct Hok as (Ht & Hm & Hnd & Hexp).
    generalize (RpcCache.keysToDelete m (MemoryCache.cache (RpcCache.cache r))).
    intros keys. revert Ht Hm Hnd Hexp. generalize (RpcCache.cache r).
    induction keys as [|key keys IH]; intros c Ht Hm Hnd Hexp; simpl.
    + done.
    + apply IH; simpl; try done.
      * by apply map_delete_NoDup.
      * by apply Forall_map_delete.
Qed.

Lemma rpc_run_ok cfg o_max (history : list (RpcCache.op (V:=V))) :
  cache_ok (RpcCache.cache (RpcCache.run cfg o_max history)).
Proof.
  unfold RpcCache.run.
  assert (Hnew : cache_ok (RpcCache.cache (RpcCache.new (V:=V) cfg o_max))) by apply new_ok.
  revert Hnew. generalize (RpcCache.new (V:=V) cfg o_max).
  induction history as [|o history IH]; intros r Hok; simpl; [done|].
  apply IH. by apply rpc_run_op_ok.
Qed.

(** C4, amended. For colon-free method names [m1 ≠ m2] and a cache
    built by the constructor and any history of operations,
    [invalidate(m1)] leaves no entry under [createKey(m1, params)] and
    leaves the entry under [createKey(m2, params)] exactly as it was. *)
Theorem invalidate_only_own_method cfg o_max (history : list (RpcCache.op (V:=V)))
    m1 m2 params :
  RpcCache.colon_free m1 = true ->
  RpcCache.colon_free m2 = true ->
  m1 ≠ m2 ->
  let r := RpcCache.run cfg o_max history in
  RpcCache.entry (RpcCache.createKey m1 params) (RpcCache.invalidate m1 r) = None ∧
  RpcCache.entry (RpcCache.createKey m2 params) (RpcCache.invalidate m1 r) =
    RpcCache.entry (RpcCache.createKey m2 params) r.
Proof.
  intros H1 H2 Hne r.
  pose proof (rpc_run_ok cfg o_max history) as (_ & _ & Hnd & _). fold r in Hnd.
  split.
  - rewrite invalidate_entry by done. by rewrite createKey_prefix.
  - rewrite invalidate_entry by done.
    destruct (String.prefix _ _) eqn:Hp; [|done].
    exfalso. apply Hne. unfold RpcCache.createKey in Hp.
    by eapply prefix_method_inj.
Qed.

End RpcFacts.

(** C4, at concrete method names: two entries, one per method, then
    [invalidate("getBalance")]. *)
Lemma invalidate_only_own_method_witness :
  let r := RpcCache.run ∅ None
             [RpcCache.OpSet 1 "getBalance" [Js.Str "0xa"] 5%nat;
              RpcCache.OpSet 2 "getCode" [Js.Str "0xa"] 6%nat] in
  RpcCache.colon_free "getBalance" = true ∧
  RpcCache.colon_free "getCode" = true ∧
  "getBalance" ≠ "getCode" ∧
  RpcCache.entry (RpcCache.createKey "getBalance" [Js.Str "0xa"])
                 (RpcCache.invalidate "getBalance" r) = None ∧
  RpcCache.entry (RpcCache.createKey "getCode" [Js.Str "0xa"])
                 (RpcCache.invalidate "getBalance" r) =
    RpcCache.entry (RpcCache.createKey "getCode" [Js.Str "0xa"]) r.
Proof.
  intros r. split_and!; [done | done | done | |];
    apply (invalidate_only_own_method ∅ None
             [RpcCache.OpSet 1 "getBalance" [Js.Str "0xa"] 5%nat;
              RpcCache.OpSet 2 "getCode" [Js.Str "0xa"] 6%nat]
             "getBalance" "getCode" [Js.Str "0xa"]); done.
Defined.

(** C4 as stated fails: with the distinct method strings ["getBalance"]
    and ["getBalance:0xa"], [invalidate("getBalance")] removes the entry
    stored under [createKey("getBalance:0xa", [])]. *)
Lemma invalidate_removes_other_method :
  let r := RpcCache.set 1 "getBalance:0xa" [] 5%nat (RpcCache.new ∅ None) in
  "getBalance" ≠ "getBalance:0xa" ∧
  RpcCache.createKey "getBalance:0xa" [] = "getBalance:0xa:[]" ∧
  (MemoryCache.value <$> RpcCache.entry (RpcCache.createKey "getBalance:0xa" []) r) = Some 5%nat ∧
  RpcCache.entry (RpcCache.createKey "getBalance:0xa" [])
                 (RpcCache.invalidate "getBalance" r) = None.
Proof. intros r. split_and!; [done | done | by vm_compute | by vm_compute]. Qed.

(** ** [createKey] and value equality *)

Section KeyFacts.

(** Induction over JS values that reaches into arrays and objects. *)
Lemma value_nested_ind (P : Js.value -> Prop) :
  P Js.Null ->
  (∀ b, P (Js.Bool b)) ->
  (∀ n, P (Js.Num n)) ->
  (∀ s, P (Js.Str s)) ->
  (∀ items, Forall P items -> P (Js.Arr items)) ->
  (∀ props, Forall (fun kv => P kv.2) props -> P (Js.Obj props)) ->
  ∀ v, P v.
Proof.
  intros HNull HBool HNum HStr HArr HObj.
  fix IH 1. intros [ |b|n|s|items|props].
  - exact HNull.
  - apply HBool.
  - apply HNum.
  - apply HStr.
  - apply HArr. revert items. fix IHitems 1. intros [|x items].
    + constructor.
    + constructor; [apply IH | apply IHitems].
  - apply HObj. revert props. fix IHprops 1. intros [|[k x] props].
    + constructor.
    + constructor; [apply IH | apply IHprops].
Qed.

Lemma assoc_Some_elem {A} k (v : A) props : Js.assoc k props = Some v -> (k, v) ∈ props.
Proof.
  induction props as [|[k' v'] props IH]; simpl; [done|].
  destruct (String.eqb_spec k k') as [->|Hne].
  - intros [= ->]. by left.
  - intros H. right. by apply IH.
Qed.

Lemma assoc_None_names {A} k (props : list (string * A)) :
  Js.assoc k props = None <-> k ∉ map fst props.
Proof.
  induction props as [|[k' v'] props IH]; simpl.
  - split; [intros _; by apply not_elem_of_nil | done].
  - destruct (String.eqb_spec k k') as [->|Hne].
    + split; [done|]. intros H. exfalso. apply H. by left.
    + rewrite IH. rewrite not_elem_of_cons. naive_solver.
Qed.

Lemma assoc_is_Some_names {A} k (props : list (string * A)) :
  is_Some (Js.assoc k props) <-> k ∈ map fst props.
Proof.
  destruct (Js.assoc k props) as [v|] eqn:H.
  - split; [|by eauto]. intros _. apply assoc_Some_elem in H.
    apply (list_elem_of_fmap_2 fst) in H. exact H.
  - apply assoc_None_names in H. split; [by intros [? ?] | done].
Qed.

Lemma assoc_printed (f : Js.value -> string) k (props : list (string * Js.value)) :
  Js.assoc k (map (fun kv => (kv.1, f kv.2)) props) = f <$> Js.assoc k props.
Proof.
  induction props as [|[k' v'] props IH]; simpl; [done|].
  by destruct (String.eqb k k').
Qed.

Lemma distinct_NoDup names : Js.distinct names = true <-> NoDup names.
Proof.
  induction names as [|name rest IH]; simpl.
  - split; [constructor | done].
  - rewrite andb_true_iff, negb_true_iff, IH, NoDup_cons.
    assert (existsb (String.eqb name) rest = false <-> name ∉ rest) as ->; [|done].
    rewrite <- not_true_iff_false, existsb_exists. split.
    + intros Hn Hin. apply Hn. exists name. split; [by apply list_elem_of_In|].
      apply String.eqb_refl.
    + intros Hn (x & Hin & Heq). apply String.eqb_eq in Heq as ->.
      by apply Hn, list_elem_of_In.
Qed.

Lemma val_eqb_Arr xs ys :
  Js.val_eqb (Js.Arr xs) (Js.Arr ys) = true <->
  Forall2 (fun x y => Js.val_eqb x y = true) xs ys.
Proof.
  simpl. revert ys. induction xs as [|x xs IH]; intros [|y ys]; simpl.
  - split; [constructor | done].
  - split; [done | by inversion 1].
  - split; [done | by inversion 1].
  - rewrite andb_true_iff, IH. split.
    + intros [? ?]. by constructor.
    + by inversion 1.
Qed.

Lemma same_creation_order_Arr xs ys :
  length xs = length ys ->
  Js.same_creation_order (Js.Arr xs) (Js.Arr ys) = true ->
  Forall2 (fun x y => Js.same_creation_order x y = true) xs ys.
Proof.
  simpl. revert ys. induction xs as [|x xs IH]; intros [|y ys]; simpl; try done.
  intros [= Hlen]. rewrite andb_true_iff. intros [? ?]. constructor; [done|by apply IH].
Qed.

Lemma val_eqb_Obj ps qs :
  Js.val_eqb (Js.Obj ps) (Js.Obj qs) = true <->
  length ps = length qs ∧
  Forall (fun kv => ∃ w, Js.assoc kv.1 qs = Some w ∧ Js.val_eqb kv.2 w = true) ps.
Proof.
  simpl. rewrite andb_true_iff, Nat.eqb_eq.
  apply and_iff_compat_l.
  induction ps as [|[k v] ps IH]; simpl.
  - split; [constructor | done].
  - rewrite andb_true_iff, IH, Forall_cons. simpl.
    apply and_iff_compat_r.
    destruct (Js.assoc k qs) as [w|]; [|naive_solver].
    split; [by eauto | by intros (w' & [= <-] & ?)].
Qed.

Lemma same_creation_order_Obj ps qs :
  Js.same_creation_order (Js.Obj ps) (Js.Obj qs) = true <->
  filter (fun name => Js.array_index name = None) (map fst ps) =
    filter (fun name => Js.array_index name = None) (map fst qs) ∧
  Forall (fun kv => ∀ w, Js.assoc kv.1 qs = Some w -> Js.same_creation_order kv.2 w = true) ps.
Proof.
  simpl. rewrite andb_true_iff, bool_decide_eq_true.
  apply and_iff_compat_l.
  induction ps as [|[k v] ps IH]; simpl.
  - split; [constructor | done].
  - rewrite andb_true_iff, IH, Forall_cons. simpl.
    apply and_iff_compat_r.
    destruct (Js.assoc k qs) as [w|]; [|naive_solver].
    split; [by intros ? w' [= <-] | by eauto].
Qed.

Lemma wf_Obj (ps : list (string * Js.value)) :
  Js.wf (Js.Obj ps) = true <->
  NoDup (map fst ps) ∧ Forall (fun kv => Js.wf kv.2 = true) ps.
Proof.
  simpl. rewrite andb_true_iff, distinct_NoDup. apply and_iff_compat_l.
  rewrite forallb_forall, Forall_forall. by setoid_rewrite list_elem_of_In.
Qed.

Lemma wf_Arr items : Js.wf (Js.Arr items) = true <-> Forall (fun v => Js.wf v = true) items.
Proof.
  simpl. rewrite forallb_forall, Forall_forall. by setoid_rewrite list_elem_of_In.
Qed.

(** Objects that are equal as values have the same property names. *)
Lemma equal_objects_same_names (ps qs : list (string * Js.value)) :
  NoDup (map fst ps) -> length ps = length qs ->
  Forall (fun kv : string * Js.value => is_Some (Js.assoc kv.1 qs)) ps ->
  ∀ k, k ∈ map fst ps <-> k ∈ map fst qs.
Proof.
  intros Hnd Hlen Hall.
  assert (Hincl : incl (map fst ps) (map fst qs)).
  { intros k Hk. apply list_elem_of_In in Hk. apply list_elem_of_In.
    apply list_elem_of_fmap in Hk as ([k' v] & -> & Hin).
    rewrite Forall_forall in Hall. by apply assoc_is_Some_names, (Hall (k', v)). }
  intros k. split.
  - intros Hk. apply list_elem_of_In, Hincl, list_elem_of_In, Hk.
  - intros Hk. apply list_elem_of_In.
    apply (NoDup_length_incl (l:=map fst ps) (l':=map fst qs)).
    + by apply NoDup_ListNoDup.
    + by rewrite !length_map, Hlen.
    + exact Hincl.
    + by apply list_elem_of_In.
Qed.

Lemma own_keys_same names1 names2 :
  NoDup names1 -> NoDup names2 -> (∀ k, k ∈ names1 <-> k ∈ names2) ->
  filter (fun name => Js.array_index name = None) names1 =
    filter (fun name => Js.array_index name = None) names2 ->
  Js.own_keys names1 = Js.own_keys names2.
Proof.
  intros Hnd1 Hnd2 Hsame Hrest. unfold Js.own_keys. rewrite Hrest. f_equal. f_equal.
  apply (StronglySorted_unique N.le).
  - apply StronglySorted_merge_sort; apply _.
  - apply StronglySorted_merge_sort; apply _.
  - rewrite !merge_sort_Permutation. apply omap_Permutation.
    by apply NoDup_Permutation.
Qed.

Lemma stringify_Arr items :
  Js.stringify (Js.Arr items) = "[" +:+ Js.join_comma (map Js.stringify items) +:+ "]".
Proof. reflexivity. Qed.

Lemma stringify_Obj props :
  Js.stringify (Js.Obj props) =
  "{" +:+
  Js.join_comma
    (omap (fun k => (fun text => Js.quote k +:+ ":" +:+ text) <$>
                    Js.assoc k (map (fun kv => (kv.1, Js.stringify kv.2)) props))
          (Js.own_keys (map fst props))) +:+
  "}".
Proof. reflexivity. Qed.

(** Values that are equal as values and agree on the creation order of
    their non-index names print the same. *)
Lemma stringify_stable (a : Js.value) :
  ∀ b, Js.wf a = true -> Js.wf b = true ->
       Js.val_eqb a b = true -> Js.same_creation_order a b = true ->
       Js.stringify a = Js.stringify b.
Proof.
  induction a as [ |x|x|x|items IH|props IH] using value_nested_ind;
    intros b Hwa Hwb Heq Hord.
  - by destruct b.
  - destruct b as [ |y| | | | ]; try done. simpl in Heq.
    by rewrite (Bool.eqb_prop _ _ Heq).
  - destruct b as [ | |y| | | ]; try done. simpl in Heq.
    by rewrite (proj1 (Z.eqb_eq _ _) Heq).
  - destruct b as [ | | |y| | ]; try done. simpl in Heq.
    by rewrite (proj1 (String.eqb_eq _ _) Heq).
  - destruct b as [ | | | |ys| ]; try done.
    apply val_eqb_Arr in Heq.
    apply same_creation_order_Arr in Hord; [|by eapply Forall2_length].
    apply wf_Arr in Hwa. apply wf_Arr in Hwb.
    assert (Hmap : map Js.stringify items = map Js.stringify ys).
    { revert ys Hwa Hwb Heq Hord.
      induction IH as [|x items Hx _ IHitems]; intros ys Hwa Hwb Heq Hord.
      - by inversion Heq.
      - inversion Heq as [|? y ? ys' Hxy Hrest]; subst.
        inversion Hord; subst. inversion Hwa; subst. inversion Hwb; subst.
        simpl. f_equal; [by apply Hx | by apply IHitems]. }
    by rewrite !stringify_Arr, Hmap.
  - destruct b as [ | | | | |qs]; try done.
    apply val_eqb_Obj in Heq as [Hlen Heq].
    apply same_creation_order_Obj in Hord as [Hrest Hord].
    apply wf_Obj in Hwa as [Hnd1 Hw1]. apply wf_Obj in Hwb as [Hnd2 Hw2].
    assert (Hnames : ∀ k, k ∈ map fst props <-> k ∈ map fst qs).
    { apply equal_objects_same_names; [done | done |].
      eapply Forall_impl; [exact Heq|]. intros kv (w & -> & _). eauto. }
    assert (Hprinted : ∀ k,
      Js.assoc k (map (fun kv => (kv.1, Js.stringify kv.2)) props) =
      Js.assoc k (map (fun kv => (kv.1, Js.stringify kv.2)) qs)).
    { intros k. rewrite !assoc_printed.
      destruct (Js.assoc k props) as [v|] eqn:Hv.
      - apply assoc_Some_elem in Hv.
        rewrite Forall_forall in Heq, Hord, IH, Hw1.
        destruct (Heq _ Hv) as (w & Hw & Hvw). simpl in Hw, Hvw. rewrite Hw. simpl.
        f_equal. apply (IH _ Hv); [by apply (Hw1 _ Hv) | | done | by apply (Hord _ Hv)].
        rewrite Forall_forall in Hw2. apply (Hw2 (k, w)). by apply assoc_Some_elem.
      - apply assoc_None_names in Hv. rewrite Hnames in Hv.
        apply assoc_None_names in Hv. by rewrite Hv. }
    rewrite !stringify_Obj.
    rewrite (own_keys_same (map fst props) (map fst qs)) by done.
    do 3 f_equal. apply list_omap_ext, Forall2_same_length_lookup_2; [done|].
    intros i k k' Hk Hk'. simplify_eq. by rewrite Hprinted.
Qed.

(** C9, amended. For every method string and every two parameter lists
    of JSON values (strings, safe integers, booleans, [null], arrays and
    plain objects) that are equal as values, possibly distinct
    references, and whose corresponding objects created their
    properties other than array indices in the same order, [createKey]
    returns the identical string; array indices may have been created
    in any order. *)
Theorem createKey_value_stable (method : string) (params1 params2 : list Js.value) :
  Js.wf (Js.Arr params1) = true -> Js.wf (Js.Arr params2) = true ->
  Js.val_eqb (Js.Arr params1) (Js.Arr params2) = true ->
  Js.same_creation_order (Js.Arr params1) (Js.Arr params2) = true ->
  RpcCache.createKey method params1 = RpcCache.createKey method params2.
Proof.
  intros Hw1 Hw2 Heq Hord. unfold RpcCache.createKey.
  by rewrite (stringify_stable _ _ Hw1 Hw2 Heq Hord).
Qed.

End KeyFacts.

(** C9, at a concrete call: two parameter lists whose objects hold the
    same properties, created in different orders that agree on [to]
    before [data]; both get the key in which the array indices come
    first, in ascending order. *)
Lemma createKey_value_stable_witness :
  let params1 :=
    [Js.Str "0xa";
     Js.Obj [("1", Js.Num 7); ("0", Js.Null); ("to", Js.Str "0x1"); ("data", Js.Str "0x")]] in
  let params2 :=
    [Js.Str "0xa";
     Js.Obj [("to", Js.Str "0x1"); ("0", Js.Null); ("data", Js.Str "0x"); ("1", Js.Num 7)]] in
  params1 ≠ params2 ∧
  Js.wf (Js.Arr params1) = true ∧ Js.wf (Js.Arr params2) = true ∧
  Js.val_eqb (Js.Arr params1) (Js.Arr params2) = true ∧
  Js.same_creation_order (Js.Arr params1) (Js.Arr params2) = true ∧
  RpcCache.createKey "call" params1 = RpcCache.createKey "call" params2 ∧
  Js.stringify (Js.Arr params2) =
    "[" +:+ Js.quote "0xa" +:+ ",{" +:+
    Js.quote "0" +:+ ":null," +:+ Js.quote "1" +:+ ":7," +:+
    Js.quote "to" +:+ ":" +:+ Js.quote "0x1" +:+ "," +:+
    Js.quote "data" +:+ ":" +:+ Js.quote "0x" +:+ "}]".
Proof.
  intros params1 params2.
  assert (Hw1 : Js.wf (Js.Arr params1) = true) by (by vm_compute).
  assert (Hw2 : Js.wf (Js.Arr params2) = true) by (by vm_compute).
  assert (Heq : Js.val_eqb (Js.Arr params1) (Js.Arr params2) = true) by (by vm_compute).
  assert (Hord : Js.same_creation_order (Js.Arr params1) (Js.Arr params2) = true)
    by (by vm_compute).
  split_and!; [done | exact Hw1 | exact Hw2 | exact Heq | exact Hord | | by vm_compute].
  exact (createKey_value_stable "call" params1 params2 Hw1 Hw2 Heq Hord).
Defined.

(** C9 as stated fails: the transaction objects [{to, data}] and
    [{data, to}] of a [call] have the same properties with the same
    values, hence are equal as values, yet their keys differ because
    [JSON.stringify] prints such properties in creation order; the
    creation order is all the two differ in. *)
Lemma createKey_depends_on_property_order :
  let tx1 := Js.Obj [("to", Js.Str "0x1"); ("data", Js.Str "0x")] in
  let tx2 := Js.Obj [("data", Js.Str "0x"); ("to", Js.Str "0x1")] in
  Js.val_eqb (Js.Arr [tx1]) (Js.Arr [tx2]) = true ∧
  Js.val_eqb (Js.Arr [tx2]) (Js.Arr [tx1]) = true ∧
  Js.wf (Js.Arr [tx1]) = true ∧ Js.wf (Js.Arr [tx2]) = true ∧
  Js.same_creation_order (Js.Arr [tx1]) (Js.Arr [tx2]) = false ∧
  RpcCache.createKey "call" [tx1] ≠ RpcCache.createKey "call" [tx2].
Proof. split_and!; [reflexivity | reflexivity | by vm_compute.. ]. Qed.

(** ** The network task queue *)

Section RetryFacts.
Context {R E : Type}.
Implicit Types (fn : nat -> NetworkQueue.outcome R E) (opts : NetworkQueue.Options).

(** A task that fails [k <= remaining] times from [attempt] on and then
    succeeds finishes with that result after [k] pauses. *)
Lemma run_from_succeeds opts fn (k : nat) : ∀ (remaining attempt : nat) v,
  (k <= remaining)%nat ->
  (∀ i, (i < k)%nat -> ∃ e, fn (attempt + i)%nat = NetworkQueue.Thrown e) ->
  fn (attempt + k)%nat = NetworkQueue.Returned v ->
  NetworkQueue.run_from opts fn remaining attempt =
  (NetworkQueue.spaced_runs (NetworkQueue.retryDelay opts) attempt k, NetworkQueue.Finished v).
Proof.
  induction k as [|k IH]; intros remaining attempt v Hle Hfail Hok.
  - rewrite Nat.add_0_r in Hok.
    destruct remaining; simpl; by rewrite Hok.
  - destruct remaining as [|remaining]; [lia|].
    destruct (Hfail 0%nat) as [e He]; [lia|]. rewrite Nat.add_0_r in He.
    simpl. rewrite He; simpl.
    rewrite (IH remaining (S attempt) v); [done | lia | |].
    + intros i Hi. destruct (Hfail (S i)) as [e' He']; [lia|].
      exists e'. by rewrite <- He', Nat.add_succ_r.
    + by rewrite <- Hok, Nat.add_succ_r.
Qed.

(** A task that fails [remaining + 1] times from [attempt] on fails
    terminally with the error of its last run. *)
Lemma run_from_exhausts opts fn : ∀ (remaining attempt : nat) e_last,
  (∀ i, (i < remaining)%nat -> ∃ e, fn (attempt + i)%nat = NetworkQueue.Thrown e) ->
  fn (attempt + remaining)%nat = NetworkQueue.Thrown e_last ->
  NetworkQueue.run_from opts fn remaining attempt =
  (NetworkQueue.spaced_runs (NetworkQueue.retryDelay opts) attempt remaining,
   NetworkQueue.Failed e_last).
Proof.
  induction remaining as [|remaining IH]; intros attempt e_last Hfail Hlast.
  - rewrite Nat.add_0_r in Hlast. simpl. by rewrite Hlast.
  - destruct (Hfail 0%nat) as [e He]; [lia|]. rewrite Nat.add_0_r in He.
    simpl. rewrite He; simpl.
    rewrite (IH (S attempt) e_last); [done | |].
    + intros i Hi. destruct (Hfail (S i)) as [e' He']; [lia|].
      exists e'. by rewrite <- He', Nat.add_succ_r.
    + by rewrite <- Hlast, Nat.add_succ_r.
Qed.

(** The retry rule for a task that keeps its id to itself
    ([maxRetries = 3], [retryDelay = 1000] ms): if its work function
    fails on [maxRetries] consecutive runs the promise rejects with the
    error of the last run; if it fails [k < maxRetries] times and then
    succeeds the promise resolves with that result; in both cases every
    two consecutive runs are separated by one pause of [retryDelay]. *)
Lemma sole_task_retries_then_settles fn :
  let opts := NetworkQueue.queue_options NetworkQueue.default_concurrency in
  (NetworkQueue.maxRetries opts = 3%nat ∧ NetworkQueue.retryDelay opts = 1000) ∧
  (∀ e_last,
     (∀ i, (i < NetworkQueue.maxRetries opts)%nat -> ∃ e, fn i = NetworkQueue.Thrown e) ->
     fn (NetworkQueue.maxRetries opts - 1)%nat = NetworkQueue.Thrown e_last ->
     NetworkQueue.promise_of_sole_task fn =
     (NetworkQueue.spaced_runs (NetworkQueue.retryDelay opts) 0
        (NetworkQueue.maxRetries opts - 1),
      NetworkQueue.Rejected e_last)) ∧
  (∀ k v,
     (k < NetworkQueue.maxRetries opts)%nat ->
     (∀ i, (i < k)%nat -> ∃ e, fn i = NetworkQueue.Thrown e) ->
     fn k = NetworkQueue.Returned v ->
     NetworkQueue.promise_of_sole_task fn =
     (NetworkQueue.spaced_runs (NetworkQueue.retryDelay opts) 0 k, NetworkQueue.Resolved v)).
Proof.
  intros opts. split_and!; [done | done | |].
  - intros e_last Hfail Hlast.
    unfold NetworkQueue.promise_of_sole_task, NetworkQueue.run_task. fold opts.
    rewrite (run_from_exhausts opts fn (NetworkQueue.maxRetries opts - 1) 0 e_last); [done | |].
    + intros i Hi. apply Hfail. simpl in *. lia.
    + exact Hlast.
  - intros k v Hk Hfail Hok.
    unfold NetworkQueue.promise_of_sole_task, NetworkQueue.run_task. fold opts.
    rewrite (run_from_succeeds opts fn k (NetworkQueue.maxRetries opts - 1) 0 v);
      [done | simpl in *; lia | exact Hfail | exact Hok].
Qed.

End RetryFacts.

(** *** Task ids *)

Section TaskIds.

Lemma task_id_inj now r1 r2 :
  NetworkQueue.task_id now r1 = NetworkQueue.task_id now r2 -> r1 = r2.
Proof.
  unfold NetworkQueue.task_id. intros H.
  apply (inj (String.app "task-")) in H.
  apply (inj (String.app (pretty now))) in H.
  apply (inj (String.app "-")) in H.
  by apply (inj pretty) in H.
Qed.

(** The ids of one millisecond are at most a thousand: of any 1001
    tasks enqueued at the same clock reading, two carry the same id,
    whatever [Math.random] returns. *)
Lemma task_ids_of_a_millisecond now (draws : list N) :
  Forall (fun r => r < 1000) draws ->
  (1000 < length draws)%nat ->
  ¬ NoDup (NetworkQueue.task_id now <$> draws).
Proof.
  intros Hrange Hmany Hnd.
  assert (Hdraws : NoDup draws).
  { eapply (NoDup_fmap_1 (NetworkQueue.task_id now)); exact Hnd. }
  assert (Hincl : draws ⊆ (N.of_nat <$> seq 0 1000)).
  { intros r Hr. rewrite Forall_forall in Hrange. specialize (Hrange _ Hr).
    apply list_elem_of_fmap. exists (N.to_nat r). split; [lia|].
    apply elem_of_seq. lia. }
  pose proof (submseteq_length _ _ (NoDup_submseteq _ _ Hdraws Hincl)) as Hlen.
  rewrite length_fmap, length_seq in Hlen. lia.
Qed.

End TaskIds.

(** C3. Two calls of [enqueueNetworkRequest] for the same network at
    the same clock reading whose random draws agree (here two balance
    refreshes, 417 drawn twice) push two different tasks under one id
    on one queue, although a task's id is meant to be unique: the
    engine cannot tell the two apart, so the retry and settlement of
    the claim are not those of each task's own work function. *)
Theorem enqueue_pushes_two_tasks_under_one_id :
  let fnA : nat -> NetworkQueue.outcome string string :=
    fun _ => NetworkQueue.Returned "balance of the sender" in
  let fnB : nat -> NetworkQueue.outcome string string :=
    fun _ => NetworkQueue.Thrown "receiver lookup failed" in
  let first :=
    NetworkQueue.enqueueNetworkRequest "ethereum" "mainnet" 1700000000000 417 fnA ∅ in
  let second :=
    NetworkQueue.enqueueNetworkRequest "ethereum" "mainnet" 1700000000000 417 fnB first.1.1 in
  first.1.2 = "ethereum:mainnet" ∧ second.1.2 = first.1.2 ∧
  second.1.1 = first.1.1 ∧
  NetworkQueue.id first.2 = "task-1700000000000-417" ∧
  NetworkQueue.id second.2 = NetworkQueue.id first.2 ∧
  NetworkQueue.fn first.2 0%nat = NetworkQueue.Returned "balance of the sender" ∧
  NetworkQueue.fn second.2 0%nat = NetworkQueue.Thrown "receiver lookup failed" ∧
  (NetworkQueue.promise_of_sole_task (NetworkQueue.fn first.2)).2 ≠
    (NetworkQueue.promise_of_sole_task (NetworkQueue.fn second.2)).2.
Proof. vm_compute. by split_and!. Qed.

(** The retry rule on two concrete tasks that keep their ids to
    themselves: one that always throws ["down"], and one that throws
    twice and then returns [42]. *)
Lemma sole_task_retries_then_settles_example :
  NetworkQueue.promise_of_sole_task (R:=nat) (fun _ => NetworkQueue.Thrown "down") =
    ([NetworkQueue.Run 0; NetworkQueue.Wait 1000; NetworkQueue.Run 1;
      NetworkQueue.Wait 1000; NetworkQueue.Run 2],
     NetworkQueue.Rejected "down") ∧
  NetworkQueue.promise_of_sole_task (E:=string)
    (fun n => if (n <? 2)%nat then NetworkQueue.Thrown "busy" else NetworkQueue.Returned 42%nat) =
    ([NetworkQueue.Run 0; NetworkQueue.Wait 1000; NetworkQueue.Run 1;
      NetworkQueue.Wait 1000; NetworkQueue.Run 2],
     NetworkQueue.Resolved 42%nat).
Proof.
  split.
  - apply (sole_task_retries_then_settles (R:=nat) (fun _ => NetworkQueue.Thrown "down")).
    + intros i _. by exists "down".
    + reflexivity.
  - pose proof (sole_task_retries_then_settles (E:=string)
                  (fun n => if (n <? 2)%nat then NetworkQueue.Thrown "busy"
                            else NetworkQueue.Returned 42%nat)) as H.
    cbv zeta in H. destruct H as (_ & _ & Hres).
    apply (Hres 2%nat 42%nat).
    + simpl. lia.
    + intros i Hi. exists "busy". by destruct i as [|[|i]]; [| |lia].
    + reflexivity.
Qed.

(** Any 1001 draws: here each of 0, ..., 999 once and 417 again. *)
Lemma task_ids_of_a_millisecond_example :
  ¬ NoDup (NetworkQueue.task_id 1700000000000 <$> (417 :: (N.of_nat <$> seq 0 1000))).
Proof.
  apply task_ids_of_a_millisecond.
  - apply Forall_cons. split; [lia|]. apply Forall_forall. intros r Hr.
    apply list_elem_of_fmap in Hr as (n & -> & Hn). apply elem_of_seq in Hn. lia.
  - rewrite length_cons, length_fmap, length_seq. lia.
Qed.

Section SchedulingFacts.
Implicit Types (q : NetworkQueue.Queue) (qs : gmap string NetworkQueue.Queue).

Lemma pick_up_bounded (limit : nat) (waiting run : list string) :
  (length run <= limit)%nat ->
  (length (NetworkQueue.pick_up limit run waiting).1 <= limit)%nat.
Proof.
  revert run. induction waiting as [|task waiting IH]; intros run Hle; simpl; [done|].
  destruct (Nat.ltb_spec (length run) limit) as [Hlt|Hge]; [|done].
  apply IH. rewrite length_app. simpl. lia.
Qed.

Lemma dispatch_ok q :
  (length (NetworkQueue.running q) <= NetworkQueue.concurrent (NetworkQueue.options q))%nat ->
  NetworkQueue.options q = NetworkQueue.queue_options NetworkQueue.default_concurrency ->
  queue_ok (NetworkQueue.dispatch q).
Proof.
  intros Hle Hopts. split; simpl; [|done]. by apply pick_up_bounded.
Qed.

Lemma push_ok task q : queue_ok q -> queue_ok (NetworkQueue.push task q).
Proof. intros [Hle Hopts]. by apply dispatch_ok. Qed.

Lemma task_ended_ok task q : queue_ok q -> queue_ok (NetworkQueue.task_ended task q).
Proof.
  intros [Hle Hopts]. apply dispatch_ok; simpl; [|done].
  etrans; [apply length_filter | done].
Qed.

Lemma new_queue_ok :
  queue_ok (NetworkQueue.new_queue (NetworkQueue.queue_options NetworkQueue.default_concurrency)).
Proof. split; simpl; [lia | done]. Qed.

Lemma step_ok a qs :
  (∀ key q, qs !! key = Some q -> queue_ok q) ->
  ∀ key q, NetworkQueue.step a qs !! key = Some q -> queue_ok q.
Proof.
  intros Hall key q. destruct a as [network networkType task | key' task]; simpl.
  - set (k := NetworkQueue.networkKey_of network networkType).
    assert (Hall' : ∀ key q,
              NetworkQueue.getNetworkQueue k NetworkQueue.default_concurrency qs !! key = Some q ->
              queue_ok q).
    { intros key0 q0. unfold NetworkQueue.getNetworkQueue.
      destruct (qs !! k) eqn:Hk; [apply Hall|].
      rewrite lookup_insert. case_decide; [|apply Hall].
      intros [= <-]. apply new_queue_ok. }
    destruct (NetworkQueue.getNetworkQueue k NetworkQueue.default_concurrency qs !! k)
      as [q0|] eqn:Hq0; [|apply Hall'].
    rewrite lookup_insert. case_decide; [|apply Hall'].
    intros [= <-]. apply push_ok. by eapply Hall'.
  - destruct (qs !! key') as [q0|] eqn:Hq0; [|apply Hall].
    rewrite lookup_insert. case_decide; [|apply Hall].
    intros [= <-]. apply task_ended_ok. by eapply Hall.
Qed.

Lemma fold_step_ok (actions : list NetworkQueue.action) qs :
  (∀ key q, qs !! key = Some q -> queue_ok q) ->
  ∀ key q,
    fold_left (fun qs a => NetworkQueue.step a qs) actions qs !! key = Some q -> queue_ok q.
Proof.
  revert qs. induction actions as [|a actions IH]; intros qs Hall; simpl; [done|].
  apply IH. by apply step_ok.
Qed.

(** C8. After any sequence of enqueues and task completions, on any
    network key, the queue of that key is running at most as many tasks
    as its concurrency limit, which is the default 3. *)
Theorem running_within_concurrency (actions : list NetworkQueue.action) key q :
  NetworkQueue.run actions !! key = Some q ->
  (length (NetworkQueue.running q) <= NetworkQueue.concurrent (NetworkQueue.options q))%nat ∧
  NetworkQueue.concurrent (NetworkQueue.options q) = 3%nat.
Proof.
  intros Hq.
  assert (Hok : queue_ok q).
  { eapply (fold_step_ok actions ∅); [|exact Hq]. intros k q0. by rewrite lookup_empty. }
  destruct Hok as [Hle Hopts]. split; [done|]. by rewrite Hopts.
Qed.

End SchedulingFacts.

(** C8, on a burst of five enqueues for one network: three tasks run,
    two wait. *)
Lemma running_within_concurrency_witness :
  let burst :=
    [NetworkQueue.Enqueue "ethereum" "mainnet" "t1"; NetworkQueue.Enqueue "ethereum" "mainnet" "t2";
     NetworkQueue.Enqueue "ethereum" "mainnet" "t3"; NetworkQueue.Enqueue "ethereum" "mainnet" "t4";
     NetworkQueue.Enqueue "ethereum" "mainnet" "t5"] in
  let q := NetworkQueue.mkQueue (NetworkQueue.queue_options 3) ["t1"; "t2"; "t3"] ["t4"; "t5"] in
  NetworkQueue.run burst !! "ethereum:mainnet" = Some q ∧
  (length (NetworkQueue.running q) <= NetworkQueue.concurrent (NetworkQueue.options q))%nat.
Proof.
  intros burst q.
  assert (Hq : NetworkQueue.run burst !! "ethereum:mainnet" = Some q) by (by vm_compute).
  split; [exact Hq|].
  apply (running_within_concurrency burst "ethereum:mainnet" q Hq).
Defined.

(** ** The subscription hub: registries *)

Section RegistryFacts.
Implicit Types (a : Hub.Registry) (c : Hub.ClientSubs) (t : Hub.topic).
Implicit Types (m : gmap string (gset string)) (conn : Hub.Connection).

Lemma subs_of_with_subs t t' m a :
  Hub.subs_of t' (Hub.with_subs t m a) = if decide (t' = t) then m else Hub.subs_of t' a.
Proof. by destruct t, t'. Qed.

Lemma keys_of_with_keys t t' (s : gset string) c :
  Hub.keys_of t' (Hub.with_keys t s c) = if decide (t' = t) then s else Hub.keys_of t' c.
Proof. by destruct t, t'. Qed.

Lemma read_Some m key s : m !! key = Some s -> Hub.read m key = Hub.OwnSet s.
Proof. intros H. unfold Hub.read. by rewrite H. Qed.

Lemma read_OwnSet m key s : Hub.read m key = Hub.OwnSet s <-> m !! key = Some s.
Proof.
  unfold Hub.read. destruct (m !! key) as [s'|]; [|by destruct (JsObject.plain key)].
  split; congruence.
Qed.

Lemma absent_None t key a : Hub.absent t key a = true -> Hub.subs_of t a !! key = None.
Proof.
  unfold Hub.absent, Hub.read. by destruct (Hub.subs_of t a !! key).
Qed.

Lemma absent_plain t key a :
  Hub.absent t key a = true <-> Hub.subs_of t a !! key = None ∧ JsObject.plain key = true.
Proof.
  unfold Hub.absent, Hub.read.
  destruct (Hub.subs_of t a !! key); [naive_solver|].
  destruct (JsObject.plain key); naive_solver.
Qed.

Lemma create_set_lookup t key a t' key' :
  Hub.subs_of t' (Hub.create_set t key a) !! key' =
  if decide (t' = t ∧ key' = key ∧ Hub.absent t key a = true) then Some ∅
  else Hub.subs_of t' a !! key'.
Proof.
  unfold Hub.create_set. destruct (Hub.absent t key a) eqn:Hab.
  - rewrite subs_of_with_subs. destruct (decide (t' = t)) as [->|Ht].
    + destruct (decide (key' = key)) as [->|Hk].
      * rewrite decide_True by done. by rewrite lookup_insert_eq.
      * rewrite decide_False by naive_solver. by rewrite lookup_insert_ne.
    + by rewrite decide_False by naive_solver.
  - by rewrite decide_False by naive_solver.
Qed.

(** Creating the empty set changes no membership. *)
Lemma create_set_members t key a t' key' :
  Hub.members t' key' (Hub.create_set t key a) = Hub.members t' key' a.
Proof.
  unfold Hub.members. rewrite create_set_lookup. case_decide as H; [|done].
  destruct H as (-> & -> & Hab). by rewrite (absent_None _ _ _ Hab).
Qed.

Lemma register_Some t key id a c :
  is_Some (Hub.register t key id a c) <-> is_Some (Hub.subs_of t a !! key).
Proof.
  unfold Hub.register, Hub.read.
  destruct (Hub.subs_of t a !! key); [by split; eauto|].
  destruct (JsObject.plain key); split; intros [? ?]; done.
Qed.

Lemma register_lookup t key id a c reg t' key' :
  Hub.register t key id a c = Some reg ->
  Hub.subs_of t' reg.1 !! key' =
  if decide (t' = t ∧ key' = key) then Some (Hub.members t key a ∪ {[id]})
  else Hub.subs_of t' a !! key'.
Proof.
  unfold Hub.register, Hub.read, Hub.members.
  destruct (Hub.subs_of t a !! key) as [s|] eqn:Hs;
    [|by destruct (JsObject.plain key)].
  intros [= <-]. cbn [fst]. rewrite subs_of_with_subs.
  destruct (decide (t' = t)) as [->|Ht].
  - destruct (decide (key' = key)) as [->|Hk].
    + rewrite decide_True by done. by rewrite lookup_insert_eq.
    + rewrite decide_False by (by intros [_ ?]). by rewrite lookup_insert_ne.
  - by rewrite decide_False by (by intros [? _]).
Qed.

Lemma register_members t key id a c reg t' key' :
  Hub.register t key id a c = Some reg ->
  Hub.members t' key' reg.1 =
  if decide (t' = t ∧ key' = key) then Hub.members t key a ∪ {[id]}
  else Hub.members t' key' a.
Proof.
  intros Hreg. unfold Hub.members at 1. rewrite (register_lookup _ _ _ _ _ _ _ _ Hreg).
  by case_decide.
Qed.

Lemma register_keys t key id a c reg t' :
  Hub.register t key id a c = Some reg ->
  Hub.keys_of t' reg.2 =
  if decide (t' = t) then Hub.keys_of t c ∪ {[key]} else Hub.keys_of t' c.
Proof.
  unfold Hub.register. destruct (Hub.read _ _); try done.
  intros [= <-]. apply keys_of_with_keys.
Qed.

Lemma unsubscribe_lookup t key id a conn t' key' :
  Hub.subs_of t' (Hub.unsubscribe t key id a conn).1.1 !! key' =
  if decide (t' = t ∧ key' = key) then (fun s => s ∖ {[id]}) <$> Hub.subs_of t a !! key
  else Hub.subs_of t' a !! key'.
Proof.
  unfold Hub.unsubscribe, Hub.read.
  destruct (Hub.subs_of t a !! key) as [s|] eqn:Hs; cbn [fst snd].
  - rewrite subs_of_with_subs.
    destruct (decide (t' = t)) as [->|Ht].
    + destruct (decide (key' = key)) as [->|Hk].
      * rewrite decide_True by done. by rewrite lookup_insert_eq.
      * rewrite decide_False by (by intros [_ ?]). by rewrite lookup_insert_ne.
    + by rewrite decide_False by (by intros [? _]).
  - destruct (JsObject.plain key); cbn [fst snd];
      (case_decide as H; [|done]); destruct H as [-> ->]; by rewrite Hs.
Qed.

Lemma unsubscribe_members t key id a conn t' key' :
  Hub.members t' key' (Hub.unsubscribe t key id a conn).1.1 =
  if decide (t' = t ∧ key' = key) then Hub.members t key a ∖ {[id]}
  else Hub.members t' key' a.
Proof.
  unfold Hub.members. rewrite unsubscribe_lookup. case_decide; [|done].
  destruct (Hub.subs_of t a !! key); simpl; [done | set_solver].
Qed.

Lemma unsubscribe_keys t key id a conn t' :
  Hub.keys_of t' (Hub.clientSubscriptions (Hub.unsubscribe t key id a conn).1.2) =
  if decide (t' = t ∧ is_Some (Hub.subs_of t a !! key))
  then Hub.keys_of t (Hub.clientSubscriptions conn) ∖ {[key]}
  else Hub.keys_of t' (Hub.clientSubscriptions conn).
Proof.
  unfold Hub.unsubscribe, Hub.read.
  destruct (Hub.subs_of t a !! key) as [s|] eqn:Hs; cbn [fst snd Hub.clientSubscriptions].
  - rewrite keys_of_with_keys. destruct (decide (t' = t)) as [->|Ht].
    + by rewrite decide_True by eauto.
    + by rewrite decide_False by (by intros [? _]).
  - rewrite decide_False by (intros [_ [? ?]]; done).
    by destruct (JsObject.plain key).
Qed.

(** *** The clean-up loops of the disconnect handler *)

Lemma cleaned_idemp id (o : option (gset string)) : cleaned id (cleaned id o) = cleaned id o.
Proof.
  destruct o as [s|]; simpl; [|done].
  destruct (decide (size (s ∖ {[id]}) = 0%nat)) as [He|Hne]; simpl; [done|].
  replace (s ∖ {[id]} ∖ {[id]}) with (s ∖ {[id]}) by set_solver.
  by rewrite decide_False.
Qed.

Lemma cleaned_members id (o : option (gset string)) :
  default ∅ (cleaned id o) = default ∅ o ∖ {[id]}.
Proof.
  destruct o as [s|]; simpl; [|set_solver].
  destruct (decide (size (s ∖ {[id]}) = 0%nat)) as [He|Hne]; simpl; [|done].
  apply size_empty_inv in He. set_solver.
Qed.

Lemma cleaned_sole id (s : gset string) :
  id ∈ s ->
  cleaned id (Some s) = if decide (s = {[id]}) then None else Some (s ∖ {[id]}).
Proof.
  intros Hin. simpl.
  destruct (decide (size (s ∖ {[id]}) = 0%nat)) as [He|Hne].
  - apply size_empty_inv in He. rewrite decide_True; [done|].
    apply set_eq. intros x. rewrite elem_of_singleton. split.
    + intros Hx. destruct (decide (x = id)) as [|Hxid]; [done|].
      exfalso. apply (not_elem_of_empty (C:=gset string) x). apply He.
      apply elem_of_difference. split; [done|]. by rewrite elem_of_singleton.
    + by intros ->.
  - rewrite decide_False; [done|]. intros ->. apply Hne.
    apply size_empty_iff. intros x. rewrite elem_of_difference.
    split; [by intros [? ?] | by intros ?%not_elem_of_empty].
Qed.

Lemma cleanup_key_lookup id m key key' :
  Hub.cleanup_key id m key !! key' =
  if decide (key' = key) then cleaned id (m !! key) else m !! key'.
Proof.
  unfold Hub.cleanup_key, cleaned.
  destruct (m !! key) as [s|] eqn:Hs.
  - destruct (decide (size (s ∖ {[id]}) = 0%nat)).
    + destruct (decide (key' = key)) as [->|Hne].
      * by rewrite lookup_delete_eq.
      * by rewrite lookup_delete_ne.
    + destruct (decide (key' = key)) as [->|Hne].
      * by rewrite lookup_insert_eq.
      * by rewrite lookup_insert_ne.
  - by destruct (decide (key' = key)) as [->|Hne].
Qed.

Lemma cleanup_loop_lookup id (keys : list string) m key' :
  fold_left (Hub.cleanup_key id) keys m !! key' =
  if decide (key' ∈ keys) then cleaned id (m !! key') else m !! key'.
Proof.
  revert m. induction keys as [|key keys IH]; intros m; simpl.
  - done.
  - rewrite IH, cleanup_key_lookup.
    destruct (decide (key' = key)) as [->|Hne].
    + rewrite (decide_True (P := key ∈ key :: keys)) by left.
      case_decide; [apply cleaned_idemp | done].
    + destruct (decide (key' ∈ keys)) as [Hin|Hnin].
      * by rewrite decide_True by (by right).
      * rewrite decide_False; [done|]. by intros [?|?]%elem_of_cons.
Qed.

Lemma cleanup_topic_lookup id c a t t' key' :
  Hub.subs_of t' (Hub.cleanup_topic id c a t) !! key' =
  if decide (t' = t ∧ key' ∈ Hub.keys_of t c) then cleaned id (Hub.subs_of t a !! key')
  else Hub.subs_of t' a !! key'.
Proof.
  unfold Hub.cleanup_topic. rewrite subs_of_with_subs.
  destruct (decide (t' = t)) as [->|Ht].
  - rewrite cleanup_loop_lookup.
    destruct (decide (key' ∈ elements (Hub.keys_of t c))) as [Hin|Hnin].
    + rewrite decide_True; [done|]. split; [done|]. by apply elem_of_elements.
    + rewrite decide_False; [done|]. intros [_ Hin]. by apply Hnin, elem_of_elements.
  - by rewrite decide_False by (by intros [? _]).
Qed.

Lemma disconnect_lookup id a conn t key :
  Hub.subs_of t (Hub.disconnect id a conn) !! key =
  if decide (key ∈ Hub.keys_of t (Hub.clientSubscriptions conn))
  then cleaned id (Hub.subs_of t a !! key)
  else Hub.subs_of t a !! key.
Proof.
  unfold Hub.disconnect. cbn [fold_left].
  rewrite !cleanup_topic_lookup.
  destruct (decide (key ∈ Hub.keys_of t (Hub.clientSubscriptions conn))) as [Hin|Hnin].
  - destruct t; repeat (case_decide; try done); naive_solver.
  - repeat (case_decide; try done); naive_solver.
Qed.

Lemma disconnect_members id a conn t key :
  synced id a (Hub.clientSubscriptions conn) ->
  Hub.members t key (Hub.disconnect id a conn) = Hub.members t key a ∖ {[id]}.
Proof.
  intros Hsync. unfold Hub.members at 1. rewrite disconnect_lookup.
  case_decide as Hin.
  - apply cleaned_members.
  - fold (Hub.members t key a).
    assert (id ∉ Hub.members t key a) by (intros Hm; by apply Hsync in Hm). set_solver.
Qed.

End RegistryFacts.

(** ** The subscription hub: handlers and the invariant *)

Section HandlerFacts.
Implicit Types (a : Hub.Registry) (t : Hub.topic) (conn : Hub.Connection) (st : Hub.State).

Lemma isRateLimited_params now id ev (rl : Hub.RequestLimiter) :
  Hub.timeWindow (Hub.isRateLimited now id ev rl).2 = Hub.timeWindow rl ∧
  Hub.maxRequests (Hub.isRateLimited now id ev rl).2 = Hub.maxRequests rl.
Proof. unfold Hub.isRateLimited. by destruct (_ <=? _)%nat. Qed.

(** The outcomes of a [subscribe] handler: rejected by the limiter;
    failed after the set was created (or found); registered. *)
Lemma subscribe_cases t key network networkType now id a conn :
  let chk := Hub.isRateLimited now id (Hub.event_name t) (Hub.requestLimiter conn) in
  let res := Hub.subscribe t key network networkType now id a conn in
  Hub.requestLimiter res.1.2 = chk.2 ∧
  ((chk.1 = true ∧ res.1.1 = a ∧
    Hub.clientSubscriptions res.1.2 = Hub.clientSubscriptions conn ∧
    res.2 = [Hub.EmitError id Hub.rate_limit_message]) ∨
   (chk.1 = false ∧ res.1.1 = Hub.create_set t key a ∧
    Hub.clientSubscriptions res.1.2 = Hub.clientSubscriptions conn ∧
    Hub.EmitError id (Hub.failure_message t) ∈ res.2) ∨
   (chk.1 = false ∧
    ∃ reg, Hub.register t key id (Hub.create_set t key a) (Hub.clientSubscriptions conn) =
             Some reg ∧
           res.1.1 = reg.1 ∧ Hub.clientSubscriptions res.1.2 = reg.2 ∧
           ∀ message, Hub.EmitError id message ∉ res.2)).
Proof.
  intros chk res. subst res. unfold Hub.subscribe. fold chk.
  destruct chk.1 eqn:Hl; cbn [fst snd Hub.requestLimiter Hub.clientSubscriptions].
  { split; [done|]. left. by split_and!. }
  destruct (if Hub.absent t key a then Hub.setup t network networkType else Some [])
    as [started|] eqn:Hsetup; cbn [fst snd Hub.requestLimiter Hub.clientSubscriptions].
  - destruct (Hub.register t key id (Hub.create_set t key a) (Hub.clientSubscriptions conn))
      as [reg|] eqn:Hreg; cbn [fst snd Hub.requestLimiter Hub.clientSubscriptions].
    + split; [done|]. right; right. split; [done|]. exists reg. split_and!; try done.
      intros message Hin. apply elem_of_app in Hin as [Hin|Hin].
      * destruct (Hub.absent t key a).
        -- destruct t; simpl in Hsetup; try (destruct (Network.provides _ _));
             simplify_eq; set_solver.
        -- simplify_eq. set_solver.
      * destruct t; simpl in Hin; set_solver.
    + split; [done|]. right; left. split_and!; try done. set_solver.
  - split; [done|]. right; left. split_and!; try done. set_solver.
Qed.

(** A request that passes the limiter, for a key that is no member
    name of [Object.prototype] and, where a block listener has to be
    attached, for a network with a provider, registers the client and
    emits no error. *)
Lemma subscribe_succeeds t key network networkType now id a conn :
  (Hub.isRateLimited now id (Hub.event_name t) (Hub.requestLimiter conn)).1 = false ->
  JsObject.plain key = true ->
  (t = Hub.Blocks -> Hub.absent t key a = true ->
   Network.provides network networkType = true) ->
  let res := Hub.subscribe t key network networkType now id a conn in
  ∃ reg, Hub.register t key id (Hub.create_set t key a) (Hub.clientSubscriptions conn) =
           Some reg ∧
         res.1.1 = reg.1 ∧ Hub.clientSubscriptions res.1.2 = reg.2 ∧
         (∀ message, Hub.EmitError id message ∉ res.2).
Proof.
  intros Hlim Hplain Hprov res.
  assert (Hown : is_Some (Hub.subs_of t (Hub.create_set t key a) !! key)).
  { rewrite create_set_lookup. case_decide; [eauto|].
    destruct (Hub.subs_of t a !! key) as [s|] eqn:Hs; [eauto|].
    exfalso. assert (Hub.absent t key a = true) by (by apply absent_plain). naive_solver. }
  destruct (subscribe_cases t key network networkType now id a conn)
    as [_ [(Hl & _)|[(_ & _ & _ & Herr)|(_ & reg & Hreg & H1 & H2 & H3)]]].
  - fold res in Hl. congruence.
  - exfalso. fold res in Herr. revert Herr. subst res. unfold Hub.subscribe.
    rewrite Hlim.
    destruct (Hub.absent t key a) eqn:Hab.
    + destruct t; simpl.
      all: try (destruct (proj2 (register_Some _ _ id _ (Hub.clientSubscriptions conn)) Hown)
                  as [reg ->]; simpl; set_solver).
      rewrite Hprov by done.
      destruct (proj2 (register_Some _ _ id _ (Hub.clientSubscriptions conn)) Hown)
        as [reg ->]; simpl; set_solver.
    + destruct (proj2 (register_Some _ _ id _ (Hub.clientSubscriptions conn)) Hown)
        as [reg ->]; destruct t; simpl; set_solver.
  - exists reg. by split_and!.
Qed.

Lemma subscribe_frame t key network networkType now id a conn t' key' id' :
  id' ≠ id ->
  id' ∈ Hub.members t' key' (Hub.subscribe t key network networkType now id a conn).1.1 <->
  id' ∈ Hub.members t' key' a.
Proof.
  intros Hne.
  destruct (subscribe_cases t key network networkType now id a conn)
    as [_ [(_ & -> & _)|[(_ & -> & _)|(_ & reg & Hreg & -> & _)]]].
  - done.
  - by rewrite create_set_members.
  - rewrite (register_members _ _ _ _ _ _ _ _ Hreg), !create_set_members.
    case_decide as H; [|done]. destruct H as [-> ->]. set_solver.
Qed.

Lemma subscribe_synced t key network networkType now id a conn :
  synced id a (Hub.clientSubscriptions conn) ->
  synced id (Hub.subscribe t key network networkType now id a conn).1.1
            (Hub.clientSubscriptions
               (Hub.subscribe t key network networkType now id a conn).1.2).
Proof.
  intros Hsync t' key'.
  destruct (subscribe_cases t key network networkType now id a conn)
    as [_ [(_ & -> & -> & _)|[(_ & -> & -> & _)|(_ & reg & Hreg & -> & -> & _)]]].
  - apply Hsync.
  - rewrite create_set_members. apply Hsync.
  - rewrite (register_members _ _ _ _ _ _ _ _ Hreg), (register_keys _ _ _ _ _ _ _ Hreg).
    rewrite !create_set_members.
    destruct (decide (t' = t)) as [->|Ht].
    + destruct (decide (key' = key)) as [->|Hk].
      * rewrite decide_True by done. set_solver.
      * rewrite decide_False by (by intros [_ ?]).
        rewrite (Hsync t key'). set_solver.
    + rewrite decide_False by (by intros [? _]). apply Hsync.
Qed.

Lemma subscribe_params t key network networkType now id a conn :
  Hub.timeWindow
    (Hub.requestLimiter (Hub.subscribe t key network networkType now id a conn).1.2) =
    Hub.timeWindow (Hub.requestLimiter conn) ∧
  Hub.maxRequests
    (Hub.requestLimiter (Hub.subscribe t key network networkType now id a conn).1.2) =
    Hub.maxRequests (Hub.requestLimiter conn).
Proof.
  destruct (subscribe_cases t key network networkType now id a conn) as [-> _].
  apply isRateLimited_params.
Qed.

Lemma unsubscribe_frame t key id a conn t' key' id' :
  id' ≠ id ->
  id' ∈ Hub.members t' key' (Hub.unsubscribe t key id a conn).1.1 <->
  id' ∈ Hub.members t' key' a.
Proof.
  intros Hne. rewrite unsubscribe_members. case_decide as H; [|done].
  destruct H as [-> ->]. set_solver.
Qed.

Lemma unsubscribe_synced t key id a conn :
  synced id a (Hub.clientSubscriptions conn) ->
  synced id (Hub.unsubscribe t key id a conn).1.1
            (Hub.clientSubscriptions (Hub.unsubscribe t key id a conn).1.2).
Proof.
  intros Hsync t' key'. rewrite unsubscribe_members, unsubscribe_keys.
  destruct (decide (t' = t)) as [->|Ht].
  - destruct (Hub.subs_of t a !! key) as [s|] eqn:Hs.
    + rewrite (decide_True (P := t = t ∧ is_Some (Some s))) by eauto.
      destruct (decide (key' = key)) as [->|Hk].
      * rewrite decide_True by done. set_solver.
      * rewrite decide_False by (by intros [_ ?]). rewrite (Hsync t key'). set_solver.
    + rewrite (decide_False (P := t = t ∧ is_Some None)) by (intros [_ [? ?]]; done).
      case_decide as H; [|apply Hsync]. destruct H as [_ ->].
      rewrite <- (Hsync t key). unfold Hub.members. rewrite Hs. set_solver.
  - rewrite !decide_False by (by intros [? _]). apply Hsync.
Qed.

Lemma unsubscribe_params t key id a conn :
  Hub.requestLimiter (Hub.unsubscribe t key id a conn).1.2 = Hub.requestLimiter conn.
Proof. unfold Hub.unsubscribe. by destruct (Hub.read _ _). Qed.

Lemma handle_frame now id msg a conn t' key' id' :
  id' ≠ id ->
  id' ∈ Hub.members t' key' (Hub.handle now id msg a conn).1.1 <->
  id' ∈ Hub.members t' key' a.
Proof.
  intros Hne. destruct msg; simpl;
    first [by apply subscribe_frame | by apply unsubscribe_frame].
Qed.

Lemma handle_synced now id msg a conn :
  synced id a (Hub.clientSubscriptions conn) ->
  synced id (Hub.handle now id msg a conn).1.1
            (Hub.clientSubscriptions (Hub.handle now id msg a conn).1.2).
Proof.
  intros Hsync. destruct msg; simpl;
    first [by apply subscribe_synced | by apply unsubscribe_synced].
Qed.

Lemma handle_params now id msg a conn :
  Hub.timeWindow (Hub.requestLimiter (Hub.handle now id msg a conn).1.2) =
    Hub.timeWindow (Hub.requestLimiter conn) ∧
  Hub.maxRequests (Hub.requestLimiter (Hub.handle now id msg a conn).1.2) =
    Hub.maxRequests (Hub.requestLimiter conn).
Proof.
  destruct msg; simpl;
    first [apply subscribe_params | by rewrite unsubscribe_params].
Qed.

Lemma hub_ok_synced st id conn :
  hub_ok st -> Hub.sockets st !! id = Some conn ->
  synced id (Hub.activeSubscriptions st) (Hub.clientSubscriptions conn).
Proof.
  intros [Hmem _] Hconn t key. rewrite Hmem. split.
  - intros (conn' & Hc & Hk). by simplify_eq.
  - intros Hk. by exists conn.
Qed.

Lemma init_ok : hub_ok Hub.init.
Proof.
  split.
  - intros t key id. unfold Hub.members. simpl. split.
    + destruct t; simpl; rewrite lookup_empty; simpl; set_solver.
    + intros (conn & Hc & _). by rewrite lookup_empty in Hc.
  - intros id conn Hc. simpl in Hc. by rewrite lookup_empty in Hc.
Qed.

Lemma hub_step_ok i st : hub_ok st -> hub_ok (Hub.step i st).1.
Proof.
  intros Hok. pose proof Hok as [Hmem Hpar].
  destruct i as [id | now id msg | id]; simpl.
  - destruct (Hub.sockets st !! id) as [conn|] eqn:Hc; simpl; [done|].
    split; simpl.
    + intros t key id'. rewrite Hmem. split.
      * intros (conn' & Hc' & Hk). exists conn'. split; [|done].
        rewrite lookup_insert_ne; [done|]. intros ->. congruence.
      * intros (conn' & Hc' & Hk).
        apply lookup_insert_Some in Hc' as [[<- <-]|[Hne Hc']].
        -- destruct t; simpl in Hk; set_solver.
        -- by exists conn'.
    + intros id' conn' [[<- <-]|[Hne Hc']]%lookup_insert_Some; [done | by eapply Hpar].
  - destruct (Hub.sockets st !! id) as [conn|] eqn:Hc; simpl; [|done].
    pose proof (hub_ok_synced _ _ _ Hok Hc) as Hsync.
    split; simpl.
    + intros t key id'. destruct (decide (id' = id)) as [->|Hne].
      * rewrite (handle_synced now id msg _ conn Hsync t key). split.
        -- intros Hk. eexists. split; [apply lookup_insert_eq | done].
        -- intros (conn' & Hc' & Hk). rewrite lookup_insert_eq in Hc'. by simplify_eq.
      * rewrite handle_frame by done. rewrite Hmem.
        by setoid_rewrite (lookup_insert_ne (Hub.sockets st) id id').
    + intros id' conn' [[<- <-]|[Hne Hc']]%lookup_insert_Some; [|by eapply Hpar].
      destruct (handle_params now id msg (Hub.activeSubscriptions st) conn) as [-> ->].
      by eapply Hpar.
  - destruct (Hub.sockets st !! id) as [conn|] eqn:Hc; simpl; [|done].
    pose proof (hub_ok_synced _ _ _ Hok Hc) as Hsync.
    split; simpl.
    + intros t key id'. rewrite disconnect_members by done.
      rewrite elem_of_difference, Hmem. split.
      * intros [(conn' & Hc' & Hk) Hne]. exists conn'. split; [|done].
        rewrite lookup_delete_ne; [done|]. set_solver.
      * intros (conn' & [Hne Hc']%lookup_delete_Some & Hk).
        split; [by exists conn' | set_solver].
    + intros id' conn' [Hne Hc']%lookup_delete_Some. by eapply Hpar.
Qed.

Lemma hub_run_ok (inputs : list Hub.input) : hub_ok (Hub.run inputs).
Proof.
  unfold Hub.run. generalize init_ok. generalize Hub.init.
  induction inputs as [|i inputs IH]; intros st Hok; simpl; [done|].
  apply IH. by apply hub_step_ok.
Qed.

End HandlerFacts.

(** ** The subscription hub: unsubscribe, disconnect, rate limit *)

Section HubTheorems.
Implicit Types (a : Hub.Registry) (t : Hub.topic) (conn : Hub.Connection) (st : Hub.State).

(** On every topic, a first subscription that goes through (the key is
    no member name of [Object.prototype], and for new blocks the
    network has a provider) followed by the matching unsubscribe
    empties the reverse index but leaves the key in the registry, bound
    to an empty set. *)
Lemma subscribe_then_unsubscribe t key network networkType now id a conn :
  (Hub.isRateLimited now id (Hub.event_name t) (Hub.requestLimiter conn)).1 = false ->
  Hub.subs_of t a !! key = None ->
  key ∉ Hub.keys_of t (Hub.clientSubscriptions conn) ->
  JsObject.plain key = true ->
  (t = Hub.Blocks -> Network.provides network networkType = true) ->
  let r := Hub.subscribe t key network networkType now id a conn in
  let u := Hub.unsubscribe t key id r.1.1 r.1.2 in
  Hub.subs_of t u.1.1 !! key = Some ∅ ∧
  Hub.keys_of t (Hub.clientSubscriptions u.1.2) = Hub.keys_of t (Hub.clientSubscriptions conn).
Proof.
  intros Hlim Hnone Hkey Hplain Hprov r u. subst u.
  assert (Hab : Hub.absent t key a = true) by (by apply absent_plain).
  assert (Hcreated : Hub.subs_of t (Hub.create_set t key a) !! key = Some ∅).
  { rewrite create_set_lookup. by rewrite decide_True. }
  destruct (subscribe_succeeds t key network networkType now id a conn Hlim Hplain)
    as (reg & Hreg & Hr1 & Hr2 & _).
  { intros Ht _. by apply Hprov. }
  fold r in Hr1, Hr2.
  assert (Hlook : Hub.subs_of t r.1.1 !! key = Some {[id]}).
  { rewrite Hr1, (register_lookup _ _ _ _ _ _ _ _ Hreg), decide_True by done.
    unfold Hub.members. rewrite Hcreated. simpl. f_equal. set_solver. }
  split.
  - rewrite unsubscribe_lookup, decide_True by done. rewrite Hlook. simpl.
    f_equal. set_solver.
  - rewrite unsubscribe_keys. rewrite decide_True by (rewrite Hlook; eauto).
    rewrite Hr2, (register_keys _ _ _ _ _ _ _ Hreg), decide_True by done. set_solver.
Qed.

(** C5. When a live client disconnects, in any reachable state of the
    hub: the (topic, key) pairs it is subscribed to are those of its
    reverse index; afterwards it is a member of no subscriber set; each
    set it was in has lost exactly this client and is deleted if that
    left it empty; and the membership of every other client in every
    set is unchanged. *)
Theorem disconnect_removes_only_the_client (inputs : list Hub.input) id conn :
  Hub.sockets (Hub.run inputs) !! id = Some conn ->
  let a := Hub.activeSubscriptions (Hub.run inputs) in
  let a' := Hub.activeSubscriptions (Hub.step (Hub.Disconnect id) (Hub.run inputs)).1 in
  (∀ t key, id ∈ Hub.members t key a <-> key ∈ Hub.keys_of t (Hub.clientSubscriptions conn)) ∧
  (∀ t key, id ∉ Hub.members t key a') ∧
  (∀ t key, id ∈ Hub.members t key a ->
            Hub.subs_of t a' !! key =
            if decide (Hub.members t key a = {[id]}) then None
            else Some (Hub.members t key a ∖ {[id]})) ∧
  (∀ t key other, other ≠ id ->
                  other ∈ Hub.members t key a' <-> other ∈ Hub.members t key a).
Proof.
  intros Hc a a'.
  pose proof (hub_ok_synced _ _ _ (hub_run_ok inputs) Hc) as Hsync. fold a in Hsync.
  assert (Ha' : a' = Hub.disconnect id a conn).
  { subst a'. simpl. by rewrite Hc. }
  rewrite Ha'. split_and!.
  - exact Hsync.
  - intros t key. rewrite disconnect_members by done. set_solver.
  - intros t key Hin. rewrite disconnect_lookup.
    rewrite decide_True by (by apply Hsync).
    unfold Hub.members in *.
    destruct (Hub.subs_of t a !! key) as [s|]; cbn [default] in *;
      [by apply cleaned_sole | by apply not_elem_of_empty in Hin].
  - intros t key other Hne. rewrite disconnect_members by done. set_solver.
Qed.

(** C6. For a live client and any of the four rate-limited events, with
    [recent] the recorded timestamps [ts] of the pair that are less than
    60 s old ([now - ts < 60000]).  If [recent] holds 60 entries or
    more, the request is answered with one ['error'] event to the
    requester, nothing is registered, and the request is not recorded.
    If it holds fewer than 60 (for instance because older entries have
    left the window), the request is accepted: it is recorded, no
    rate-limit error is sent, and the handler goes on to the
    subscription itself, which registers the client and sends no
    ['error'] event of its own when the key is no member name of
    [Object.prototype] and, for a block subscription that has to
    attach the listener, the network has a provider (a query the
    handler has queued reports its failure later, by itself). *)
Theorem rate_limit_rejects_then_recovers (inputs : list Hub.input) id conn t key
    network networkType now :
  Hub.sockets (Hub.run inputs) !! id = Some conn ->
  let a := Hub.activeSubscriptions (Hub.run inputs) in
  let slot := id +:+ ":" +:+ Hub.event_name t in
  let recent :=
    filter (fun ts => (now <? ts + 60000) = true)
           (default [] (Hub.requests (Hub.requestLimiter conn) !! slot)) in
  let res := Hub.subscribe t key network networkType now id a conn in
  ((60 <= length recent)%nat ->
     res.2 = [Hub.EmitError id Hub.rate_limit_message] ∧
     res.1.1 = a ∧
     Hub.clientSubscriptions res.1.2 = Hub.clientSubscriptions conn ∧
     Hub.requests (Hub.requestLimiter res.1.2) !! slot = Some recent) ∧
  ((length recent < 60)%nat ->
     (Hub.EmitError id Hub.rate_limit_message ∉ res.2) ∧
     Hub.requests (Hub.requestLimiter res.1.2) !! slot = Some (recent ++ [now]) ∧
     (JsObject.plain key = true ->
      (t = Hub.Blocks -> Hub.absent t key a = true ->
       Network.provides network networkType = true) ->
      (∀ message, Hub.EmitError id message ∉ res.2) ∧
      id ∈ Hub.members t key res.1.1 ∧
      key ∈ Hub.keys_of t (Hub.clientSubscriptions res.1.2))).
Proof.
  intros Hc a slot recent res.
  destruct (hub_run_ok inputs) as [_ Hpar].
  destruct (Hpar _ _ Hc) as [Hw Hm].
  assert (Hrecent :
    filter (fun ts => Hub.in_window now 60000 ts = true)
           (default [] (Hub.requests (Hub.requestLimiter conn) !! slot)) = recent).
  { subst recent. apply list_filter_iff. intros ts. unfold Hub.in_window.
    rewrite Z.ltb_lt, N.ltb_lt. lia. }
  assert (Hchk : Hub.isRateLimited now id (Hub.event_name t) (Hub.requestLimiter conn) =
                 if (60 <=? length recent)%nat then
                   (true, Hub.mkRequestLimiter 60000 60
                            (<[slot := recent]> (Hub.requests (Hub.requestLimiter conn))))
                 else
                   (false, Hub.mkRequestLimiter 60000 60
                             (<[slot := recent ++ [now]]>
                                (Hub.requests (Hub.requestLimiter conn))))).
  { unfold Hub.isRateLimited. rewrite Hw, Hm. fold slot. by rewrite Hrecent. }
  destruct (subscribe_cases t key network networkType now id a conn) as [Hlimiter Hcases].
  fold res in Hlimiter, Hcases. rewrite Hchk in Hlimiter, Hcases.
  split; intros Hlen.
  - assert (Hle : (60 <=? length recent)%nat = true) by (by apply Nat.leb_le).
    rewrite Hle in Hlimiter, Hcases. cbn [fst snd] in Hlimiter, Hcases.
    destruct Hcases as [(_ & H1 & H2 & H3)|[(? & _)|(? & _)]]; try done.
    split_and!; try done. rewrite Hlimiter. cbn [Hub.requests]. by rewrite lookup_insert_eq.
  - assert (Hgt : (60 <=? length recent)%nat = false) by (by apply Nat.leb_gt).
    rewrite Hgt in Hlimiter, Hcases. cbn [fst snd] in Hlimiter, Hcases.
    assert (Hpass : (Hub.isRateLimited now id (Hub.event_name t)
                       (Hub.requestLimiter conn)).1 = false) by (by rewrite Hchk, Hgt).
    split_and!.
    + destruct Hcases as [(? & _)|[(_ & _ & _ & Herr)|(_ & reg & _ & _ & _ & Hnone)]];
        [done | | apply Hnone].
      subst res. unfold Hub.subscribe. rewrite Hpass.
      destruct (if Hub.absent t key a then Hub.setup t network networkType else Some [])
        as [started|] eqn:Hsetup.
      * destruct (Hub.register _ _ _ _ _); cbn [snd]; intros Hin;
          apply elem_of_app in Hin as [Hin|Hin].
        all: try (destruct (Hub.absent t key a);
                  [destruct t; simpl in Hsetup; try (destruct (Network.provides _ _));
                   simplify_eq; set_solver
                  | simplify_eq; set_solver]).
        all: destruct t; simpl in Hin; set_solver.
      * cbn [snd]. destruct t; set_solver.
    + rewrite Hlimiter. cbn [Hub.requests]. by rewrite lookup_insert_eq.
    + intros Hplain Hprov.
      destruct (subscribe_succeeds t key network networkType now id a conn Hpass Hplain Hprov)
        as (reg & Hreg & H1 & H2 & Hnone).
      fold res in H1, H2, Hnone. split_and!; [exact Hnone | |].
      * rewrite H1, (register_members _ _ _ _ _ _ _ _ Hreg), decide_True by done. set_solver.
      * rewrite H2, (register_keys _ _ _ _ _ _ _ Hreg), decide_True by done. set_solver.
Qed.

End HubTheorems.

(** C1. A sole subscriber subscribes and then unsubscribes, on each of
    the four topics: the reverse index of the client is empty again,
    but the registry still holds the key, bound to an empty set; the
    disconnect handler, in the same situation, deletes the key.  With
    the empty set left behind, a new [subscribe:blocks] for the key
    attaches no block listener, which it does after a disconnect. *)
Theorem unsubscribe_keeps_empty_subscriber_set :
  let subscribed :=
    [Hub.Connect "s1";
     Hub.Receive 1 "s1" (Hub.SubscribeBalance "0xa" "ethereum" "mainnet");
     Hub.Receive 2 "s1" (Hub.SubscribeTransaction "0xf" "ethereum" "mainnet");
     Hub.Receive 3 "s1" (Hub.SubscribeBlocks "ethereum" "mainnet");
     Hub.Receive 4 "s1" (Hub.SubscribeGasPrice "ethereum" "mainnet")] in
  let unsubscribed :=
    Hub.run (subscribed ++
      [Hub.Receive 5 "s1" (Hub.UnsubscribeBalance "0xa");
       Hub.Receive 6 "s1" (Hub.UnsubscribeTransaction "0xf");
       Hub.Receive 7 "s1" (Hub.UnsubscribeBlocks "ethereum" "mainnet");
       Hub.Receive 8 "s1" (Hub.UnsubscribeGasPrice "ethereum" "mainnet")]) in
  let disconnected := Hub.run (subscribed ++ [Hub.Disconnect "s1"]) in
  Hub.activeSubscriptions (Hub.run [Hub.Connect "s1"]) = Hub.empty_registry ∧
  (Hub.clientSubscriptions <$> Hub.sockets unsubscribed !! "s1") = Some Hub.empty_subs ∧
  Hub.activeSubscriptions unsubscribed =
    Hub.mkRegistry {["0xa" := ∅]} {["0xf" := ∅]}
                   {["ethereum:mainnet" := ∅]} {["ethereum:mainnet" := ∅]} ∧
  Hub.activeSubscriptions disconnected = Hub.empty_registry ∧
  (Hub.step (Hub.Receive 9 "s1" (Hub.SubscribeBlocks "ethereum" "mainnet")) unsubscribed).2 = [] ∧
  (Hub.step (Hub.Receive 9 "s2" (Hub.SubscribeBlocks "ethereum" "mainnet"))
            (Hub.step (Hub.Connect "s2") disconnected).1).2 =
    [Hub.AttachBlockListener "ethereum:mainnet"].
Proof. vm_compute. by split_and!. Qed.

(** C5, on a concrete run: two clients on the same balance, the first
    also on new blocks; the first disconnects. *)
Lemma disconnect_removes_only_the_client_witness :
  let inputs :=
    [Hub.Connect "s1"; Hub.Connect "s2";
     Hub.Receive 1 "s1" (Hub.SubscribeBalance "0xa" "ethereum" "mainnet");
     Hub.Receive 2 "s2" (Hub.SubscribeBalance "0xa" "ethereum" "mainnet");
     Hub.Receive 3 "s1" (Hub.SubscribeBlocks "ethereum" "mainnet")] in
  let a := Hub.activeSubscriptions (Hub.run inputs) in
  let a' := Hub.activeSubscriptions (Hub.step (Hub.Disconnect "s1") (Hub.run inputs)).1 in
  is_Some (Hub.sockets (Hub.run inputs) !! "s1") ∧
  ("s1" ∉ Hub.members Hub.Balances "0xa" a') ∧
  ("s2" ∈ Hub.members Hub.Balances "0xa" a' <-> "s2" ∈ Hub.members Hub.Balances "0xa" a).
Proof.
  intros inputs a a'.
  assert (Hsome : is_Some (Hub.sockets (Hub.run inputs) !! "s1")).
  { vm_compute. eauto. }
  split; [exact Hsome|].
  destruct Hsome as [conn Hc].
  destruct (disconnect_removes_only_the_client inputs "s1" conn Hc) as (_ & Hgone & _ & Hframe).
  split; [apply Hgone | by apply Hframe].
Defined.

(** C6, on a concrete run: sixty balance subscriptions at times 1..60.
    A further one at time 60000, when the oldest timestamp is 59999 ms
    old, is rejected with the rate-limit error; one at time 60001, when
    the oldest has left the window, is accepted and subscribes the
    client without any error event. *)
Lemma rate_limit_rejects_then_recovers_witness :
  let inputs :=
    Hub.Connect "s1" ::
    map (fun n => Hub.Receive (N.of_nat n) "s1" (Hub.SubscribeBalance "0xa" "ethereum" "mainnet"))
        (seq 1 60) in
  ∃ conn,
    Hub.sockets (Hub.run inputs) !! "s1" = Some conn ∧
    (Hub.subscribe Hub.Balances "0xa" "ethereum" "mainnet" 60000 "s1"
       (Hub.activeSubscriptions (Hub.run inputs)) conn).2 =
      [Hub.EmitError "s1" Hub.rate_limit_message] ∧
    JsObject.plain "0xa" = true ∧
    (∀ message,
       Hub.EmitError "s1" message ∉
       (Hub.subscribe Hub.Balances "0xa" "ethereum" "mainnet" 60001 "s1"
          (Hub.activeSubscriptions (Hub.run inputs)) conn).2) ∧
    length
      (default []
         (Hub.requests
            (Hub.requestLimiter
               (Hub.subscribe Hub.Balances "0xa" "ethereum" "mainnet" 60001 "s1"
                  (Hub.activeSubscriptions (Hub.run inputs)) conn).1.2)
          !! "s1:subscribe:balance")) = 60%nat.
Proof.
  intros inputs. eexists. split; [by vm_compute|]. split_and!.
  - apply (rate_limit_rejects_then_recovers inputs "s1" _ Hub.Balances "0xa"
             "ethereum" "mainnet" 60000); [by vm_compute|].
    vm_compute. lia.
  - reflexivity.
  - apply (rate_limit_rejects_then_recovers inputs "s1" _ Hub.Balances "0xa"
             "ethereum" "mainnet" 60001); [by vm_compute | vm_compute; lia | done | done].
  - by vm_compute.
Defined.

(* ================================================================== *)
(** * Part III. Further properties of the code                         *)
(* ================================================================== *)

(** ** [MemoryCache]: capacity, round trips, statistics *)

Section CacheMore.
Context {V : Type}.
Implicit Types (c : MemoryCache.t V) (m : list (string * MemoryCache.Item V)).

Lemma map_set_length k it m :
  length (MemoryCache.map_set k it m) =
  match MemoryCache.map_get k m with
  | Some _ => length m
  | None => S (length m)
  end.
Proof.
  induction m as [|[k' it'] m IH]; simpl; [done|].
  destruct (String.eqb_spec k k') as [->|Hne]; simpl; [done|].
  rewrite IH. by destruct (MemoryCache.map_get k m).
Qed.

Lemma map_set_keys_elem k k' it m :
  k' ∈ map fst (MemoryCache.map_set k it m) -> k' = k ∨ k' ∈ map fst m.
Proof.
  rewrite map_set_keys. destruct (MemoryCache.map_get k m); [by right|].
  intros [?| ->%list_elem_of_singleton]%elem_of_app; [by right | by left].
Qed.

Lemma set_within_capacity now key (v : V) ttl_arg c :
  key ≠ EmptyString -> within_capacity c ->
  within_capacity (MemoryCache.set now key v ttl_arg c).
Proof.
  intros Hkey (Hok & Hne & Hsz). split; [by apply set_ok|].
  destruct (N.ltb_spec (MemoryCache.map_size (MemoryCache.cache c)) (MemoryCache.maxSize c))
    as [Hlt|Hge].
  - rewrite set_below_capacity by done. simpl. split.
    + intros [?|?]%map_set_keys_elem; done.
    + unfold MemoryCache.map_size in *. rewrite map_set_length.
      destruct (MemoryCache.map_get key (MemoryCache.cache c)); lia.
  - destruct (set_at_capacity now key v ttl_arg c Hok Hge Hne) as (k & it & Hk & _ & ->).
    simpl. split.
    + intros [?|?%map_delete_keys_elem]%map_set_keys_elem; done.
    + unfold MemoryCache.map_size in *. rewrite map_set_length.
      pose proof (map_delete_length _ _ _ Hk).
      destruct (MemoryCache.map_get key _); lia.
Qed.

Lemma get_within_capacity now key c :
  within_capacity c -> within_capacity (MemoryCache.get now key c).2.
Proof.
  intros (Hok & Hne & Hsz). split; [by apply get_ok|].
  unfold MemoryCache.get.
  destruct (MemoryCache.map_get key (MemoryCache.cache c)) as [item|] eqn:Hg; [|done].
  destruct (negb _ && _); simpl.
  - split; [by intros ?%map_delete_keys_elem|].
    unfold MemoryCache.map_size in *.
    pose proof (map_delete_length _ _ _ Hg). lia.
  - split.
    + rewrite map_set_keys, Hg. done.
    + unfold MemoryCache.map_size in *. rewrite map_set_length, Hg. done.
Qed.

Lemma delete_within_capacity key c :
  within_capacity c -> within_capacity (MemoryCache.delete key c).
Proof.
  intros (Hok & Hne & Hsz). split; [by apply delete_ok|]. simpl. split.
  - by intros ?%map_delete_keys_elem.
  - unfold MemoryCache.map_size in *.
    destruct (MemoryCache.map_get key (MemoryCache.cache c)) as [it|] eqn:Hg.
    + pose proof (map_delete_length _ _ _ Hg). lia.
    + by rewrite map_delete_absent.
Qed.

Lemma clear_within_capacity c : within_capacity c -> within_capacity (MemoryCache.clear c).
Proof.
  intros (Hok & Hne & Hsz). split; [by apply clear_ok|]. simpl. split.
  - apply not_elem_of_nil.
  - unfold MemoryCache.map_size. simpl. lia.
Qed.

Lemma fold_within_capacity (history : list (MemoryCache.op (V:=V))) c :
  Forall CacheHistory.sets_named history ->
  within_capacity c ->
  within_capacity (fold_left (fun c o => MemoryCache.run_op o c) history c).
Proof.
  intros Hnamed. revert c. induction Hnamed as [|o history Ho _ IH]; intros c Hc; simpl; [done|].
  apply IH. destruct o; simpl in *.
  - by apply get_within_capacity.
  - by apply set_within_capacity.
  - by apply delete_within_capacity.
  - by apply clear_within_capacity.
Qed.

Lemma run_within_capacity o_ttl o_max (history : list (MemoryCache.op (V:=V))) :
  Forall CacheHistory.sets_named history ->
  within_capacity (MemoryCache.run o_ttl o_max history).
Proof.
  intros Hnamed. apply fold_within_capacity; [done|].
  split; [apply new_ok|]. simpl. split; [apply not_elem_of_nil|].
  unfold MemoryCache.map_size. simpl. lia.
Qed.

Lemma fold_maxSize (history : list (MemoryCache.op (V:=V))) c :
  MemoryCache.maxSize (fold_left (fun c o => MemoryCache.run_op o c) history c) =
  MemoryCache.maxSize c.
Proof.
  revert c. induction history as [|o history IH]; intros c; simpl; [done|].
  rewrite IH. destruct o; simpl; try done.
  - unfold MemoryCache.get. destruct (MemoryCache.map_get _ _); [|done].
    by destruct (negb _ && _).
  - destruct (_ <=? _); [|done]. unfold MemoryCache.evictLRU.
    destruct (Js.truthyS _); [|done]. by destruct (MemoryCache.lru_scan _).2.
Qed.

(** X1. A cache whose [set] calls never use the empty string as key
    never holds more than [maxSize] entries ([options.maxSize], or 1000
    when that is missing or 0), whatever the history of operations. *)
Theorem cache_never_exceeds_maxSize o_ttl o_max (history : list (MemoryCache.op (V:=V))) :
  Forall CacheHistory.sets_named history ->
  MemoryCache.map_size (MemoryCache.cache (MemoryCache.run o_ttl o_max history)) <=
  Js.orN o_max 1000.
Proof.
  intros Hnamed. destruct (run_within_capacity o_ttl o_max history Hnamed) as (_ & _ & Hsz).
  unfold MemoryCache.run in *. by rewrite fold_maxSize in Hsz.
Qed.

(** What a [get] returns right after a [set] of the same key. *)
Lemma get_after_set now key (v : V) ttl_arg t c :
  (MemoryCache.get t key (MemoryCache.set now key v ttl_arg c)).1 =
  let e := if Js.truthyN ttl_arg then now + default 0 ttl_arg else now + MemoryCache.ttl c in
  if negb (e =? 0) && (e <? t) then None else Some v.
Proof.
  unfold MemoryCache.get. rewrite set_stores. cbn [MemoryCache.expiry MemoryCache.value].
  cbv zeta. by destruct (negb _ && _).
Qed.

(** X2. [set] with a non-zero [ttl] followed by [get] of the same key at
    time [t]: the value comes back exactly as long as [t] is not past
    [now + ttl]; afterwards the read is a miss. *)
Theorem set_then_get_until_expiry now key (v : V) (ttl t : N) c :
  ttl ≠ 0 ->
  (MemoryCache.get t key (MemoryCache.set now key v (Some ttl) c)).1 =
  if t <=? now + ttl then Some v else None.
Proof.
  intros Httl. rewrite get_after_set. simpl.
  assert ((ttl =? 0) = false) as -> by (by apply N.eqb_neq). simpl.
  assert ((now + ttl =? 0) = false) as -> by (apply N.eqb_neq; lia). simpl.
  destruct (N.leb_spec t (now + ttl)) as [Hle|Hgt].
  - by assert ((now + ttl <? t) = false) as -> by (apply N.ltb_ge; lia).
  - by assert ((now + ttl <? t) = true) as -> by (apply N.ltb_lt; lia).
Qed.

(** X3. [delete(key)] in a cache built by the constructor and any
    history: the next [get(key)] is a miss, every other key keeps its
    entry, the statistics are untouched, and deleting an absent key
    changes nothing. *)
Theorem delete_then_get_misses o_ttl o_max (history : list (MemoryCache.op (V:=V))) key now :
  let c := MemoryCache.run o_ttl o_max history in
  (MemoryCache.get now key (MemoryCache.delete key c)).1 = None ∧
  (∀ k', k' ≠ key ->
         MemoryCache.map_get k' (MemoryCache.cache (MemoryCache.delete key c)) =
         MemoryCache.map_get k' (MemoryCache.cache c)) ∧
  MemoryCache.stats (MemoryCache.delete key c) = MemoryCache.stats c ∧
  (MemoryCache.map_get key (MemoryCache.cache c) = None -> MemoryCache.delete key c = c).
Proof.
  intros c. pose proof (run_ok o_ttl o_max history) as (_ & _ & Hnd & _). fold c in Hnd.
  split_and!.
  - unfold MemoryCache.get. simpl. by rewrite map_get_delete_eq.
  - intros k' Hne. simpl. by apply map_get_delete_ne.
  - done.
  - intros Habs. unfold MemoryCache.delete. rewrite map_delete_absent by done.
    by destruct c.
Qed.

(** X4. An entry that is not the least recently used one survives a
    [set] of another key: if some other entry has a strictly smaller
    [lastAccessed], the entry is still there, unchanged, after the
    [set] (no [set] of the history using the empty key). *)
Theorem recently_used_entry_survives_set o_ttl o_max (history : list (MemoryCache.op (V:=V)))
    k it older now key v ttl_arg :
  Forall CacheHistory.sets_named history ->
  MemoryCache.map_get k (MemoryCache.cache (MemoryCache.run o_ttl o_max history)) = Some it ->
  older ∈ MemoryCache.cache (MemoryCache.run o_ttl o_max history) ->
  MemoryCache.lastAccessed older.2 < MemoryCache.lastAccessed it ->
  key ≠ k ->
  MemoryCache.map_get k
    (MemoryCache.cache (MemoryCache.set now key v ttl_arg (MemoryCache.run o_ttl o_max history))) =
  Some it.
Proof.
  intros Hnamed Hk Holder Hlt Hne.
  destruct (run_within_capacity o_ttl o_max history Hnamed) as (Hok & Hempty & Hsz).
  set (c := MemoryCache.run o_ttl o_max history) in *.
  destruct (N.ltb_spec (MemoryCache.map_size (MemoryCache.cache c)) (MemoryCache.maxSize c))
    as [Hbelow|Hfull].
  - rewrite set_below_capacity by done. simpl. by rewrite map_get_set_ne.
  - destruct (set_at_capacity now key v ttl_arg c Hok Hfull Hempty)
      as (k0 & it0 & Hk0 & Hmin & ->).
    simpl. rewrite map_get_set_ne by done.
    rewrite map_get_delete_ne; [done|]. intros ->.
    rewrite Hk in Hk0. injection Hk0 as <-.
    specialize (Hmin _ Holder). lia.
Qed.

(** *** Statistics *)

Lemma count_snoc (p : MemoryCache.op (V:=V) -> bool) ops o :
  CacheHistory.count p (ops ++ [o]) = CacheHistory.count p ops + (if p o then 1 else 0).
Proof.
  unfold CacheHistory.count. rewrite List.filter_app, length_app. simpl.
  destruct (p o); simpl; lia.
Qed.

Lemma evictLRU_stats c :
  MemoryCache.hits (MemoryCache.stats (MemoryCache.evictLRU c)) = MemoryCache.hits (MemoryCache.stats c) ∧
  MemoryCache.misses (MemoryCache.stats (MemoryCache.evictLRU c)) = MemoryCache.misses (MemoryCache.stats c) ∧
  MemoryCache.sets (MemoryCache.stats (MemoryCache.evictLRU c)) = MemoryCache.sets (MemoryCache.stats c) ∧
  MemoryCache.evictions (MemoryCache.stats (MemoryCache.evictLRU c)) <=
    MemoryCache.evictions (MemoryCache.stats c) + 1.
Proof.
  unfold MemoryCache.evictLRU. destruct (Js.truthyS _); [|split_and!; try done; lia].
  destruct (MemoryCache.lru_scan _).2; simpl; split_and!; try done; lia.
Qed.

Lemma fold_accounted (history : list (MemoryCache.op (V:=V))) c ops :
  accounted c ops ->
  accounted
    (fold_left (fun c o => MemoryCache.run_op o c) history c)
    (fold_left (fun acc o => match o with MemoryCache.OpClear => [] | _ => acc ++ [o] end)
               history ops).
Proof.
  revert c ops. induction history as [|o history IH]; intros c ops (Hg & Hs & He); simpl; [done|].
  apply IH. unfold accounted. destruct o as [now key|now key v ttl_arg|key| ].
  - rewrite !count_snoc. simpl. unfold MemoryCache.get.
    destruct (MemoryCache.map_get key (MemoryCache.cache c)); simpl; [|split_and!; lia].
    destruct (negb _ && _); simpl; split_and!; lia.
  - rewrite !count_snoc. simpl.
    destruct (_ <=? _); simpl; [|split_and!; lia].
    pose proof (evictLRU_stats
                  (MemoryCache.mk (MemoryCache.cache c) (MemoryCache.ttl c) (MemoryCache.maxSize c)
                     (MemoryCache.bump_sets (MemoryCache.stats c)))) as (H1 & H2 & H3 & H4).
    simpl in *. rewrite H1, H2, H3. split_and!; lia.
  - rewrite !count_snoc. simpl. split_and!; lia.
  - simpl. unfold CacheHistory.count. simpl. split_and!; lia.
Qed.

(** X5. The counters of a cache always account for its history: since
    the last [clear()], [hits + misses] is the number of [get] calls,
    [sets] is the number of [set] calls, and there are never more
    evictions than [set] calls. *)
Theorem stats_account_for_history o_ttl o_max (history : list (MemoryCache.op (V:=V))) :
  let s := MemoryCache.stats (MemoryCache.run o_ttl o_max history) in
  MemoryCache.hits s + MemoryCache.misses s =
    CacheHistory.count CacheHistory.is_get (CacheHistory.since_clear history) ∧
  MemoryCache.sets s =
    CacheHistory.count CacheHistory.is_set (CacheHistory.since_clear history) ∧
  MemoryCache.evictions s <= MemoryCache.sets s.
Proof.
  apply (fold_accounted history (MemoryCache.new o_ttl o_max) []).
  unfold accounted, CacheHistory.count. simpl. split_and!; lia.
Qed.

End CacheMore.

(** ** [RpcCache] and its users *)

Section RpcMore.
Context {V : Type}.
Implicit Types (r : RpcCache.t V) (c : MemoryCache.t V).

(** What [RpcCache.get] returns right after [RpcCache.set] of the same
    method and parameters. *)
Lemma rpc_get_after_set now method params (v : V) t r :
  (RpcCache.get t method params (RpcCache.set now method params v r)).1 =
  let e := if Js.truthyN (RpcCache.getTtl method r)
           then now + default 0 (RpcCache.getTtl method r)
           else now + MemoryCache.ttl (RpcCache.cache r) in
  if negb (e =? 0) && (e <? t) then None else Some v.
Proof. unfold RpcCache.get, RpcCache.set. cbn [fst RpcCache.cache]. apply get_after_set. Qed.

(** X6. [RpcCache.set(method, params, value)] followed by
    [RpcCache.get(method, params)], for a method name that is not a
    member name of [Object.prototype]: a read at the same instant always
    returns the value, whatever the TTL configuration; and when the
    method's TTL is a non-zero [ttl], a read at time [t] returns the
    value exactly as long as [t] is not past [now + ttl]. *)
Theorem rpc_set_then_get now method params (v : V) r :
  JsObject.plain method = true ->
  (RpcCache.get now method params (RpcCache.set now method params v r)).1 = Some v ∧
  (∀ ttl t, RpcCache.getTtl method r = Some ttl -> ttl ≠ 0 ->
            (RpcCache.get t method params (RpcCache.set now method params v r)).1 =
            if t <=? now + ttl then Some v else None).
Proof.
  intros _. split.
  - rewrite rpc_get_after_set. cbv zeta.
    match goal with
    | |- context [?e <? now] => assert ((e <? now) = false) as ->
    end.
    { apply N.ltb_ge. destruct (Js.truthyN _); lia. }
    by rewrite andb_false_r.
  - intros ttl t Httl Hnz. rewrite rpc_get_after_set, Httl. simpl.
    assert ((ttl =? 0) = false) as -> by (by apply N.eqb_neq). simpl.
    assert ((now + ttl =? 0) = false) as -> by (apply N.eqb_neq; lia). simpl.
    destruct (N.leb_spec t (now + ttl)) as [Hle|Hgt].
    + by assert ((now + ttl <? t) = false) as -> by (apply N.ltb_ge; lia).
    + by assert ((now + ttl <? t) = true) as -> by (apply N.ltb_lt; lia).
Qed.

Lemma rpc_run_ttlConfig cfg o_max (history : list (RpcCache.op (V:=V))) :
  RpcCache.ttlConfig (RpcCache.run cfg o_max history) = cfg ∪ RpcCache.default_ttlConfig.
Proof.
  unfold RpcCache.run.
  assert (H0 : RpcCache.ttlConfig (RpcCache.new (V:=V) cfg o_max) = cfg ∪ RpcCache.default_ttlConfig)
    by done.
  revert H0. generalize (RpcCache.new (V:=V) cfg o_max).
  induction history as [|o history IH]; intros r Hr; simpl; [done|].
  apply IH. by destruct o.
Qed.

(** X7. [getTtl] on a cache configured with [options.ttlConfig = cfg],
    for a method name that is not a member name of [Object.prototype]:
    a non-zero TTL given by the caller for the method is used; a TTL of
    0 given by the caller is ignored in favour of the default entry
    (the caller's ["default"], else 5000); a method the caller does not
    list gets the built-in TTL if it has one and the default entry
    otherwise. *)
Theorem getTtl_override_and_fallback cfg o_max (history : list (RpcCache.op (V:=V))) method :
  JsObject.plain method = true ->
  let r := RpcCache.run cfg o_max history in
  let fallback := Some (default 5000 (cfg !! "default")) in
  (∀ n, cfg !! method = Some n -> n ≠ 0 -> RpcCache.getTtl method r = Some n) ∧
  (cfg !! method = Some 0 -> RpcCache.getTtl method r = fallback) ∧
  (cfg !! method = None ->
   RpcCache.getTtl method r =
   match RpcCache.default_ttlConfig !! method with
   | Some builtin => Some builtin
   | None => fallback
   end).
Proof.
  intros _ r fallback.
  assert (Hdef : (cfg ∪ RpcCache.default_ttlConfig) !! "default" = fallback).
  { subst fallback. rewrite lookup_union.
    destruct (cfg !! "default") as [d|]; simpl; [by rewrite union_Some_l|].
    by rewrite (left_id None _). }
  unfold RpcCache.getTtl. subst r. rewrite rpc_run_ttlConfig, Hdef.
  split_and!.
  - intros n Hn Hnz. rewrite (lookup_union_Some_l _ _ _ _ Hn). simpl.
    by assert ((n =? 0) = false) as -> by (by apply N.eqb_neq).
  - intros Hn. by rewrite (lookup_union_Some_l _ _ _ _ Hn).
  - intros Hn. rewrite (lookup_union_r _ _ _ Hn).
    destruct (RpcCache.default_ttlConfig !! method) as [b|] eqn:Hb; [|done].
    assert (Hb0 : b ≠ 0).
    { intros ->. unfold RpcCache.default_ttlConfig in Hb.
      apply elem_of_list_to_map_2 in Hb.
      repeat (apply elem_of_cons in Hb as [Hb|Hb]; [by simplify_eq|]).
      by apply elem_of_nil in Hb. }
    simpl. by assert ((b =? 0) = false) as -> by (by apply N.eqb_neq).
Qed.

(** Keys of different colon-free methods never coincide. *)
Lemma createKey_methods_disjoint m1 m2 params1 params2 :
  RpcCache.colon_free m1 = true -> RpcCache.colon_free m2 = true -> m1 ≠ m2 ->
  RpcCache.createKey m1 params1 ≠ RpcCache.createKey m2 params2.
Proof.
  intros H1 H2 Hne Heq. apply Hne.
  pose proof (createKey_prefix m1 params1) as Hp. rewrite Heq in Hp.
  unfold RpcCache.createKey in Hp. by eapply prefix_method_inj.
Qed.

(** X8. Entries of different methods do not interfere: for distinct
    colon-free method names, the two cache keys differ whatever the
    parameters, and a [set] for one method in a cache below capacity
    leaves the entry of the other method as it was. *)
Theorem set_keeps_other_methods now m1 m2 params1 params2 (v : V) r :
  RpcCache.colon_free m1 = true -> RpcCache.colon_free m2 = true -> m1 ≠ m2 ->
  RpcCache.createKey m1 params1 ≠ RpcCache.createKey m2 params2 ∧
  (MemoryCache.map_size (MemoryCache.cache (RpcCache.cache r)) <
     MemoryCache.maxSize (RpcCache.cache r) ->
   RpcCache.entry (RpcCache.createKey m2 params2) (RpcCache.set now m1 params1 v r) =
   RpcCache.entry (RpcCache.createKey m2 params2) r).
Proof.
  intros H1 H2 Hne.
  pose proof (createKey_methods_disjoint m1 m2 params1 params2 H1 H2 Hne) as Hkeys.
  split; [done|]. intros Hbelow.
  unfold RpcCache.entry, RpcCache.set. cbn [RpcCache.cache].
  rewrite set_below_capacity by done. cbn [MemoryCache.cache]. by rewrite map_get_set_ne.
Qed.

Lemma invalidate_cache_ok method r :
  cache_ok (RpcCache.cache r) -> cache_ok (RpcCache.cache (RpcCache.invalidate method r)).
Proof. apply (rpc_run_op_ok (RpcCache.OpInvalidate method)). Qed.

Lemma invalidate_stats method r :
  MemoryCache.stats (RpcCache.cache (RpcCache.invalidate method r)) =
  MemoryCache.stats (RpcCache.cache r).
Proof.
  unfold RpcCache.invalidate; simpl.
  generalize (RpcCache.keysToDelete method (MemoryCache.cache (RpcCache.cache r))).
  intros keys. generalize (RpcCache.cache r).
  induction keys as [|key keys IH]; intros c; simpl; [done|]. by rewrite IH.
Qed.

(** X9. [invalidate(method)] is idempotent and touches no counter: in
    a cache built by the constructor and any history, invalidating a
    method a second time changes nothing, and the statistics after an
    invalidation are those before it. *)
Theorem invalidate_idempotent cfg o_max (history : list (RpcCache.op (V:=V))) method :
  let r := RpcCache.run cfg o_max history in
  RpcCache.invalidate method (RpcCache.invalidate method r) = RpcCache.invalidate method r ∧
  MemoryCache.stats (RpcCache.cache (RpcCache.invalidate method r)) =
    MemoryCache.stats (RpcCache.cache r).
Proof.
  intros r. split; [|apply invalidate_stats].
  pose proof (rpc_run_ok cfg o_max history) as Hok. fold r in Hok.
  pose proof Hok as (_ & _ & Hnd & _).
  assert (Hnone : RpcCache.keysToDelete method
                    (MemoryCache.cache (RpcCache.cache (RpcCache.invalidate method r))) = []).
  { unfold RpcCache.keysToDelete.
    destruct (filter _ _) as [|k ks] eqn:Hf; [done|]. exfalso.
    assert (Hin : k ∈ filter (fun key => String.prefix (method +:+ ":") key = true)
                         (map fst (MemoryCache.cache
                                     (RpcCache.cache (RpcCache.invalidate method r)))))
      by (rewrite Hf; left).
    apply list_elem_of_filter in Hin as [Hp Hk].
    pose proof (invalidate_entry method r k Hnd) as He. rewrite Hp in He.
    by apply map_get_None_keys in He. }
  revert Hnone. generalize (RpcCache.invalidate method r). intros r' Hnone.
  unfold RpcCache.invalidate. rewrite Hnone. simpl. by destruct r'.
Qed.

(** *** The cache controller *)

Lemma fold_invalidate_entry (methods : list string) r k :
  cache_ok (RpcCache.cache r) ->
  cache_ok (RpcCache.cache (fold_left (fun r m => RpcCache.invalidate m r) methods r)) ∧
  RpcCache.entry k (fold_left (fun r m => RpcCache.invalidate m r) methods r) =
  if existsb (fun m => String.prefix (m +:+ ":") k) methods then None else RpcCache.entry k r.
Proof.
  revert r. induction methods as [|m methods IH]; intros r Hok; simpl; [done|].
  destruct (IH (RpcCache.invalidate m r)) as [Hok' ->]; [by apply invalidate_cache_ok|].
  split; [done|].
  destruct Hok as (_ & _ & Hnd & _). rewrite invalidate_entry by done.
  destruct (String.prefix (m +:+ ":") k); simpl; [|done].
  by destruct (existsb _ _).
Qed.

(** X10. The controller's [clearCache] without a method, answered with
    "All cache cleared", removes exactly the entries of its six listed
    methods: the entries of those methods are gone, and the entry of
    any other colon-free method (for instance [getCode] or [call]) is
    still there. *)
Theorem clearCache_all_keeps_unlisted_methods cfg o_max (history : list (RpcCache.op (V:=V)))
    method params :
  RpcCache.colon_free method = true ->
  let r := RpcCache.run cfg o_max history in
  RpcCache.entry (RpcCache.createKey method params) (CacheClients.clearCache None r) =
  if bool_decide (method ∈ CacheClients.clearCache_methods) then None
  else RpcCache.entry (RpcCache.createKey method params) r.
Proof.
  intros Hcf r. unfold CacheClients.clearCache. simpl Js.truthyS. cbv iota.
  destruct (fold_invalidate_entry CacheClients.clearCache_methods r
              (RpcCache.createKey method params) (rpc_run_ok cfg o_max history)) as [_ ->].
  assert (Hiff : existsb (fun m => String.prefix (m +:+ ":") (RpcCache.createKey method params))
                         CacheClients.clearCache_methods = true <->
                 method ∈ CacheClients.clearCache_methods).
  { rewrite existsb_exists. split.
    - intros (m & Hm & Hp). apply list_elem_of_In in Hm.
      assert (m = method) as <-; [|done].
      unfold RpcCache.createKey in Hp. eapply prefix_method_inj; [|exact Hcf|exact Hp].
      unfold CacheClients.clearCache_methods in Hm.
      repeat (apply elem_of_cons in Hm as [->|Hm]; [done|]).
      by apply elem_of_nil in Hm.
    - intros Hm. exists method. split; [by apply list_elem_of_In | apply createKey_prefix]. }
  case_bool_decide as Hm.
  - by rewrite (proj2 Hiff Hm).
  - destruct (existsb _ _); [|done]. exfalso. by apply Hm, Hiff.
Qed.

End RpcMore.

Section ProviderFacts.
Context {V E : Type}.

Lemma sendRpcRequest_hit now1 now2 method params (call : NetworkQueue.outcome V E)
    (r : RpcCache.t V) v :
  (RpcCache.get now1 method params r).1 = Some v ->
  CacheClients.sendRpcRequest now1 now2 method params call r =
  (NetworkQueue.Returned v, (RpcCache.get now1 method params r).2, false).
Proof. intros H. unfold CacheClients.sendRpcRequest. cbv zeta. by rewrite H. Qed.

Lemma sendRpcRequest_miss now1 now2 method params (call : NetworkQueue.outcome V E)
    (r : RpcCache.t V) :
  (RpcCache.get now1 method params r).1 = None ->
  CacheClients.sendRpcRequest now1 now2 method params call r =
  match call with
  | NetworkQueue.Returned result =>
      (NetworkQueue.Returned result,
       RpcCache.set now2 method params result (RpcCache.get now1 method params r).2, true)
  | NetworkQueue.Thrown error =>
      (NetworkQueue.Thrown error, (RpcCache.get now1 method params r).2, true)
  end.
Proof. intros H. unfold CacheClients.sendRpcRequest. cbv zeta. by rewrite H. Qed.

(** X11. [_sendRpcRequest] in a cache built by the constructor and any
    history, for a method name that is not a member name of
    [Object.prototype].  If the lookup misses and the provider answers, the answer
    is returned and stored, and the same request repeated no later than
    [ttl] after the store (the method's non-zero TTL) returns it again
    without calling the provider.  If the lookup misses and the
    provider throws, the error is passed on and nothing is stored under
    the key. *)
Theorem sendRpcRequest_caches_answers_only cfg o_max (history : list (RpcCache.op (V:=V)))
    now1 now2 method params :
  JsObject.plain method = true ->
  let r := RpcCache.run cfg o_max history in
  (RpcCache.get now1 method params r).1 = None ->
  (∀ (v : V) ttl t t' (call : NetworkQueue.outcome V E),
     RpcCache.getTtl method r = Some ttl -> ttl ≠ 0 -> t <= now2 + ttl ->
     let first := CacheClients.sendRpcRequest (E:=E) now1 now2 method params
                    (NetworkQueue.Returned v) r in
     first.1.1 = NetworkQueue.Returned v ∧ first.2 = true ∧
     (CacheClients.sendRpcRequest t t' method params call first.1.2).1.1 =
       NetworkQueue.Returned v ∧
     (CacheClients.sendRpcRequest t t' method params call first.1.2).2 = false) ∧
  (∀ (e : E),
     let failed := CacheClients.sendRpcRequest now1 now2 method params
                     (NetworkQueue.Thrown e) r in
     failed.1.1 = NetworkQueue.Thrown e ∧
     RpcCache.entry (RpcCache.createKey method params) failed.1.2 = None).
Proof.
  intros _ r Hmiss. split.
  - intros v ttl t t' call Httl Hnz Ht first.
    subst first. rewrite (sendRpcRequest_miss _ _ _ _ _ _ Hmiss). cbn [fst snd].
    assert (Hhit : (RpcCache.get t method params
                      (RpcCache.set now2 method params v
                         (RpcCache.get now1 method params r).2)).1 = Some v).
    { rewrite rpc_get_after_set.
      assert (Httl' : RpcCache.getTtl method (RpcCache.get now1 method params r).2 = Some ttl)
        by exact Httl.
      rewrite Httl'. simpl.
      assert ((ttl =? 0) = false) as -> by (by apply N.eqb_neq). simpl.
      assert ((now2 + ttl <? t) = false) as -> by (apply N.ltb_ge; lia).
      by rewrite andb_false_r. }
    rewrite (sendRpcRequest_hit _ _ _ _ _ _ _ Hhit). by split_and!.
  - intros e failed. subst failed. rewrite (sendRpcRequest_miss _ _ _ _ _ _ Hmiss).
    cbn [fst snd]. split; [done|].
    pose proof (rpc_run_ok cfg o_max history) as (_ & _ & Hnd & _). fold r in Hnd.
    revert Hmiss. unfold RpcCache.entry, RpcCache.get, MemoryCache.get. simpl.
    destruct (MemoryCache.map_get _ _) as [item|] eqn:Hg; [|by intros _].
    destruct (negb _ && _); cbn [fst snd MemoryCache.cache]; [|done].
    intros _. by apply map_get_delete_eq.
Qed.

End ProviderFacts.

(** ** The subscription hub: broadcasts, repeated subscriptions, limiter slots *)

Section HubMore.
Implicit Types (a : Hub.Registry) (t : Hub.topic) (conn : Hub.Connection) (st : Hub.State).

Lemma size_pos_elem (s : gset string) : (0 < size s)%nat <-> ∃ id, id ∈ s.
Proof.
  split.
  - intros Hs. apply size_pos_elem_of in Hs. by destruct Hs as [x Hx]; exists x.
  - intros [id Hid]. destruct (decide (size s = 0%nat)) as [He|]; [|lia].
    apply size_empty_inv in He. exfalso. by apply (not_elem_of_empty (C:=gset string) id), He.
Qed.

(** X12. [broadcastTransactionUpdate] in any reachable state of the
    hub: it returns [true] exactly when the transaction has at least
    one subscriber, and the sockets it addresses are exactly the live
    connections that list the transaction in their reverse index; a
    socket that unsubscribed or disconnected is never addressed. *)
Theorem broadcastTransactionUpdate_addresses_subscribers (inputs : list Hub.input) txHash :
  let st := Hub.run inputs in
  let res := Broadcast.broadcastTransactionUpdate txHash (Hub.activeSubscriptions st) in
  (res.1 = true <->
   ∃ id conn, Hub.sockets st !! id = Some conn ∧
              txHash ∈ Hub.my_pendingTxs (Hub.clientSubscriptions conn)) ∧
  (∀ id, (∃ s, res.2 = Some s ∧ id ∈ s) <->
         ∃ conn, Hub.sockets st !! id = Some conn ∧
                 txHash ∈ Hub.my_pendingTxs (Hub.clientSubscriptions conn)).
Proof.
  intros st res.
  destruct (hub_run_ok inputs) as [Hmem _]. fold st in Hmem.
  assert (Hm : ∀ id, id ∈ Hub.members Hub.PendingTxs txHash (Hub.activeSubscriptions st) <->
                     ∃ conn, Hub.sockets st !! id = Some conn ∧
                             txHash ∈ Hub.my_pendingTxs (Hub.clientSubscriptions conn))
    by (intros id; apply (Hmem Hub.PendingTxs txHash id)).
  subst res. unfold Broadcast.broadcastTransactionUpdate.
  unfold Hub.members in Hm. simpl in Hm.
  destruct (Hub.pendingTxs (Hub.activeSubscriptions st) !! txHash) as [s|]; simpl in *.
  - destruct (decide (0 < size s)%nat) as [Hpos|Hzero]; simpl.
    + split.
      * split; [|done]. intros _. apply size_pos_elem in Hpos as [id Hid].
        exists id. by apply Hm.
      * intros id. rewrite <- Hm. split; [by intros (s' & [= <-] & ?) | by exists s].
    + assert (Hnone : ∀ id, id ∉ s).
      { intros id Hid. apply Hzero, size_pos_elem. by exists id. }
      split.
      * split; [done|]. intros (id & conn & Hc). exfalso. apply (Hnone id), Hm. by exists conn.
      * intros id. split; [by intros (s' & ? & ?)|].
        intros Hc. exfalso. by apply (Hnone id), Hm.
  - split.
    + split; [done|]. intros (id & conn & Hc). exfalso.
      apply (not_elem_of_empty (C:=gset string) id), Hm. by exists conn.
    + intros id. split; [by intros (s' & ? & ?)|].
      intros Hc. exfalso. by apply (not_elem_of_empty (C:=gset string) id), Hm.
Qed.

(** X13. [broadcastBalanceUpdate] when the balance query settles after
    further hub traffic [later]: the sockets addressed are exactly the
    subscribers at settle time, that is the connections then live that
    list the address, and not those at call time; if the registry key
    has been deleted meanwhile (the last subscriber disconnected) or the
    query failed, the result is [false] and nothing is emitted. *)
Theorem broadcastBalanceUpdate_reads_registry_at_settle {B E : Type}
    (inputs later : list Hub.input) address (p : NetworkQueue.promise B E) :
  let st := Hub.run inputs in
  let st' := Hub.run (inputs ++ later) in
  let res := Broadcast.broadcastBalanceUpdate address (Hub.activeSubscriptions st) p
               (Hub.activeSubscriptions st') in
  (∀ id, (∃ s, res.2 = Some s ∧ id ∈ s) <->
         res.1 = true ∧
         ∃ conn, Hub.sockets st' !! id = Some conn ∧
                 address ∈ Hub.my_balances (Hub.clientSubscriptions conn)) ∧
  (res.1 = true <->
   (∃ id, id ∈ Hub.members Hub.Balances address (Hub.activeSubscriptions st)) ∧
   (∃ b, p = NetworkQueue.Resolved b) ∧
   is_Some (Hub.balances (Hub.activeSubscriptions st') !! address)) ∧
  (res.1 = false -> res.2 = None).
Proof.
  intros st st' res.
  destruct (hub_run_ok (inputs ++ later)) as [Hmem' _]. fold st' in Hmem'.
  subst res. unfold Broadcast.broadcastBalanceUpdate, Hub.members. simpl.
  destruct (Hub.balances (Hub.activeSubscriptions st) !! address) as [s|]; simpl.
  - destruct (decide (0 < size s)%nat) as [Hpos|Hzero]; simpl.
    + destruct p as [b|e]; simpl.
      * destruct (Hub.balances (Hub.activeSubscriptions st') !! address) as [s'|] eqn:Hs'; simpl.
        -- assert (Hm : ∀ id, id ∈ s' <->
                          ∃ conn, Hub.sockets st' !! id = Some conn ∧
                                  address ∈ Hub.my_balances (Hub.clientSubscriptions conn)).
           { intros id. rewrite <- (Hmem' Hub.Balances address id).
             unfold Hub.members. simpl. by rewrite Hs'. }
           split_and!.
           ++ intros id. rewrite <- Hm. split.
              ** by intros (s0 & [= <-] & Hid).
              ** intros [_ Hid]. by exists s'.
           ++ split; [|done]. intros _. split_and!; [by apply size_pos_elem | by exists b | done].
           ++ done.
        -- split_and!; [intros id; split; [by intros (s0 & ? & ?) | by intros [? _]] | | done].
           split; [done|]. by intros (_ & _ & [? ?]).
      * split_and!; [intros id; split; [by intros (s0 & ? & ?) | by intros [? _]] | | done].
        split; [done|]. by intros (_ & [b ?] & _).
    + split_and!; [intros id; split; [by intros (s0 & ? & ?) | by intros [? _]] | | done].
      split; [done|]. intros (Hex & _). exfalso. by apply Hzero, size_pos_elem.
  - split_and!; [intros id; split; [by intros (s0 & ? & ?) | by intros [? _]] | | done].
    split; [done|]. intros ([id Hid] & _). by apply not_elem_of_empty in Hid.
Qed.

(** X24. The self-cancelling guard of the block listener and of the
    gas-price timer, in any reachable state of the hub: the producer of
    a network key stops itself exactly when no live connection lists
    that key for the topic, be it because the last subscriber
    unsubscribed (the set is empty) or disconnected (the key is gone);
    with a subscriber left it goes on. *)
Theorem producer_stops_iff_no_subscriber (inputs : list Hub.input) t networkKey :
  let st := Hub.run inputs in
  Broadcast.producer_stops t networkKey (Hub.activeSubscriptions st) = true <->
  ¬ ∃ id conn, Hub.sockets st !! id = Some conn ∧
               networkKey ∈ Hub.keys_of t (Hub.clientSubscriptions conn).
Proof.
  intros st. destruct (hub_run_ok inputs) as [Hmem _]. fold st in Hmem.
  assert (Hm : ∀ id, id ∈ Hub.members t networkKey (Hub.activeSubscriptions st) <->
                     ∃ conn, Hub.sockets st !! id = Some conn ∧
                             networkKey ∈ Hub.keys_of t (Hub.clientSubscriptions conn))
    by (intros id; apply Hmem).
  unfold Broadcast.producer_stops. unfold Hub.members in Hm.
  destruct (Hub.subs_of t (Hub.activeSubscriptions st) !! networkKey) as [s|]; simpl in Hm.
  - rewrite bool_decide_eq_true. split.
    + intros Hz (id & conn & Hc).
      assert (Hid : id ∈ s) by (apply Hm; by exists conn).
      assert (Hpos : (0 < size s)%nat) by (apply size_pos_elem; by exists id). lia.
    + intros Hnone. destruct (decide (size s = 0%nat)) as [|Hnz]; [done|]. exfalso.
      assert (Hpos : (0 < size s)%nat) by lia.
      apply size_pos_elem in Hpos as [id Hid]. apply Hnone.
      apply Hm in Hid as [conn Hc]. by exists id, conn.
  - split; [|done]. intros _ (id & conn & Hc).
    apply (not_elem_of_empty (C:=gset string) id), Hm. by exists conn.
Qed.

(** *** Repeated subscriptions *)

Lemma with_subs_same t a : Hub.with_subs t (Hub.subs_of t a) a = a.
Proof. by destruct t, a. Qed.

Lemma with_keys_same t (c : Hub.ClientSubs) : Hub.with_keys t (Hub.keys_of t c) c = c.
Proof. by destruct t, c. Qed.

(** A request for a (topic, key) the client is registered for. *)
Lemma subscribe_again t key network networkType now id a conn :
  id ∈ Hub.members t key a ->
  key ∈ Hub.keys_of t (Hub.clientSubscriptions conn) ->
  (Hub.isRateLimited now id (Hub.event_name t) (Hub.requestLimiter conn)).1 = false ->
  let res := Hub.subscribe t key network networkType now id a conn in
  res.1.1 = a ∧ Hub.clientSubscriptions res.1.2 = Hub.clientSubscriptions conn ∧
  res.2 = Hub.initial_fetch t network networkType.
Proof.
  intros Hin Hkey Hlim res. subst res. unfold Hub.subscribe. rewrite Hlim.
  unfold Hub.members in Hin.
  destruct (Hub.subs_of t a !! key) as [s|] eqn:Hs; simpl in Hin;
    [|by apply not_elem_of_empty in Hin].
  assert (Hab : Hub.absent t key a = false).
  { unfold Hub.absent. by rewrite (read_Some _ _ _ Hs). }
  unfold Hub.create_set. rewrite Hab. unfold Hub.register. rewrite (read_Some _ _ _ Hs).
  cbn [fst snd Hub.clientSubscriptions].
  replace (s ∪ {[id]}) with s by set_solver.
  replace (Hub.keys_of t (Hub.clientSubscriptions conn) ∪ {[key]})
    with (Hub.keys_of t (Hub.clientSubscriptions conn)) by set_solver.
  by rewrite (insert_id _ _ _ Hs), with_subs_same, with_keys_same.
Qed.

(** X14. Subscribing again to a (topic, key) changes neither the
    registry nor the reverse index and repeats no one-time set-up:
    when the first [subscribe] was answered without an ['error'] event
    and the second passes the rate limiter, the registries after the
    second are those after the first, and all the second does is the
    initial query of the topic. *)
Theorem subscribe_twice_same_registries t key network networkType now1 now2 id a conn :
  let r1 := Hub.subscribe t key network networkType now1 id a conn in
  let r2 := Hub.subscribe t key network networkType now2 id r1.1.1 r1.1.2 in
  (∀ message, Hub.EmitError id message ∉ r1.2) ->
  (Hub.isRateLimited now2 id (Hub.event_name t) (Hub.requestLimiter r1.1.2)).1 = false ->
  r2.1.1 = r1.1.1 ∧ Hub.clientSubscriptions r2.1.2 = Hub.clientSubscriptions r1.1.2 ∧
  r2.2 = Hub.initial_fetch t network networkType.
Proof.
  intros r1 r2 Hquiet Hlim.
  destruct (subscribe_cases t key network networkType now1 id a conn)
    as [_ [(_ & _ & _ & Herr)|[(_ & _ & _ & Herr)|(_ & reg & Hreg & H1 & H2 & _)]]];
    fold r1 in Herr || fold r1 in H1, H2.
  - exfalso. apply (Hquiet Hub.rate_limit_message). rewrite Herr. by left.
  - exfalso. by apply (Hquiet (Hub.failure_message t)).
  - apply subscribe_again; [| |done].
    + rewrite H1, (register_members _ _ _ _ _ _ _ _ Hreg), decide_True by done. set_solver.
    + rewrite H2, (register_keys _ _ _ _ _ _ _ Hreg), decide_True by done. set_solver.
Qed.

(** *** Limiter slots *)

Lemma isRateLimited_bounded now id ev (rl : Hub.RequestLimiter) :
  (∀ slot l, Hub.requests rl !! slot = Some l -> (length l <= Hub.maxRequests rl)%nat) ->
  ∀ slot l, Hub.requests (Hub.isRateLimited now id ev rl).2 !! slot = Some l ->
            (length l <= Hub.maxRequests (Hub.isRateLimited now id ev rl).2)%nat.
Proof.
  intros Hb slot l. unfold Hub.isRateLimited.
  set (key := id +:+ ":" +:+ ev).
  set (recent := filter _ _).
  assert (Hrecent : (length recent <= Hub.maxRequests rl)%nat).
  { subst recent. etrans; [apply length_filter|].
    destruct (Hub.requests rl !! key) as [l0|] eqn:Hl0; simpl; [by eapply Hb | lia]. }
  destruct (Nat.leb_spec (Hub.maxRequests rl) (length recent)) as [Hfull|Hfree]; simpl.
  - intros [[_ <-]|[_ Hl]]%lookup_insert_Some; [done | by eapply Hb].
  - intros [[_ <-]|[_ Hl]]%lookup_insert_Some; [|by eapply Hb].
    rewrite length_app. simpl. lia.
Qed.

Lemma limiter_bounded_step i st : limiter_bounded st -> limiter_bounded (Hub.step i st).1.
Proof.
  intros Hb. unfold limiter_bounded. destruct i as [id | now id msg | id]; simpl.
  - destruct (Hub.sockets st !! id) eqn:Hc; simpl; [done|].
    intros id' conn' slot l [[<- <-]|[_ Hc']]%lookup_insert_Some; simpl.
    + by rewrite lookup_empty.
    + by eapply Hb.
  - destruct (Hub.sockets st !! id) as [conn|] eqn:Hc; simpl; [|done].
    intros id' conn' slot l [[<- <-]|[_ Hc']]%lookup_insert_Some; [|by eapply Hb].
    assert (Hconn : ∀ slot l, Hub.requests (Hub.requestLimiter conn) !! slot = Some l ->
                              (length l <= Hub.maxRequests (Hub.requestLimiter conn))%nat)
      by (intros ? ?; by eapply Hb).
    revert slot l.
    destruct msg; cbn [Hub.handle fst snd];
      first [ rewrite (proj1 (subscribe_cases _ _ _ _ _ _ _ _));
              by apply isRateLimited_bounded
            | rewrite unsubscribe_params; apply Hconn ].
  - destruct (Hub.sockets st !! id) as [conn|] eqn:Hc; simpl; [|done].
    intros id' conn' slot l [_ Hc']%lookup_delete_Some. by eapply Hb.
Qed.

Lemma limiter_bounded_run (inputs : list Hub.input) : limiter_bounded (Hub.run inputs).
Proof.
  unfold Hub.run.
  assert (H0 : limiter_bounded Hub.init)
    by (intros ? ? ? ? Hi; simpl in Hi; by rewrite lookup_empty in Hi).
  revert H0. generalize Hub.init.
  induction inputs as [|i inputs IH]; intros st Hst; simpl; [done|].
  apply IH. by apply limiter_bounded_step.
Qed.

(** X15. In every reachable state of the hub, no rate-limit slot of a
    live connection holds more than 60 timestamps: rejected requests are
    not recorded and older entries are purged before a new one is
    added, so the memory per (client, event type) is bounded. *)
Theorem limiter_slot_never_exceeds_limit (inputs : list Hub.input) id conn slot l :
  Hub.sockets (Hub.run inputs) !! id = Some conn ->
  Hub.requests (Hub.requestLimiter conn) !! slot = Some l ->
  (length l <= 60)%nat.
Proof.
  intros Hc Hl.
  destruct (hub_run_ok inputs) as [_ Hpar]. destruct (Hpar _ _ Hc) as [_ Hmax].
  rewrite <- Hmax. by eapply (limiter_bounded_run inputs).
Qed.

Lemma append_inv_head (s a b : string) : s +:+ a = s +:+ b -> a = b.
Proof.
  induction s as [|c s IH]; rewrite ?append_cons, ?append_nil_l; [done|].
  intros [= H]. by apply IH.
Qed.

Lemma event_name_inj t t' : Hub.event_name t = Hub.event_name t' -> t = t'.
Proof. by destruct t, t'. Qed.

(** X16. The four rate-limited events have separate quotas: a
    [subscribe] on one topic, accepted or rejected, leaves the slot of
    every other topic as it was, and so does not change the verdict of
    the limiter for a later request of another event type. *)
Theorem rate_limit_slots_are_separate t t' key network networkType now now' id a conn :
  t ≠ t' ->
  let conn' := (Hub.subscribe t key network networkType now id a conn).1.2 in
  Hub.requests (Hub.requestLimiter conn') !! (id +:+ ":" +:+ Hub.event_name t') =
    Hub.requests (Hub.requestLimiter conn) !! (id +:+ ":" +:+ Hub.event_name t') ∧
  (Hub.isRateLimited now' id (Hub.event_name t') (Hub.requestLimiter conn')).1 =
    (Hub.isRateLimited now' id (Hub.event_name t') (Hub.requestLimiter conn)).1.
Proof.
  intros Hne conn'.
  assert (Hslot : id +:+ ":" +:+ Hub.event_name t ≠ id +:+ ":" +:+ Hub.event_name t').
  { intros Heq. apply Hne. apply event_name_inj.
    apply (append_inv_head ":"), (append_inv_head id), Heq. }
  assert (Hreq : Hub.requests (Hub.requestLimiter conn') !! (id +:+ ":" +:+ Hub.event_name t') =
                 Hub.requests (Hub.requestLimiter conn) !! (id +:+ ":" +:+ Hub.event_name t')).
  { subst conn'. rewrite (proj1 (subscribe_cases _ _ _ _ _ _ _ _)).
    assert (Hrl : Hub.requests (Hub.isRateLimited now id (Hub.event_name t)
                                  (Hub.requestLimiter conn)).2
                    !! (id +:+ ":" +:+ Hub.event_name t') =
                  Hub.requests (Hub.requestLimiter conn) !! (id +:+ ":" +:+ Hub.event_name t')).
    { unfold Hub.isRateLimited. destruct (_ <=? _)%nat; simpl; by rewrite lookup_insert_ne. }
    exact Hrl. }
  split; [exact Hreq|].
  destruct (subscribe_params t key network networkType now id a conn) as [Hw Hm].
  fold conn' in Hw, Hm.
  unfold Hub.isRateLimited. rewrite Hreq, Hw, Hm. by destruct (_ <=? _)%nat.
Qed.

(** *** The failure paths of the subscribe handlers *)




Lemma cleaned_is_Some id (o : option (gset string)) : is_Some (cleaned id o) -> is_Some o.
Proof. destruct o; [eauto | by intros [? ?]]. Qed.

Lemma keys_plain_step i st :
  keys_plain (Hub.activeSubscriptions st) ->
  keys_plain (Hub.activeSubscriptions (Hub.step i st).1).
Proof.
  intros Hp. destruct i as [id | now id msg | id]; simpl.
  - by destruct (Hub.sockets st !! id).
  - destruct (Hub.sockets st !! id) as [conn|]; simpl; [|done].
    assert (Hcreate : ∀ t key, keys_plain (Hub.create_set t key (Hub.activeSubscriptions st))).
    { intros t key t' key'. rewrite create_set_lookup. case_decide as H; [|apply Hp].
      destruct H as (_ & -> & Hab). intros _. by apply absent_plain in Hab as [_ ?]. }
    assert (Hsub : ∀ t key network networkType,
      keys_plain (Hub.subscribe t key network networkType now id
                    (Hub.activeSubscriptions st) conn).1.1).
    { intros t key network networkType.
      destruct (subscribe_cases t key network networkType now id
                  (Hub.activeSubscriptions st) conn)
        as [_ [(_ & -> & _)|[(_ & -> & _)|(_ & reg & Hreg & -> & _)]]];
        [done | apply Hcreate |].
      intros t' key'. rewrite (register_lookup _ _ _ _ _ _ _ _ Hreg).
      case_decide as H; [|apply Hcreate]. destruct H as [-> ->]. intros _.
      apply (Hcreate t key t key). apply (register_Some t key id _ (Hub.clientSubscriptions conn)).
      by rewrite Hreg. }
    assert (Hunsub : ∀ t key,
      keys_plain (Hub.unsubscribe t key id (Hub.activeSubscriptions st) conn).1.1).
    { intros t key t' key'. rewrite unsubscribe_lookup. case_decide as H; [|apply Hp].
      destruct H as [-> ->]. rewrite fmap_is_Some. apply Hp. }
    destruct msg; simpl; first [apply Hsub | apply Hunsub].
  - destruct (Hub.sockets st !! id) as [conn|]; simpl; [|done].
    intros t key. rewrite disconnect_lookup. case_decide; [|apply Hp].
    intros Hsome%cleaned_is_Some. by apply (Hp t key).
Qed.

Lemma keys_plain_run (inputs : list Hub.input) :
  keys_plain (Hub.activeSubscriptions (Hub.run inputs)).
Proof.
  unfold Hub.run.
  assert (H0 : keys_plain (Hub.activeSubscriptions Hub.init)).
  { intros t key. destruct t; simpl; rewrite lookup_empty; by intros [? ?]. }
  revert H0. generalize Hub.init.
  induction inputs as [|i inputs IH]; intros st Hst; simpl; [done|].
  apply IH. by apply keys_plain_step.
Qed.

(** X27. A key that names a member of [Object.prototype] (such as
    ["constructor"] sent as address or transaction hash) can not be
    subscribed to, in any reachable state of the hub: the registries
    never hold it as own property; a [subscribe] that passes the rate
    limiter ends in the [catch] of its handler, with the ['error']
    event and no change to the registry or the reverse index; an
    [unsubscribe] throws out of its handler and changes nothing. *)
Theorem prototype_member_names_never_subscribe (inputs : list Hub.input)
    t key network networkType now id conn :
  JsObject.plain key = false ->
  let a := Hub.activeSubscriptions (Hub.run inputs) in
  Hub.subs_of t a !! key = None ∧
  ((Hub.isRateLimited now id (Hub.event_name t) (Hub.requestLimiter conn)).1 = false ->
   let res := Hub.subscribe t key network networkType now id a conn in
   res.1.1 = a ∧ Hub.clientSubscriptions res.1.2 = Hub.clientSubscriptions conn ∧
   res.2 = [Hub.EmitError id (Hub.failure_message t)]) ∧
  Hub.unsubscribe t key id a conn = (a, conn, [Hub.Uncaught id]).
Proof.
  intros Hplain a.
  assert (Hnone : Hub.subs_of t a !! key = None).
  { destruct (Hub.subs_of t a !! key) as [s|] eqn:Hs; [|done].
    pose proof (keys_plain_run inputs t key) as Hp. fold a in Hp.
    rewrite Hs in Hp. rewrite Hp in Hplain by eauto. done. }
  assert (Hread : Hub.read (Hub.subs_of t a) key = Hub.Member).
  { unfold Hub.read. by rewrite Hnone, Hplain. }
  split_and!; [done | |].
  - intros Hlim res. subst res. unfold Hub.subscribe. rewrite Hlim.
    unfold Hub.create_set, Hub.absent, Hub.register. rewrite Hread. by rewrite Hread.
  - unfold Hub.unsubscribe. by rewrite Hread.
Qed.

End HubMore.

(** ** Connection admission *)

Section AdmissionFacts.
Implicit Types (st : Admission.State) (l : list string).

Lemma occurrences_cons ip ip0 l :
  Admission.occurrences ip (ip0 :: l) =
  Admission.occurrences ip l + (if String.eqb ip ip0 then 1 else 0).
Proof.
  unfold Admission.occurrences. simpl. destruct (String.eqb ip ip0); simpl; lia.
Qed.

Lemma occurrences_remove_one ip ip0 l :
  ip0 ∈ l ->
  Admission.occurrences ip (Admission.remove_one ip0 l) + (if String.eqb ip ip0 then 1 else 0) =
  Admission.occurrences ip l.
Proof.
  induction l as [|x l IH]; [by intros ?%elem_of_nil|].
  intros Hin. simpl. destruct (String.eqb_spec ip0 x) as [->|Hne].
  - by rewrite occurrences_cons.
  - rewrite !occurrences_cons. apply elem_of_cons in Hin as [?|Hin]; [done|].
    specialize (IH Hin). lia.
Qed.

Lemma occurrences_pos ip l : ip ∈ l -> 1 <= Admission.occurrences ip l.
Proof.
  induction l as [|x l IH]; [by intros ?%elem_of_nil|].
  rewrite occurrences_cons. intros [->|Hin]%elem_of_cons.
  - rewrite String.eqb_refl. lia.
  - specialize (IH Hin). lia.
Qed.

Lemma counter_insert ip ip0 n (conns : gmap string N) opened :
  Admission.counter ip (Admission.mkState (<[ip0 := n]> conns) opened) =
  if String.eqb ip ip0 then n else default 0 (conns !! ip).
Proof.
  unfold Admission.counter. simpl. destruct (String.eqb_spec ip ip0) as [->|Hne].
  - by rewrite lookup_insert_eq.
  - by rewrite lookup_insert_ne.
Qed.

Lemma counter_on_disconnect ip ip0 (conns : gmap string N) :
  1 <= default 0 (conns !! ip0) ->
  default 0 (Admission.on_disconnect ip0 conns !! ip) + (if String.eqb ip ip0 then 1 else 0) =
  default 0 (conns !! ip).
Proof.
  intros Hpos. unfold Admission.on_disconnect.
  destruct (conns !! ip0) as [n|] eqn:Hn; simpl in *; [|lia].
  assert ((n =? 0) = false) as -> by (apply N.eqb_neq; lia). simpl.
  destruct (String.eqb_spec ip ip0) as [->|Hne].
  - destruct (N.leb_spec (n - 1) 0).
    + rewrite lookup_delete_eq, Hn. simpl. lia.
    + rewrite lookup_insert_eq, Hn. simpl. lia.
  - destruct (N.leb_spec (n - 1) 0).
    + rewrite lookup_delete_ne by done. lia.
    + rewrite lookup_insert_ne by done. lia.
Qed.

Lemma admission_step_ok i (sr : Admission.State * list string) :
  admission_ok sr ->
  admission_ok
    ((Admission.step i sr.1).2,
     match i, (Admission.step i sr.1).1 with
     | Admission.Handshake ip, Some false => ip :: sr.2
     | _, _ => sr.2
     end).
Proof.
  destruct sr as [st rejected]. intros Hok ip. destruct (Hok ip) as [Hcnt Hlive].
  unfold Admission.counter in Hcnt. simpl in *.
  destruct i as [ip0|ip0]; simpl.
  - unfold Admission.handshake.
    destruct (N.ltb_spec Admission.maxConnectionsPerIP
                (default 0 (Admission.connections st !! ip0) + 1)) as [Hover|Hfits]; simpl.
    + rewrite counter_insert, occurrences_cons.
      destruct (String.eqb_spec ip ip0) as [->|Hne]; split; try done; lia.
    + rewrite counter_insert, occurrences_cons.
      destruct (String.eqb_spec ip ip0) as [->|Hne]; split; try done; lia.
  - case_bool_decide as Hin; simpl; [|done].
    unfold Admission.counter. simpl.
    destruct (Hok ip0) as [Hcnt0 _]. unfold Admission.counter in Hcnt0. simpl in Hcnt0.
    pose proof (occurrences_pos _ _ Hin) as Hpos.
    pose proof (counter_on_disconnect ip ip0 (Admission.connections st)) as Hdec.
    pose proof (occurrences_remove_one ip ip0 _ Hin) as Hrem.
    destruct (String.eqb ip ip0); split; lia.
Qed.

Lemma admission_run_ok (inputs : list Admission.input) : admission_ok (Admission.run inputs).
Proof.
  unfold Admission.run.
  assert (H0 : admission_ok (Admission.init, [])).
  { intros ip. unfold Admission.counter, Admission.occurrences, Admission.maxConnectionsPerIP.
    simpl. rewrite lookup_empty. simpl. lia. }
  revert H0. generalize (Admission.init, @nil string).
  induction inputs as [|i inputs IH]; intros sr Hsr; cbn [fold_left]; [done|].
  apply IH. pose proof (admission_step_ok i sr Hsr) as Hstep.
  destruct i; exact Hstep.
Qed.

(** X17. After any sequence of handshakes and socket closes, for every
    client address that is not a member name of [Object.prototype]: the address has at most 10 open sockets, and its
    entry in [connectionLimits.connections] equals its open sockets
    plus its refused handshakes (a missing entry counting as 0), so a
    refused handshake stays counted after all sockets have closed. *)
Theorem admission_counter_invariant (inputs : list Admission.input) ip :
  JsObject.plain ip = true ->
  let st := (Admission.run inputs).1 in
  let refused := (Admission.run inputs).2 in
  Admission.occurrences ip (Admission.open st) <= 10 ∧
  Admission.counter ip st =
    Admission.occurrences ip (Admission.open st) + Admission.occurrences ip refused.
Proof.
  intros _ st refused. destruct (admission_run_ok inputs ip) as [Hcnt Hlive]. by split.
Qed.

(** X18. A handshake from an address that is not a member name of
    [Object.prototype] is accepted exactly when the address's counter is
    below 10 beforehand; hence an address that has collected 10 refused
    handshakes is refused from then on, even with no socket open. *)
Theorem admission_refuses_after_ten_refusals (inputs : list Admission.input) ip :
  JsObject.plain ip = true ->
  let st := (Admission.run inputs).1 in
  ((Admission.handshake ip st).1 = true <-> Admission.counter ip st < 10) ∧
  (10 <= Admission.occurrences ip (Admission.run inputs).2 ->
   (Admission.handshake ip st).1 = false).
Proof.
  intros _ st.
  assert (Hiff : (Admission.handshake ip st).1 = true <-> Admission.counter ip st < 10).
  { unfold Admission.handshake, Admission.counter, Admission.maxConnectionsPerIP.
    destruct (N.ltb_spec 10 (default 0 (Admission.connections st !! ip) + 1)); simpl;
      split; intros; try done; lia. }
  split; [exact Hiff|]. intros Hrefused.
  destruct (admission_run_ok inputs ip) as [Hcnt _]. fold st in Hcnt.
  apply not_true_is_false. intros Hacc.
  apply Hiff in Hacc. simpl in Hcnt. lia.
Qed.

End AdmissionFacts.

(** ** Gas utilities *)

Section GasFacts.

Lemma percent_bounds (x pct : Z) :
  (0 <= x)%Z -> (0 <= pct)%Z ->
  (100 * Gas.percent x pct <= x * pct < 100 * Gas.percent x pct + 100)%Z.
Proof.
  intros Hx Hp. unfold Gas.percent.
  assert (0 <= x * pct)%Z by lia.
  rewrite Z.quot_div_nonneg by lia.
  pose proof (Z.div_mod (x * pct) 100 ltac:(lia)).
  pose proof (Z.mod_pos_bound (x * pct) 100 ltac:(lia)). lia.
Qed.

Lemma percent_mono_pct (x p q : Z) :
  (0 <= x)%Z -> (0 <= p <= q)%Z -> (Gas.percent x p <= Gas.percent x q)%Z.
Proof.
  intros Hx Hpq. unfold Gas.percent.
  rewrite !Z.quot_div_nonneg by nia. apply Z.div_le_mono; nia.
Qed.

(** X19. [estimateGasLimit] on a non-negative estimate [g] returns the
    integer part of [1.1 * g]: a limit [s] with [g <= s] and
    [100 s <= 110 g < 100 s + 100]; an error of the provider is passed
    on with the prefix "Could not estimate gas limit: ". *)
Theorem estimateGasLimit_margin (g : Z) :
  (0 <= g)%Z ->
  ∃ s, Gas.estimateGasLimit (NetworkQueue.Returned g) = NetworkQueue.Returned s ∧
       (g <= s)%Z ∧ (100 * s <= 110 * g < 100 * s + 100)%Z.
Proof.
  intros Hg. exists (Gas.percent g 110). split; [done|].
  pose proof (percent_bounds g 110 Hg ltac:(lia)). lia.
Qed.

(** The two shapes of a successful prediction. *)
Lemma predictGasPrice_shape (fd : Gas.FeeData) (pr : Gas.Prediction) :
  fees_nonneg fd ->
  Gas.predictGasPrice fd = Some pr ->
  (∃ b p, (0 <= b)%Z ∧ (0 <= p)%Z ∧
          pr = Gas.mkPrediction
                 (Gas.mkTier (Some (Gas.percent b 120)) (Some (Z.quot p 2)) None "3-5 minutes")
                 (Gas.mkTier (Some (Gas.percent b 150)) (Some p) None "1-3 minutes")
                 (Gas.mkTier (Some (Gas.percent b 200)) (Some (p * 2)%Z) None "<1 minute")
                 (Some b) true) ∨
  (∃ g, (0 <= g)%Z ∧
        pr = Gas.mkPrediction
               (Gas.mkTier None None (Some (Gas.percent g 80)) "3-5 minutes")
               (Gas.mkTier None None (Some g) "1-3 minutes")
               (Gas.mkTier None None (Some (Gas.percent g 120)) "<1 minute")
               None false).
Proof.
  intros (Hg & Hp & Hb). unfold Gas.predictGasPrice.
  destruct (Gas.truthyZ (Gas.maxFeePerGas fd)).
  - destruct (Gas.orZ (Gas.lastBaseFeePerGas fd) (Gas.gasPrice fd)) as [b|] eqn:Hbase; [|done].
    destruct (Gas.maxPriorityFeePerGas fd) as [p|] eqn:Hprio; [|done].
    intros [= <-]. left. exists b, p. split_and!; [|by apply Hp|done].
    unfold Gas.orZ in Hbase. destruct (Gas.truthyZ _); [by apply Hb | by apply Hg].
  - destruct (Gas.gasPrice fd) as [g|] eqn:Hgas; [|done].
    intros [= <-]. right. exists g. split; [by apply Hg | done].
Qed.

Lemma quot_half_le (p : Z) : (0 <= p)%Z -> (Z.quot p 2 <= p)%Z.
Proof.
  intros Hp. rewrite Z.quot_div_nonneg by lia. apply Z.div_le_upper_bound; lia.
Qed.

(** X20. Whenever [predictGasPrice] succeeds on non-negative fee data,
    its tiers are ordered, slow <= standard <= fast, in every amount
    they carry (max fee and priority fee on EIP-1559 data, gas price on
    legacy data), and on EIP-1559 data even the slow max fee covers the
    base fee. *)
Theorem predictGasPrice_tiers_ordered (fd : Gas.FeeData) (pr : Gas.Prediction) :
  fees_nonneg fd ->
  Gas.predictGasPrice fd = Some pr ->
  tier_le (Gas.slow pr) (Gas.standard pr) ∧
  tier_le (Gas.standard pr) (Gas.fast pr) ∧
  le_amount (Gas.baseFee pr)
            (if Gas.eip1559Supported pr then Gas.tierMaxFeePerGas (Gas.slow pr) else None).
Proof.
  intros Hnn Hpr.
  destruct (predictGasPrice_shape fd pr Hnn Hpr) as [(b & p & Hb0 & Hp0 & ->)|(g & Hg0 & ->)];
    unfold tier_le, le_amount; simpl.
  - pose proof (percent_mono_pct b 120 150 Hb0 ltac:(lia)).
    pose proof (percent_mono_pct b 150 200 Hb0 ltac:(lia)).
    pose proof (percent_bounds b 120 Hb0 ltac:(lia)).
    pose proof (quot_half_le p Hp0).
    split_and!; try done; lia.
  - pose proof (percent_bounds g 80 Hg0 ltac:(lia)).
    pose proof (percent_bounds g 120 Hg0 ltac:(lia)).
    split_and!; try done; lia.
Qed.

(** X21. [getOptimalGasFees] answers every priority string: ["low"]
    gets the slow tier, ["high"] the fast tier and any other string the
    standard tier, so on non-negative fee data the returned amounts
    always lie between those of the slow and the fast tier; it fails
    exactly when [predictGasPrice] fails. *)
Theorem getOptimalGasFees_between_slow_and_fast (priority : string) (fd : Gas.FeeData) :
  fees_nonneg fd ->
  match Gas.predictGasPrice fd with
  | Some pr =>
      ∃ fees, Gas.getOptimalGasFees priority fd = Some fees ∧
              Gas.tier fees =
                (if String.eqb priority "low" then Gas.slow pr
                 else if String.eqb priority "high" then Gas.fast pr
                 else Gas.standard pr) ∧
              tier_le (Gas.slow pr) (Gas.tier fees) ∧
              tier_le (Gas.tier fees) (Gas.fast pr)
  | None => Gas.getOptimalGasFees priority fd = None
  end.
Proof.
  intros Hnn. unfold Gas.getOptimalGasFees.
  destruct (Gas.predictGasPrice fd) as [pr|] eqn:Hpr; [|done].
  eexists. split; [done|]. cbn [Gas.tier]. unfold Gas.choose. split; [done|].
  destruct (predictGasPrice_shape fd pr Hnn Hpr) as [(b & p & Hb0 & Hp0 & ->)|(g & Hg0 & ->)];
    unfold tier_le, le_amount; cbn [Gas.slow Gas.standard Gas.fast].
  - pose proof (percent_mono_pct b 120 150 Hb0 ltac:(lia)).
    pose proof (percent_mono_pct b 150 200 Hb0 ltac:(lia)).
    pose proof (quot_half_le p Hp0).
    destruct (String.eqb priority "low"); [simpl; split_and!; try done; lia|].
    destruct (String.eqb priority "high"); simpl; split_and!; try done; lia.
  - pose proof (percent_bounds g 80 Hg0 ltac:(lia)).
    pose proof (percent_bounds g 120 Hg0 ltac:(lia)).
    destruct (String.eqb priority "low"); [simpl; split_and!; try done; lia|].
    destruct (String.eqb priority "high"); simpl; split_and!; try done; lia.
Qed.

End GasFacts.

(** ** Networks *)

Section NetworkFacts.

(** Case analysis on the next string or number test of a table lookup. *)
Ltac case_string x :=
  match goal with
  | |- context [String.eqb x ?s] => destruct (String.eqb_spec x s) as [->|?]
  end.

Ltac case_chain id :=
  match goal with
  | |- context [Z.eqb ?n id] => destruct (Z.eqb_spec n id) as [<-|?]
  end.

(** X22. Chain ids and network names are inverse to each other: if
    [getNetworkInfo(network, networkType)] yields a chain id, then
    [getNetworkNameById] of that id gives back the network and the
    normalised type; and every answer of [getNetworkNameById] other
    than "unknown" is an entry of the table with that id. *)
Theorem chainId_round_trip (network networkType : string) (id : Z) :
  (Network.getNetworkInfo_chainId network networkType = inr (Some id) ->
   Network.getNetworkNameById id = (network, Network.normalize network networkType)) ∧
  (∀ n ty, Network.getNetworkNameById id = (n, ty) -> n ≠ "unknown" ->
           ∃ types, Network.assoc n Network.NETWORKS = Some types ∧
                    Network.assoc ty types = Some id).
Proof.
  split.
  - unfold Network.getNetworkInfo_chainId.
    generalize (Network.normalize network networkType). intros ty.
    unfold Network.NETWORKS. cbn [Network.assoc].
    repeat (case_string network;
            [ cbn [Network.assoc];
              repeat (case_string ty; [by intros [= <-]|]);
              done |]).
    done.
  - intros n ty. unfold Network.getNetworkNameById, Network.NETWORKS.
    cbn [Network.find_network Network.find_type].
    repeat (case_chain id;
            [intros [= <- <-] _; eexists; split; reflexivity|]).
    by intros [= <- <-].
Qed.

(** X23. On each of the five supported networks the type alias
    ["testnet"] resolves to an existing chain (mumbai on polygon, the
    network's own testnet on bsc, goerli elsewhere), as does
    ["mainnet"]; a network name that is neither in the table nor a
    member name of [Object.prototype] is reported as unsupported. *)
Theorem testnet_alias_resolves (network : string) :
  JsObject.plain network = true ->
  match Network.assoc network Network.NETWORKS with
  | Some types =>
      (∃ id, Network.getNetworkInfo_chainId network "testnet" = inr (Some id)) ∧
      (∃ id, Network.getNetworkInfo_chainId network "mainnet" = inr (Some id))
  | None =>
      ∀ networkType,
        Network.getNetworkInfo_chainId network networkType =
        inl ("Unsupported network: " +:+ network)
  end.
Proof.
  intros _.
  unfold Network.getNetworkInfo_chainId, Network.NETWORKS. cbn [Network.assoc].
  repeat (case_string network; [split; eexists; reflexivity|]).
  done.
Qed.

Lemma env_or_nonempty env var dflt :
  dflt ≠ EmptyString -> Network.env_or env var dflt ≠ EmptyString.
Proof.
  intros Hd. unfold Network.env_or. destruct (env var) as [s|]; [|done].
  by destruct (String.eqb_spec s EmptyString).
Qed.

Ltac provider_leaf env :=
  match goal with
  | |- context [Network.env_or env ?var ?dflt] =>
      let Hne := fresh "Hne" in
      assert (Hne : Network.env_or env var dflt ≠ EmptyString)
        by (by apply env_or_nonempty);
      destruct (String.eqb_spec (Network.env_or env var dflt) EmptyString);
      [done | split; [done | eexists; reflexivity]]
  end.

(** [Network.provides] is the success of [getProvider], under every
    environment. *)
Lemma getProvider_provides (env : string -> option string) (network networkType : string) :
  (∃ url, Network.getProvider env network networkType = inr url) <->
  Network.provides network networkType = true.
Proof.
  unfold Network.getProvider, Network.provides.
  generalize (Network.normalize network networkType). intros ty.
  unfold Network.RPC_URLS. cbn [Network.assoc].
  repeat (case_string network;
          [ cbn [Network.assoc];
            repeat (case_string ty;
                    [ cbv zeta;
                      match goal with
                      | |- context [Network.env_or env ?var ?dflt] =>
                          pose proof (env_or_nonempty env var dflt) as Hne;
                          destruct (String.eqb_spec (Network.env_or env var dflt) EmptyString)
                            as [Hempty|_];
                          [exfalso; by apply Hne | split; [done | by eexists]]
                      end |]);
            split; [by intros [? ?] | done] |]).
  split; [by intros [? ?] | done].
Qed.

(** X25. [getProvider] and [getNetworkInfo] agree on what is supported,
    whatever the environment: for strings that are not member names of
    [Object.prototype], [getProvider] returns a provider, for a
    non-empty URL, exactly for the (network, type) pairs to which
    [getNetworkInfo] gives a chain id, and throws for all others. *)
Theorem getProvider_supported_pairs (env : string -> option string)
    (network networkType : string) :
  JsObject.plain network = true -> JsObject.plain networkType = true ->
  match Network.getProvider env network networkType with
  | inr url =>
      url ≠ EmptyString ∧
      ∃ id, Network.getNetworkInfo_chainId network networkType = inr (Some id)
  | inl _ => ¬ ∃ id, Network.getNetworkInfo_chainId network networkType = inr (Some id)
  end.
Proof.
  intros _ _.
  unfold Network.getProvider, Network.getNetworkInfo_chainId.
  generalize (Network.normalize network networkType). intros ty.
  unfold Network.RPC_URLS, Network.NETWORKS. cbn [Network.assoc].
  repeat (case_string network;
          [ cbn [Network.assoc];
            repeat (case_string ty; [cbv zeta; provider_leaf env|]);
            by intros [id [=]] |]).
  by intros [id [=]].
Qed.

End NetworkFacts.

(** ** The further properties at concrete inputs *)

(** X1 on a cache of capacity 2 that is written three times. *)
Lemma cache_never_exceeds_maxSize_witness :
  let history :=
    [MemoryCache.OpSet 1 "a" 1%nat None; MemoryCache.OpSet 2 "b" 2%nat None;
     MemoryCache.OpSet 3 "c" 3%nat None] in
  Forall CacheHistory.sets_named history ∧
  MemoryCache.map_size (MemoryCache.cache (MemoryCache.run None (Some 2) history)) <= 2.
Proof.
  intros history.
  assert (Hnamed : Forall CacheHistory.sets_named history) by (repeat constructor; done).
  split; [exact Hnamed|].
  exact (cache_never_exceeds_maxSize None (Some 2) history Hnamed).
Defined.

(** X2 on an entry written at time 1000 with a TTL of 500. *)
Lemma set_then_get_until_expiry_witness :
  (500 ≠ 0) ∧
  (MemoryCache.get 1500 "k"
     (MemoryCache.set 1000 "k" 7%nat (Some 500) (MemoryCache.new None None))).1 = Some 7%nat ∧
  (MemoryCache.get 1501 "k"
     (MemoryCache.set 1000 "k" 7%nat (Some 500) (MemoryCache.new None None))).1 = None.
Proof.
  assert (Hnz : 500 ≠ 0) by done.
  split_and!; [exact Hnz | |].
  - exact (set_then_get_until_expiry 1000 "k" 7%nat 500 1500 (MemoryCache.new None None) Hnz).
  - exact (set_then_get_until_expiry 1000 "k" 7%nat 500 1501 (MemoryCache.new None None) Hnz).
Defined.

(** X4 on a full cache of capacity 2: writing ["c"] evicts ["a"], not
    the more recently written ["b"]. *)
Lemma recently_used_entry_survives_set_witness :
  let history := [MemoryCache.OpSet 1 "a" 1%nat None; MemoryCache.OpSet 2 "b" 2%nat None] in
  Forall CacheHistory.sets_named history ∧
  MemoryCache.map_get "b"
    (MemoryCache.cache
       (MemoryCache.set 3 "c" 3%nat None (MemoryCache.run None (Some 2) history))) =
  Some (MemoryCache.mkItem 2%nat 60002 2).
Proof.
  intros history.
  assert (Hnamed : Forall CacheHistory.sets_named history) by (repeat constructor; done).
  split; [exact Hnamed|].
  apply (recently_used_entry_survives_set None (Some 2) history "b"
           (MemoryCache.mkItem 2%nat 60002 2) ("a", MemoryCache.mkItem 1%nat 60001 1)
           3 "c" 3%nat None Hnamed).
  - reflexivity.
  - left.
  - simpl. lia.
  - done.
Defined.

(** X8 on the methods [getBalance] and [getCode]. *)
Lemma set_keeps_other_methods_witness :
  RpcCache.colon_free "getBalance" = true ∧ RpcCache.colon_free "getCode" = true ∧
  RpcCache.createKey "getBalance" [Js.Str "0xa"] ≠ RpcCache.createKey "getCode" [Js.Str "0xa"].
Proof.
  split_and!; [reflexivity | reflexivity |].
  apply (set_keeps_other_methods 1 "getBalance" "getCode" [Js.Str "0xa"] [Js.Str "0xa"]
           5%nat (RpcCache.new ∅ None)); done.
Defined.

(** X10 on a cache holding one [getCode] and one [getBalance] entry. *)
Lemma clearCache_all_keeps_unlisted_methods_witness :
  let history := [RpcCache.OpSet 1 "getCode" [] 5%nat; RpcCache.OpSet 2 "getBalance" [] 6%nat] in
  RpcCache.colon_free "getCode" = true ∧
  (MemoryCache.value <$>
     RpcCache.entry (RpcCache.createKey "getCode" [])
       (CacheClients.clearCache None (RpcCache.run ∅ None history))) = Some 5%nat.
Proof.
  intros history. split; [reflexivity|].
  rewrite (clearCache_all_keeps_unlisted_methods ∅ None history "getCode" [] eq_refl).
  by vm_compute.
Defined.

(** X11 on an empty cache and the method [getBalance] (TTL 10000). *)
Lemma sendRpcRequest_caches_answers_only_witness :
  let r := RpcCache.run (V:=nat) ∅ None [] in
  JsObject.plain "getBalance" = true ∧
  (RpcCache.get 10 "getBalance" [Js.Str "0xa"] r).1 = None ∧
  (CacheClients.sendRpcRequest (E:=string) 10020 10021 "getBalance" [Js.Str "0xa"]
     (NetworkQueue.Thrown "down")
     (CacheClients.sendRpcRequest (E:=string) 10 20 "getBalance" [Js.Str "0xa"]
        (NetworkQueue.Returned 7%nat) r).1.2).1.1 = NetworkQueue.Returned 7%nat.
Proof.
  intros r.
  assert (Hmiss : (RpcCache.get 10 "getBalance" [Js.Str "0xa"] r).1 = None) by reflexivity.
  split; [reflexivity|]. split; [exact Hmiss|].
  destruct (sendRpcRequest_caches_answers_only (E:=string) ∅ None [] 10 20
              "getBalance" [Js.Str "0xa"] eq_refl Hmiss) as [Hok _].
  apply (Hok 7%nat 10000 10020 10021 (NetworkQueue.Thrown "down")).
  - by vm_compute.
  - done.
  - lia.
Defined.

(** X14 on a fresh connection subscribing twice to new blocks of a
    supported network: the second request attaches no second listener. *)
Lemma subscribe_twice_same_registries_witness :
  let r1 := Hub.subscribe Hub.Blocks "ethereum:mainnet" "ethereum" "mainnet" 1 "s1"
              Hub.empty_registry Hub.new_connection in
  let r2 := Hub.subscribe Hub.Blocks "ethereum:mainnet" "ethereum" "mainnet" 2 "s1"
              r1.1.1 r1.1.2 in
  r1.2 = [Hub.AttachBlockListener "ethereum:mainnet"] ∧
  (Hub.isRateLimited 2 "s1" (Hub.event_name Hub.Blocks) (Hub.requestLimiter r1.1.2)).1 = false ∧
  r2.1.1 = r1.1.1 ∧ r2.2 = [].
Proof.
  intros r1 r2.
  assert (Hr1 : r1.2 = [Hub.AttachBlockListener "ethereum:mainnet"]) by (by vm_compute).
  assert (Hquiet : ∀ message, Hub.EmitError "s1" message ∉ r1.2).
  { intros message. rewrite Hr1. set_solver. }
  assert (Hlim : (Hub.isRateLimited 2 "s1" (Hub.event_name Hub.Blocks)
                    (Hub.requestLimiter r1.1.2)).1 = false) by (by vm_compute).
  destruct (subscribe_twice_same_registries Hub.Blocks "ethereum:mainnet" "ethereum" "mainnet"
              1 2 "s1" Hub.empty_registry Hub.new_connection Hquiet Hlim) as (H1 & _ & H3).
  by split_and!.
Defined.

(** X15 and X16 on a client that subscribed once to a balance. *)
Lemma limiter_slot_never_exceeds_limit_witness :
  let inputs :=
    [Hub.Connect "s1"; Hub.Receive 1 "s1" (Hub.SubscribeBalance "0xa" "ethereum" "mainnet")] in
  ∃ conn,
    Hub.sockets (Hub.run inputs) !! "s1" = Some conn ∧
    Hub.requests (Hub.requestLimiter conn) !! "s1:subscribe:balance" = Some [1] ∧
    (length [1] <= 60)%nat.
Proof.
  intros inputs. eexists. split; [by vm_compute|]. split; [by vm_compute|].
  eapply (limiter_slot_never_exceeds_limit inputs "s1" _ "s1:subscribe:balance" [1]);
    by vm_compute.
Defined.

Lemma rate_limit_slots_are_separate_witness :
  Hub.Balances ≠ Hub.Blocks ∧
  Hub.requests
    (Hub.requestLimiter
       (Hub.subscribe Hub.Balances "0xa" "ethereum" "mainnet" 1 "s1"
          Hub.empty_registry Hub.new_connection).1.2)
    !! ("s1" +:+ ":" +:+ Hub.event_name Hub.Blocks) =
  Hub.requests (Hub.requestLimiter Hub.new_connection)
    !! ("s1" +:+ ":" +:+ Hub.event_name Hub.Blocks).
Proof.
  assert (Hne : Hub.Balances ≠ Hub.Blocks) by done.
  split; [exact Hne|].
  apply (rate_limit_slots_are_separate Hub.Balances Hub.Blocks "0xa" "ethereum" "mainnet"
           1 2 "s1" Hub.empty_registry Hub.new_connection Hne).
Defined.

(** X18 on one address: twenty handshakes, of which ten are refused,
    then the ten open sockets close; the next handshake is refused. *)
Lemma admission_refuses_after_ten_refusals_witness :
  let inputs :=
    replicate 20 (Admission.Handshake "10.0.0.1") ++ replicate 10 (Admission.Close "10.0.0.1") in
  JsObject.plain "10.0.0.1" = true ∧
  Admission.open (Admission.run inputs).1 = [] ∧
  10 <= Admission.occurrences "10.0.0.1" (Admission.run inputs).2 ∧
  (Admission.handshake "10.0.0.1" (Admission.run inputs).1).1 = false.
Proof.
  intros inputs.
  assert (Hrefused : 10 <= Admission.occurrences "10.0.0.1" (Admission.run inputs).2)
    by (vm_compute; discriminate).
  split_and!; [reflexivity | by vm_compute | exact Hrefused |].
  by apply (admission_refuses_after_ten_refusals inputs "10.0.0.1" eq_refl).
Defined.

(** X19 on the estimate of a plain transfer. *)
Lemma estimateGasLimit_margin_witness :
  (0 <= 21000)%Z ∧
  ∃ s, Gas.estimateGasLimit (NetworkQueue.Returned 21000%Z) = NetworkQueue.Returned s ∧
       (21000 <= s)%Z ∧ (100 * s <= 110 * 21000 < 100 * s + 100)%Z.
Proof.
  assert (H0 : (0 <= 21000)%Z) by lia.
  split; [exact H0|]. exact (estimateGasLimit_margin 21000 H0).
Defined.

(** X20 and X21 on EIP-1559 fee data with base fee 101 and priority fee 3. *)
Lemma predictGasPrice_tiers_ordered_witness :
  let fd := Gas.mkFeeData (Some 90%Z) (Some 205%Z) (Some 3%Z) (Some 101%Z) in
  let pr :=
    Gas.mkPrediction
      (Gas.mkTier (Some 121%Z) (Some 1%Z) None "3-5 minutes")
      (Gas.mkTier (Some 151%Z) (Some 3%Z) None "1-3 minutes")
      (Gas.mkTier (Some 202%Z) (Some 6%Z) None "<1 minute")
      (Some 101%Z) true in
  fees_nonneg fd ∧ Gas.predictGasPrice fd = Some pr ∧
  tier_le (Gas.slow pr) (Gas.standard pr) ∧ tier_le (Gas.standard pr) (Gas.fast pr).
Proof.
  intros fd pr.
  assert (Hnn : fees_nonneg fd) by (split_and!; intros x [= <-]; lia).
  assert (Hpr : Gas.predictGasPrice fd = Some pr) by reflexivity.
  destruct (predictGasPrice_tiers_ordered fd pr Hnn Hpr) as (H1 & H2 & _).
  by split_and!.
Defined.

Lemma getOptimalGasFees_between_slow_and_fast_witness :
  let fd := Gas.mkFeeData (Some 90%Z) (Some 205%Z) (Some 3%Z) (Some 101%Z) in
  fees_nonneg fd ∧
  ∃ fees, Gas.getOptimalGasFees "urgent" fd = Some fees ∧
          Gas.tier fees = Gas.mkTier (Some 151%Z) (Some 3%Z) None "1-3 minutes".
Proof.
  intros fd.
  assert (Hnn : fees_nonneg fd) by (split_and!; intros x [= <-]; lia).
  split; [exact Hnn|].
  pose proof (getOptimalGasFees_between_slow_and_fast "urgent" fd Hnn) as H.
  change (Gas.predictGasPrice fd) with
    (Some (Gas.mkPrediction
             (Gas.mkTier (Some 121%Z) (Some 1%Z) None "3-5 minutes")
             (Gas.mkTier (Some 151%Z) (Some 3%Z) None "1-3 minutes")
             (Gas.mkTier (Some 202%Z) (Some 6%Z) None "<1 minute")
             (Some 101%Z) true)) in H.
  destruct H as (fees & Hf & Ht & _). exists fees. by split.
Defined.

(** X6 on [getBalance] (TTL 10000) written at time 50. *)
Lemma rpc_set_then_get_witness :
  JsObject.plain "getBalance" = true ∧
  (RpcCache.get 10050 "getBalance" [Js.Str "0xa"]
     (RpcCache.set 50 "getBalance" [Js.Str "0xa"] 7%nat (RpcCache.new ∅ None))).1 = Some 7%nat ∧
  (RpcCache.get 10051 "getBalance" [Js.Str "0xa"]
     (RpcCache.set 50 "getBalance" [Js.Str "0xa"] 7%nat (RpcCache.new ∅ None))).1 = None.
Proof.
  destruct (rpc_set_then_get 50 "getBalance" [Js.Str "0xa"] 7%nat (RpcCache.new ∅ None) eq_refl)
    as [_ Httl].
  split_and!; [reflexivity | |].
  - apply (Httl 10000 10050); [by vm_compute | done].
  - apply (Httl 10000 10051); [by vm_compute | done].
Defined.

(** X7 on a configuration that overrides [getBalance] with 0. *)
Lemma getTtl_override_and_fallback_witness :
  let cfg : gmap string N := {[ "getBalance" := 0 ]} in
  JsObject.plain "getBalance" = true ∧
  RpcCache.getTtl "getBalance" (RpcCache.run (V:=nat) cfg None []) = Some 5000.
Proof.
  intros cfg. split; [reflexivity|].
  destruct (getTtl_override_and_fallback (V:=nat) cfg None [] "getBalance" eq_refl)
    as (_ & Hzero & _).
  apply Hzero. by vm_compute.
Defined.

(** X17 on one address with twelve handshakes and one close. *)
Lemma admission_counter_invariant_witness :
  let inputs := replicate 12 (Admission.Handshake "10.0.0.1") ++ [Admission.Close "10.0.0.1"] in
  JsObject.plain "10.0.0.1" = true ∧
  Admission.occurrences "10.0.0.1" (Admission.open (Admission.run inputs).1) <= 10 ∧
  Admission.counter "10.0.0.1" (Admission.run inputs).1 =
    Admission.occurrences "10.0.0.1" (Admission.open (Admission.run inputs).1) +
    Admission.occurrences "10.0.0.1" (Admission.run inputs).2.
Proof.
  intros inputs. split; [reflexivity|].
  exact (admission_counter_invariant inputs "10.0.0.1" eq_refl).
Defined.

(** X23 on [polygon]. *)
Lemma testnet_alias_resolves_witness :
  JsObject.plain "polygon" = true ∧
  ∃ id, Network.getNetworkInfo_chainId "polygon" "testnet" = inr (Some id).
Proof.
  split; [reflexivity|].
  pose proof (testnet_alias_resolves "polygon" eq_refl) as H.
  change (Network.assoc "polygon" Network.NETWORKS) with
    (Some [("mainnet", 137%Z); ("mumbai", 80001%Z)]) in H.
  exact (proj1 H).
Defined.

(** X25 on [bsc] with no variable set, and on an unsupported type. *)
Lemma getProvider_supported_pairs_witness :
  JsObject.plain "bsc" = true ∧ JsObject.plain "testnet" = true ∧
  ∃ id, Network.getNetworkInfo_chainId "bsc" "testnet" = inr (Some id).
Proof.
  split_and!; [reflexivity | reflexivity |].
  pose proof (getProvider_supported_pairs (fun _ => None) "bsc" "testnet" eq_refl eq_refl) as H.
  change (Network.getProvider (fun _ => None) "bsc" "testnet") with
    (inr "https://bsc-testnet.publicnode.com" : string + string) in H.
  exact (proj2 H).
Defined.

(** X13 on two subscribers of a balance, one of whom disconnects while
    the balance query is under way: only the other one is addressed. *)
Lemma broadcastBalanceUpdate_reads_registry_at_settle_witness :
  let inputs :=
    [Hub.Connect "s1"; Hub.Connect "s2";
     Hub.Receive 1 "s1" (Hub.SubscribeBalance "0xa" "ethereum" "mainnet");
     Hub.Receive 2 "s2" (Hub.SubscribeBalance "0xa" "ethereum" "mainnet")] in
  let later := [Hub.Disconnect "s1"] in
  let res :=
    Broadcast.broadcastBalanceUpdate "0xa" (Hub.activeSubscriptions (Hub.run inputs))
      (NetworkQueue.Resolved 5%nat : NetworkQueue.promise nat string)
      (Hub.activeSubscriptions (Hub.run (inputs ++ later))) in
  "s1" ∈ Hub.members Hub.Balances "0xa" (Hub.activeSubscriptions (Hub.run inputs)) ∧
  (∃ s, res.2 = Some s ∧ "s2" ∈ s) ∧
  ¬ (∃ s, res.2 = Some s ∧ "s1" ∈ s).
Proof.
  intros inputs later res.
  destruct (broadcastBalanceUpdate_reads_registry_at_settle inputs later "0xa"
              (NetworkQueue.Resolved 5%nat : NetworkQueue.promise nat string))
    as (Haddr & _ & _).
  fold res in Haddr. split_and!.
  - by vm_compute.
  - apply Haddr. split; [by vm_compute|]. eexists. split; [by vm_compute|]. by vm_compute.
  - intros Hs1. apply Haddr in Hs1 as (_ & conn & Hc & _). by vm_compute in Hc.
Defined.


(** X27 on the address ["constructor"]. *)
Lemma prototype_member_names_never_subscribe_witness :
  JsObject.plain "constructor" = false ∧
  Hub.unsubscribe Hub.Balances "constructor" "s1"
    (Hub.activeSubscriptions (Hub.run [Hub.Connect "s1"])) Hub.new_connection =
  (Hub.activeSubscriptions (Hub.run [Hub.Connect "s1"]), Hub.new_connection,
   [Hub.Uncaught "s1"]).
Proof.
  split; [reflexivity|].
  apply (prototype_member_names_never_subscribe [Hub.Connect "s1"] Hub.Balances "constructor"
           "ethereum" "mainnet" 1 "s1" Hub.new_connection eq_refl).
Defined.
